(** * akarpov_music_bot: the resolution-and-caching pipeline of [main.py]

    A shallow embedding of [src/main.py] and proofs about it.

    Conventions of the model.
    - A Python [str] is a Rocq [string]; each character stands for one code
      point in the range 0..255.
    - [file_id_storage] is a Python [dict] from [str] to [str]: an
      insertion-ordered association list without repeated keys.
    - The file [file_ids.json] is an optional text, the one that [f.read()]
      returns: [None] when the file does not exist.  Opening and writing it
      always succeed.  [json.load] is modelled on every text: it raises
      [JSONDecodeError] or returns a JSON value, whose strings may hold
      code points above 255; nesting deeper than 100 and integers of more
      than 4300 digits are left to the limits of the interpreter.
    - Everything that leaves the process (HTTP requests, Telegram calls) is
      answered by a [world] and recorded, in order, in the [trace] of the
      state.  The clock [time.monotonic] is read from the world as well:
      each reading is numbered, and instants are integers.
    - [print] and the logger are not modelled.
    - Functions of the program are functions [state -> result A * state]:
      a Python exception is [Raise e], and the state reached when it is
      raised is kept, as mutations are in Python. *)

From Stdlib Require Import String Ascii List ZArith NArith Bool Lia Arith.
Import ListNotations.

Local Open Scope string_scope.
Local Open Scope list_scope.

(* ================================================================== *)
(** * Python strings *)
(* ================================================================== *)

Module PyStr.

(** [str.isspace] on one code point below 256: TAB, LF, VT, FF, CR, the
    separators FS, GS, RS and US, the space, NEL and the no-break space. *)
Definition isspace (c : ascii) : bool :=
  let n := N_of_ascii c in
  (((9 <=? n) && (n <=? 13)) || ((28 <=? n) && (n <=? 32))
   || (n =? 133) || (n =? 160))%N.

(** [s.lstrip()] *)
Fixpoint lstrip (s : string) : string :=
  match s with
  | String c r => if isspace c then lstrip r else s
  | EmptyString => s
  end.

(** [s.rstrip()]: a character is dropped when it is white space and
    everything after it has been dropped. *)
Fixpoint rstrip (s : string) : string :=
  match s with
  | String c r =>
      match rstrip r with
      | EmptyString => if isspace c then EmptyString else String c EmptyString
      | r' => String c r'
      end
  | EmptyString => EmptyString
  end.

(** [s.strip()] *)
Definition strip (s : string) : string := rstrip (lstrip s).

(** [sep.join(parts)] *)
Definition join (sep : string) (parts : list string) : string :=
  String.concat sep parts.

(** [bool(s)] for a [str]: the empty string is falsy. *)
Definition truthy (s : string) : bool :=
  match s with EmptyString => false | _ => true end.

(** All characters of [s] are white space. *)
Fixpoint all_space (s : string) : bool :=
  match s with
  | String c r => isspace c && all_space r
  | EmptyString => true
  end.



End PyStr.

(* ================================================================== *)
(** * Python dictionaries from [str] to [str] *)
(* ================================================================== *)

Module Dict.

Definition t := list (string * string).

Definition empty : t := [].

(** [d.get(k)] *)
Fixpoint get (k : string) (d : t) : option string :=
  match d with
  | [] => None
  | (k', v) :: d' => if String.eqb k k' then Some v else get k d'
  end.

(** [k in d] *)
Definition mem (k : string) (d : t) : bool :=
  match get k d with Some _ => true | None => false end.

(** [d[k] = v]: the value of an existing key is replaced where it stands,
    a new key goes to the end. *)
Fixpoint set (k v : string) (d : t) : t :=
  match d with
  | [] => [(k, v)]
  | (k', v') :: d' =>
      if String.eqb k k' then (k', v) :: d' else (k', v') :: set k v d'
  end.

Definition keys (d : t) : list string := map fst d.

(** [dict(pairs)] *)
Definition of_pairs (ps : list (string * string)) : t :=
  fold_left (fun d kv => set (fst kv) (snd kv) d) ps empty.

End Dict.

(* ================================================================== *)
(** * The [json] module: [dumps] on dictionaries from [str] to [str], [loads] *)
(* ================================================================== *)

Module Json.

Definition dquote : ascii := "034"%char.
Definition backslash : ascii := "\"%char.

(** One lower-case hexadecimal digit. *)
Definition hex_digit (n : N) : ascii :=
  if (n <? 10)%N then ascii_of_N (48 + n) else ascii_of_N (87 + n).

(** The replacement of one character by [json.dumps] with
    [ensure_ascii=True]: the quote and the backslash are escaped, the
    control characters with a short escape use it, every other character
    outside the printable ASCII range becomes a [\u00xx] escape. *)
Definition escape_char (c : ascii) : string :=
  let n := N_of_ascii c in
  match n with
  | 92%N => String backslash (String backslash EmptyString)
  | 34%N => String backslash (String dquote EmptyString)
  | 8%N => String backslash "b"
  | 12%N => String backslash "f"
  | 10%N => String backslash "n"
  | 13%N => String backslash "r"
  | 9%N => String backslash "t"
  | _ =>
      if ((n <? 32) || (126 <? n))%N
      then String backslash
             (String "u" (String "0" (String "0"
                (String (hex_digit (n / 16)) (String (hex_digit (n mod 16)) EmptyString)))))
      else String c EmptyString
  end.

Fixpoint escape (s : string) : string :=
  match s with
  | String c r => escape_char c ++ escape r
  | EmptyString => EmptyString
  end.

(** [json.dumps(s)] for a [str] *)
Definition encode_str (s : string) : string :=
  String dquote (escape s ++ String dquote EmptyString).

(** The members of an object, separated by a comma and a space; key and
    value are separated by a colon and a space. *)
Fixpoint encode_members (d : Dict.t) : string :=
  match d with
  | [] => EmptyString
  | [(k, v)] => encode_str k ++ ": " ++ encode_str v
  | (k, v) :: d' => encode_str k ++ ": " ++ encode_str v ++ ", " ++ encode_members d'
  end.

(** [json.dumps(d)] *)
Definition dumps (d : Dict.t) : string :=
  "{" ++ encode_members d ++ "}".

(** White space between the tokens of a JSON text. *)
Definition is_ws (c : ascii) : bool :=
  let n := N_of_ascii c in ((n =? 32) || (n =? 9) || (n =? 10) || (n =? 13))%N.

Fixpoint skip_ws (s : string) : string :=
  match s with
  | String c r => if is_ws c then skip_ws r else s
  | EmptyString => s
  end.

(** The value of a hexadecimal digit, of either case. *)
Definition hex_value (c : ascii) : option N :=
  let n := N_of_ascii c in
  if ((48 <=? n) && (n <=? 57))%N then Some (n - 48)%N
  else if ((97 <=? n) && (n <=? 102))%N then Some (n - 87)%N
  else if ((65 <=? n) && (n <=? 70))%N then Some (n - 55)%N
  else None.

(** The four digits of a [\uXXXX] escape. *)
Definition hex4 (a b c d : ascii) : option N :=
  match hex_value a, hex_value b, hex_value c, hex_value d with
  | Some x, Some y, Some z, Some w => Some (((x * 16 + y) * 16 + z) * 16 + w)%N
  | _, _, _, _ => None
  end.

(** The character a one-letter escape stands for. *)
Definition unescape (c : ascii) : option ascii :=
  match N_of_ascii c with
  | 34%N => Some dquote
  | 92%N => Some backslash
  | 47%N => Some "/"%char
  | 98%N => Some "008"%char
  | 102%N => Some "012"%char
  | 110%N => Some "010"%char
  | 114%N => Some "013"%char
  | 116%N => Some "009"%char
  | _ => None
  end.

(** What the decoder makes of a text, or of the start of one: a value and
    the text that follows it; a [JSONDecodeError]; or a text beyond the
    bounds of this model, on which the limits of the interpreter decide. *)
Inductive outcome (A : Type) : Type :=
| Parsed (a : A) (rest : string)
| Invalid
| Beyond.
Arguments Parsed {A} a rest.
Arguments Invalid {A}.
Arguments Beyond {A}.

(** A JSON value as [json.loads] returns it.  A number keeps its lexeme,
    and so do [NaN], [Infinity] and [-Infinity]; the string [Str None] is
    one that holds a code point above 255, which no string of this model
    holds; an object keeps its members in the order of the text. *)
#[local] Set Warnings "-register-all".
Inductive value : Type :=
| Null
| Bool (b : bool)
| Number (lexeme : string)
| Str (s : option string)
| Array (items : list value)
| Object (members : list (option string * value)).

(** Nesting deeper than [max_depth], and integers of more than
    [max_digits] digits, are beyond the model. *)
Definition max_depth : nat := 100.
Definition max_digits : nat := 4300.

(** One more code point at the head of a decoded string. *)
Definition prepend (n : N) (r : outcome (option string)) : outcome (option string) :=
  match r with
  | Parsed (Some s) rest =>
      if (n <? 256)%N then Parsed (Some (String (ascii_of_N n) s)) rest else Parsed None rest
  | Parsed None rest => Parsed None rest
  | Invalid => Invalid
  | Beyond => Beyond
  end.

(** [scanstring] in strict mode: the input stands just after an opening
    quote; the result is the decoded string and the input after the closing
    quote.  An unterminated string, a control character and an invalid
    escape are errors. *)
Fixpoint scanstring (s : string) : outcome (option string) :=
  match s with
  | EmptyString => Invalid
  | String c r =>
      if Ascii.eqb c dquote then Parsed (Some EmptyString) r
      else if Ascii.eqb c backslash then
        match r with
        | EmptyString => Invalid
        | String e r1 =>
            if Ascii.eqb e "u"%char then
              match r1 with
              | String h1 (String h2 (String h3 (String h4 r2))) =>
                  match hex4 h1 h2 h3 h4 with
                  | Some n => prepend n (scanstring r2)
                  | None => Invalid
                  end
              | _ => Invalid
              end
            else
              match unescape e with
              | Some ch => prepend (N_of_ascii ch) (scanstring r1)
              | None => Invalid
              end
        end
      else if (N_of_ascii c <? 32)%N then Invalid
      else prepend (N_of_ascii c) (scanstring r)
  end.

Definition is_digit (c : ascii) : bool :=
  let n := N_of_ascii c in ((48 <=? n) && (n <=? 57))%N.

(** The digits at the head of a text, and what follows them. *)
Fixpoint digits (s : string) : string * string :=
  match s with
  | String c r =>
      if is_digit c then let (ds, rest) := digits r in (String c ds, rest)
      else (EmptyString, s)
  | EmptyString => (EmptyString, s)
  end.

(** The integer part of a number: [0], or a digit other than [0] and the
    digits that follow it. *)
Definition integer (s : string) : option (string * string) :=
  match s with
  | String c r =>
      if Ascii.eqb c "0"%char then Some ("0", r)
      else if is_digit c then let (ds, rest) := digits r in Some (String c ds, rest)
      else None
  | EmptyString => None
  end.

(** The fraction of a number: a point and at least one digit. *)
Definition fraction (s : string) : option (string * string) :=
  match s with
  | String p (String c r) =>
      if Ascii.eqb p "."%char && is_digit c
      then let (ds, rest) := digits r in Some (String p (String c ds), rest)
      else None
  | _ => None
  end.

(** The exponent of a number: [e] or [E], a sign or none, and at least one
    digit. *)
Definition exponent (s : string) : option (string * string) :=
  match s with
  | String e r =>
      if Ascii.eqb e "e"%char || Ascii.eqb e "E"%char then
        let (sign, r1) :=
          match r with
          | String g r' =>
              if Ascii.eqb g "+"%char || Ascii.eqb g "-"%char
              then (String g EmptyString, r') else (EmptyString, r)
          | EmptyString => (EmptyString, r)
          end in
        match digits r1 with
        | (EmptyString, _) => None
        | (ds, rest) => Some (String e (sign ++ ds), rest)
        end
      else None
  | EmptyString => None
  end.

(** A number: a minus sign or none, the integer part, and a fraction and
    an exponent when they are complete. *)
Definition number (s : string) : outcome value :=
  let (sign, s1) :=
    match s with
    | String c r => if Ascii.eqb c "-"%char then ("-", r) else (EmptyString, s)
    | EmptyString => (EmptyString, s)
    end in
  match integer s1 with
  | None => Invalid
  | Some (int, s2) =>
      let (frac, s3) :=
        match fraction s2 with Some (f, r) => (f, r) | None => (EmptyString, s2) end in
      let (exp, s4) :=
        match exponent s3 with Some (e, r) => (e, r) | None => (EmptyString, s3) end in
      match frac, exp with
      | EmptyString, EmptyString =>
          if (max_digits <? String.length int)%nat then Beyond
          else Parsed (Number (sign ++ int)) s4
      | _, _ => Parsed (Number (sign ++ int ++ frac ++ exp)) s4
      end
  end.

(** What follows the word [word] at the head of a text. *)
Fixpoint after (word s : string) : option string :=
  match word with
  | EmptyString => Some s
  | String a word' =>
      match s with
      | String b s' => if Ascii.eqb a b then after word' s' else None
      | EmptyString => None
      end
  end.

(** The named constants. *)
Definition constant (s : string) : option (value * string) :=
  match after "null" s with
  | Some r => Some (Null, r)
  | None =>
  match after "true" s with
  | Some r => Some (Bool true, r)
  | None =>
  match after "false" s with
  | Some r => Some (Bool false, r)
  | None =>
  match after "NaN" s with
  | Some r => Some (Number "NaN", r)
  | None =>
  match after "Infinity" s with
  | Some r => Some (Number "Infinity", r)
  | None =>
  match after "-Infinity" s with
  | Some r => Some (Number "-Infinity", r)
  | None => None
  end end end end end end.

(** [scan_once]: the value at the head of a text, white space skipped;
    the members of an object, the input standing where a key must open;
    the items of an array, the input standing where an item must start.
    [fuel] bounds the recursion of the model and [depth] the nesting. *)
Fixpoint value_at (fuel depth : nat) (s : string) {struct fuel} : outcome value :=
  match fuel with
  | O => Beyond
  | S fuel' =>
      match s with
      | EmptyString => Invalid
      | String c r =>
          if Ascii.eqb c dquote then
            match scanstring r with
            | Parsed k r1 => Parsed (Str k) r1
            | Invalid => Invalid
            | Beyond => Beyond
            end
          else if Ascii.eqb c "{"%char then
            match depth with
            | O => Beyond
            | S depth' =>
                match skip_ws r with
                | EmptyString => Invalid
                | String c1 r1 =>
                    if Ascii.eqb c1 "}"%char then Parsed (Object []) r1
                    else
                      match members_at fuel' depth' (String c1 r1) with
                      | Parsed ms r2 => Parsed (Object ms) r2
                      | Invalid => Invalid
                      | Beyond => Beyond
                      end
                end
            end
          else if Ascii.eqb c "["%char then
            match depth with
            | O => Beyond
            | S depth' =>
                match skip_ws r with
                | EmptyString => Invalid
                | String c1 r1 =>
                    if Ascii.eqb c1 "]"%char then Parsed (Array []) r1
                    else
                      match items_at fuel' depth' (String c1 r1) with
                      | Parsed vs r2 => Parsed (Array vs) r2
                      | Invalid => Invalid
                      | Beyond => Beyond
                      end
                end
            end
          else
            match constant s with
            | Some (v, r1) => Parsed v r1
            | None => number s
            end
      end
  end
with members_at (fuel depth : nat) (s : string) {struct fuel}
  : outcome (list (option string * value)) :=
  match fuel with
  | O => Beyond
  | S fuel' =>
      match s with
      | EmptyString => Invalid
      | String q r =>
          if Ascii.eqb q dquote then
            match scanstring r with
            | Parsed k r1 =>
                match skip_ws r1 with
                | EmptyString => Invalid
                | String colon r2 =>
                    if Ascii.eqb colon ":"%char then
                      match value_at fuel' depth (skip_ws r2) with
                      | Parsed v r3 =>
                          match skip_ws r3 with
                          | EmptyString => Invalid
                          | String sep r4 =>
                              if Ascii.eqb sep "}"%char then Parsed [(k, v)] r4
                              else if Ascii.eqb sep ","%char then
                                match members_at fuel' depth (skip_ws r4) with
                                | Parsed ms r5 => Parsed ((k, v) :: ms) r5
                                | Invalid => Invalid
                                | Beyond => Beyond
                                end
                              else Invalid
                          end
                      | Invalid => Invalid
                      | Beyond => Beyond
                      end
                    else Invalid
                end
            | Invalid => Invalid
            | Beyond => Beyond
            end
          else Invalid
      end
  end
with items_at (fuel depth : nat) (s : string) {struct fuel} : outcome (list value) :=
  match fuel with
  | O => Beyond
  | S fuel' =>
      match value_at fuel' depth s with
      | Parsed v r1 =>
          match skip_ws r1 with
          | EmptyString => Invalid
          | String sep r2 =>
              if Ascii.eqb sep "]"%char then Parsed [v] r2
              else if Ascii.eqb sep ","%char then
                match items_at fuel' depth (skip_ws r2) with
                | Parsed vs r3 => Parsed (v :: vs) r3
                | Invalid => Invalid
                | Beyond => Beyond
                end
              else Invalid
          end
      | Invalid => Invalid
      | Beyond => Beyond
      end
  end.

(** [json.loads(s)]: one value, with white space around it and nothing
    else. *)
Definition loads (s : string) : outcome value :=
  match value_at (2 * String.length s + 2) max_depth (skip_ws s) with
  | Parsed v rest =>
      match skip_ws rest with
      | EmptyString => Parsed v EmptyString
      | _ => Invalid
      end
  | Invalid => Invalid
  | Beyond => Beyond
  end.

(** The value as the program reads it when it is a mapping of this model. *)
Definition narrow (v : value) : option string :=
  match v with
  | Str (Some s) => Some s
  | _ => None
  end.

(** The members of an object whose keys are strings of this model. *)
Fixpoint pairs (ms : list (option string * value)) : option (list (string * option string)) :=
  match ms with
  | [] => Some []
  | (Some k, v) :: ms' =>
      match pairs ms' with
      | Some ps => Some ((k, narrow v) :: ps)
      | None => None
      end
  | (None, _) :: _ => None
  end.

(** [d[k] = v] while the dictionary of an object is built: a later member
    replaces the value of an earlier one with the same key, which keeps its
    place. *)
Fixpoint put (k : string) (v : option string) (d : list (string * option string))
  : list (string * option string) :=
  match d with
  | [] => [(k, v)]
  | (k', v') :: d' =>
      if String.eqb k k' then (k', v) :: d' else (k', v') :: put k v d'
  end.

Fixpoint strings (d : list (string * option string)) : option Dict.t :=
  match d with
  | [] => Some []
  | (k, Some v) :: d' =>
      match strings d' with
      | Some r => Some ((k, v) :: r)
      | None => None
      end
  | (_, None) :: _ => None
  end.

(** The dictionary from [str] to [str] that a value is, if it is one. *)
Definition mapping (v : value) : option Dict.t :=
  match v with
  | Object ms =>
      match pairs ms with
      | Some ps => strings (fold_left (fun d kv => put (fst kv) (snd kv) d) ps [])
      | None => None
      end
  | _ => None
  end.

(** The member of an object that [json.dumps] writes for an item of a
    dictionary, and the item as [pairs] reads it. *)
Definition member (kv : string * string) : option string * value :=
  (Some (fst kv), Str (Some (snd kv))).

Definition lift (kv : string * string) : string * option string :=
  (fst kv, Some (snd kv)).

End Json.

(* ================================================================== *)
(** * [cachetools.TTLCache] with [str] keys *)
(* ================================================================== *)

Module TTLCache.

Section Cache.
Context {V : Type}.

(** One entry: the key, the value and the instant at which it expires. *)
Record link := { key : string; value : V; expires : Z }.

(** The entries, least recently used first. *)
Definition t := list link.

(** [TTLCache(maxsize=100, ttl=600)] *)
Definition maxsize : nat := 100.
Definition ttl : Z := 600.

Definition empty : t := [].

Fixpoint find (k : string) (c : t) : option link :=
  match c with
  | [] => None
  | l :: c' => if String.eqb k (key l) then Some l else find k c'
  end.

(** The entries of the other keys. *)
Definition remove (k : string) (c : t) : t :=
  filter (fun l => negb (String.eqb k (key l))) c.

(** [k in cache], read at the instant [now]: an entry counts as present
    while [now < expires], as in cachetools 5. *)
Definition contains (now : Z) (k : string) (c : t) : bool :=
  match find k c with
  | Some l => (now <? expires l)%Z
  | None => false
  end.

(** [cache[k]], read at the instant [now]: the entry becomes the most
    recently used one; [None] is the [KeyError] of a missing or expired
    entry. *)
Definition getitem (now : Z) (k : string) (c : t) : option V * t :=
  match find k c with
  | Some l =>
      let c' := remove k c ++ [l] in
      if (now <? expires l)%Z then (Some (value l), c') else (None, c')
  | None => (None, c)
  end.

(** [expire(now)]: the expired entries are removed.  The library walks its
    entries from the oldest write and stops at the first one that has not
    expired; with a fixed [ttl] and a clock that never goes back, as
    [time.monotonic] is, these are all the expired entries. *)
Definition expire (now : Z) (c : t) : t :=
  filter (fun l => (now <? expires l)%Z) c.

(** [while currsize + 1 > maxsize: popitem()]: the least recently used
    entries leave until one more entry fits. *)
Fixpoint make_room (c : t) : t :=
  match c with
  | [] => []
  | _ :: c' => if (maxsize <? length c + 1)%nat then make_room c' else c
  end.

(** [cache[k] = v] at the instant [now]: the expired entries leave, room is
    made for a new key, and the entry becomes the most recently used one,
    expiring [ttl] after [now]. *)
Definition setitem (now : Z) (k : string) (v : V) (c : t) : t :=
  let c1 := expire now c in
  let c2 := match find k c1 with Some _ => c1 | None => make_room c1 end in
  remove k c2 ++ [{| key := k; value := v; expires := (now + ttl)%Z |}].

End Cache.

Arguments link : clear implicits.
Arguments t : clear implicits.

End TTLCache.

(* ================================================================== *)
(** * Data model *)
(* ================================================================== *)

(** A key of a JSON object: absent, [null] or a value. *)
Inductive jfield (A : Type) : Type :=
| Missing
| JNull
| Has (a : A).
Arguments Missing {A}.
Arguments JNull {A}.
Arguments Has {A} a.

(** [{"slug": ...}], the album of a song. *)
Record album := { album_slug : option string }.

(** [{"name": ...}], one author of a song. *)
Record author := { author_name : option string }.

(** One song record of the catalog API, as the parsed JSON object.  A key
    that is [None] is missing from the object; a key that is present holds
    a value of the type the API documents for it, and [album] and
    [image_cropped] may also hold [null]. *)
Record song := {
  s_slug : option string;
  s_file : option string;
  s_length : option Z;
  s_authors : option (list author);
  s_name : option string;
  s_album : jfield album;
  s_image_cropped : jfield string
}.

(** One page of the catalog API: [{"results": [...], "next": ...}]. *)
Record page := {
  results : option (list song);
  next : option string
}.

(** [InlineQueryResultCachedAudio(id, audio_file_id, caption)] *)
Record cached_audio := {
  id : string;
  audio_file_id : string;
  caption : string
}.

(** The arguments of [bot.send_audio]. *)
Record audio_request := {
  chat_id : string;
  audio_name : string;
  audio : string;
  duration : Z;
  performer : string;
  title : string;
  audio_caption : string;
  thumbnail : option string
}.

(** The [Message] that [bot.send_audio] returns: [message.audio] is [None]
    or carries a [file_id]. *)
Record message := { message_audio : option string }.

(** Python exceptions. *)
Inductive exn :=
| KeyError (k : string)
| TypeError
| AttributeError
| JSONDecodeError
| ClientError (what : string)
| TelegramError (what : string).

(** What the outside world answers to a request: an exception of the
    client library, or a response with its status and body. *)
Inductive reply (B : Type) : Type :=
| Fails (e : exn)
| Response (status : Z) (body : B).
Arguments Fails {B} e.
Arguments Response {B} status body.

(** What leaves the process. *)
Inductive event :=
| EvSearch (url : string)
| EvPage (url : string)
| EvMedia (url : string)
| EvThumb (url : string)
| EvSendAudio (req : audio_request)
| EvAnswer (inline_query_id : string) (answer : list cached_audio) (cache_time : Z).

(** The outside world.  Each answer may depend on everything that left the
    process before.
    - [catalog_get]: a GET on the catalog API; the body is the parsed JSON,
      [None] when [response.json()] fails.
    - [http_get]: a GET on the media storage, the body read in full.
    - [send_audio]: the upload to the messaging platform.
    - [answer_inline_query]: [Some e] when the call raises [e].
    - [monotonic]: the reading of [time.monotonic], given what has been
      sent so far and the number of readings made before. *)
Record world := {
  catalog_get : list event -> string -> reply (option page);
  http_get : list event -> string -> reply string;
  send_audio : list event -> audio_request -> reply message;
  answer_inline_query : list event -> string -> list cached_audio -> option exn;
  monotonic : list event -> nat -> Z
}.

(** The state of the process and of its file; [clock_reads] counts the
    readings of the clock made so far. *)
Record state := {
  file_id_storage : Dict.t;
  disk : option string;
  query_cache : TTLCache.t (list cached_audio);
  trace : list event;
  clock_reads : nat
}.

Definition set_file_id_storage (d : Dict.t) (st : state) : state :=
  {| file_id_storage := d; disk := disk st; query_cache := query_cache st;
     trace := trace st; clock_reads := clock_reads st |}.

Definition set_disk (f : option string) (st : state) : state :=
  {| file_id_storage := file_id_storage st; disk := f; query_cache := query_cache st;
     trace := trace st; clock_reads := clock_reads st |}.

Definition set_query_cache (c : TTLCache.t (list cached_audio)) (st : state) : state :=
  {| file_id_storage := file_id_storage st; disk := disk st; query_cache := c;
     trace := trace st; clock_reads := clock_reads st |}.

Definition log (e : event) (st : state) : state :=
  {| file_id_storage := file_id_storage st; disk := disk st; query_cache := query_cache st;
     trace := trace st ++ [e]; clock_reads := clock_reads st |}.

(** One more reading of the clock. *)
Definition tick (st : state) : state :=
  {| file_id_storage := file_id_storage st; disk := disk st; query_cache := query_cache st;
     trace := trace st; clock_reads := S (clock_reads st) |}.

(** The instant that the next reading of the clock gives. *)
Definition now (w : world) (st : state) : Z :=
  monotonic w (trace st) (clock_reads st).

(* ================================================================== *)
(** * The monad of the program *)
(* ================================================================== *)

(** The outcome of a call: a value, an exception, or a loop that did not
    end within the fuel it was given. *)
Inductive result (A : Type) : Type :=
| Ok (a : A)
| Raise (e : exn)
| OutOfFuel.
Arguments Ok {A} a.
Arguments Raise {A} e.
Arguments OutOfFuel {A}.

Definition M (A : Type) : Type := state -> result A * state.

Definition ret {A} (a : A) : M A := fun st => (Ok a, st).

Definition raise {A} (e : exn) : M A := fun st => (Raise e, st).

Definition bind {A B} (m : M A) (k : A -> M B) : M B :=
  fun st =>
    match m st with
    | (Ok a, st') => k a st'
    | (Raise e, st') => (Raise e, st')
    | (OutOfFuel, st') => (OutOfFuel, st')
    end.

Notation "x <- m ;; k" := (bind m (fun x => k))
  (at level 61, m at next level, right associativity).
Notation "m ;; k" := (bind m (fun _ => k))
  (at level 61, right associativity).

(** [obj[k]] on a JSON object: [KeyError] when the key is missing. *)
Definition item {A} (k : string) (o : option A) : M A :=
  match o with
  | Some a => ret a
  | None => raise (KeyError k)
  end.

(** [obj.get(k, default)] *)
Definition get_default {A} (o : option A) (default : A) : A :=
  match o with
  | Some a => a
  | None => default
  end.

(** A request sent to the world: recorded in the trace, and answered from
    what the trace held before. *)
Definition request {B} (ev : event) (oracle : list event -> reply B) : M (Z * B) :=
  fun st =>
    match oracle (trace st) with
    | Fails e => (Raise e, log ev st)
    | Response status body => (Ok (status, body), log ev st)
    end.

(** [response.json()] *)
Definition json {A} (body : option A) : M A :=
  match body with
  | Some a => ret a
  | None => raise JSONDecodeError
  end.

(* ================================================================== *)
(** * The program *)
(* ================================================================== *)

Definition API_BASE_URL : string := "https://new.akarpov.ru/api/v1/music/song/".

(** What a Python function returns when the model needs to tell [None]
    from a number. *)
Inductive py_return :=
| PyNone
| PyInt (n : Z).

(** What [load_file_ids] returns: the store, a dictionary from [str] to
    [str] of this model, or another JSON value. *)
Inductive loaded :=
| Store (d : Dict.t)
| Foreign (v : Json.value).

(** [load_file_ids()] (lines 31-36): run once, when the module is loaded.
    Only [FileNotFoundError] is caught: a text that is not JSON raises
    [JSONDecodeError], and every JSON value is returned as it is.
    [OutOfFuel] stands for a text beyond the bounds of [Json.loads]. *)
Definition load_file_ids (file : option string) : result loaded :=
  match file with
  | None => Ok (Store Dict.empty)
  | Some text =>
      match Json.loads text with
      | Json.Parsed v _ =>
          Ok match Json.mapping v with
             | Some d => Store d
             | None => Foreign v
             end
      | Json.Invalid => Raise JSONDecodeError
      | Json.Beyond => OutOfFuel
      end
  end.

(** The state after the module is loaded (lines 39-40):
    [file_id_storage = load_file_ids()] and
    [query_cache = TTLCache(maxsize=100, ttl=600)].  [Ok None] is a process
    that has started with a store that is not a dictionary from [str] to
    [str]: the states of this model do not describe it. *)
Definition startup (file : option string) : result (option state) :=
  match load_file_ids file with
  | Ok (Store d) =>
      Ok (Some {| file_id_storage := d; disk := file;
                  query_cache := TTLCache.empty; trace := []; clock_reads := 0 |})
  | Ok (Foreign _) => Ok None
  | Raise e => Raise e
  | OutOfFuel => OutOfFuel
  end.

(** [file_id_storage[slug] = file_id] *)
Definition storage_set (slug file_id : string) : M unit :=
  fun st => (Ok tt, set_file_id_storage (Dict.set slug file_id (file_id_storage st)) st).

(** [with open("file_ids.json", "w") as f: json.dump(file_id_storage, f)] *)
Definition dump_file_ids : M unit :=
  fun st => (Ok tt, set_disk (Some (Json.dumps (file_id_storage st))) st).

(** [store_file_id(slug, file_id)] (lines 25-28) *)
Definition store_file_id (slug file_id : string) : M unit :=
  storage_set slug file_id ;;
  dump_file_ids.

(** [file_id_storage], read. *)
Definition storage : M Dict.t :=
  fun st => (Ok (file_id_storage st), st).

Section Program.

Variable w : world.

(** One reading of the clock by an operation of the query cache. *)
Definition timer : M Z :=
  fun st => (Ok (now w st), tick st).

(** [query_cache], read. *)
Definition cache : M (TTLCache.t (list cached_audio)) :=
  fun st => (Ok (query_cache st), st).

(** [query in query_cache]: the clock is read when the key has an entry. *)
Definition cache_contains (query : string) : M bool :=
  c <- cache ;;
  match TTLCache.find query c with
  | Some _ => t <- timer ;; ret (TTLCache.contains t query c)
  | None => ret false
  end.

(** [query_cache[query]]: the clock is read when the key has an entry; a
    missing or expired entry raises [KeyError]. *)
Definition cache_getitem (query : string) : M (list cached_audio) :=
  c <- cache ;;
  match TTLCache.find query c with
  | Some _ =>
      t <- timer ;;
      fun st =>
        match TTLCache.getitem t query c with
        | (Some v, c') => (Ok v, set_query_cache c' st)
        | (None, c') => (Raise (KeyError query), set_query_cache c' st)
        end
  | None => raise (KeyError query)
  end.

(** [query_cache[query] = results]: the clock is read once. *)
Definition cache_setitem (query : string) (rs : list cached_audio) : M unit :=
  t <- timer ;;
  fun st => (Ok tt, set_query_cache (TTLCache.setitem t query rs (query_cache st)) st).

(** [fetch_songs_from_api(query)] (lines 48-57): a status other than 200
    is an empty page. *)
Definition fetch_songs_from_api (query : string) : M page :=
  let url := (API_BASE_URL ++ "?search=" ++ query ++ "&page_size=5")%string in
  response <- request (EvSearch url) (fun tr => catalog_get w tr url) ;;
  if (fst response =? 200)%Z
  then json (snd response)
  else ret {| results := Some []; next := None |}.

(** [download_thumbnail(image_url)] (lines 60-75): the bytes of the image,
    or [None] when the status is not 200. *)
Definition download_thumbnail (image_url : string) : M (option string) :=
  response <- request (EvThumb image_url) (fun tr => http_get w tr image_url) ;;
  if (fst response =? 200)%Z
  then ret (Some (snd response))
  else ret None.

(** [[author["name"] for author in authors]] *)
Fixpoint author_names (authors : list author) : M (list string) :=
  match authors with
  | [] => ret []
  | a :: rest =>
      n <- item "name" (author_name a) ;;
      ns <- author_names rest ;;
      ret (n :: ns)
  end.

(** [song_data.get("album", {}).get("slug", "")] *)
Definition album_slug_or_empty (a : jfield album) : M string :=
  match a with
  | Missing => ret ""
  | JNull => raise AttributeError
  | Has al => ret (get_default (album_slug al) "")
  end.

(** [song["album"]["slug"]] *)
Definition album_slug_item (a : jfield album) : M string :=
  match a with
  | Missing => raise (KeyError "album")
  | JNull => raise TypeError
  | Has al => item "slug" (album_slug al)
  end.

(** [song_data.get("image_cropped", None)], then its truth value: a URL
    only when the key holds a string that is not empty. *)
Definition thumbnail_url_of (f : jfield string) : option string :=
  match f with
  | Has u => if PyStr.truthy u then Some u else None
  | _ => None
  end.

Definition caption_of (album_slug slug : string) : string :=
  ("https://next.akarpov.ru/music/albums/" ++ album_slug ++ "#" ++ slug)%string.

(** [get_telegram_file_id(song_data, context)] (lines 78-142): the stored
    token when the slug has one; otherwise the media file is fetched and,
    on status 200, uploaded with its metadata, the token of the upload is
    stored, the file is rewritten and the token is returned; on another
    status the result is [None]. *)
Definition get_telegram_file_id (song_data : song) : M (option string) :=
  slug <- item "slug" (s_slug song_data) ;;
  d <- storage ;;
  match Dict.get slug d with
  | Some file_id => ret (Some file_id)
  | None =>
      file_url <- item "file" (s_file song_data) ;;
      let duration := get_default (s_length song_data) 0%Z in
      names <- author_names (get_default (s_authors song_data) []) ;;
      let performer := PyStr.join ", " names in
      let title := get_default (s_name song_data) "Unknown Title" in
      album_slug <- album_slug_or_empty (s_album song_data) ;;
      let caption := caption_of album_slug slug in
      let thumbnail_url := thumbnail_url_of (s_image_cropped song_data) in
      response <- request (EvMedia file_url) (fun tr => http_get w tr file_url) ;;
      if (fst response =? 200)%Z then
        let file_content := snd response in
        let file_name := (slug ++ ".mp3")%string in
        thumbnail_io <- match thumbnail_url with
                        | Some u => download_thumbnail u
                        | None => ret None
                        end ;;
        let upload thumb :=
          {| chat_id := "868474142"; audio_name := file_name; audio := file_content;
             duration := duration; performer := performer; title := title;
             audio_caption := caption; thumbnail := thumb |} in
        message <- match thumbnail_io with
                   | Some th =>
                       request (EvSendAudio (upload (Some th)))
                               (fun tr => send_audio w tr (upload (Some th)))
                   | None =>
                       request (EvSendAudio (upload None))
                               (fun tr => send_audio w tr (upload None))
                   end ;;
        file_id <- match message_audio (snd message) with
                   | Some fid => ret fid
                   | None => raise AttributeError
                   end ;;
        storage_set slug file_id ;;
        dump_file_ids ;;
        ret (Some file_id)
      else ret None
  end.

(** The body of the loop of [inline_query] for one song (lines 155-163). *)
Definition inline_step (sg : song) (rs : list cached_audio) : M (list cached_audio) :=
  file_id <- get_telegram_file_id sg ;;
  match file_id with
  | Some fid =>
      if PyStr.truthy fid then
        i <- item "slug" (s_slug sg) ;;
        al <- album_slug_item (s_album sg) ;;
        sl <- item "slug" (s_slug sg) ;;
        ret (rs ++ [{| id := i; audio_file_id := fid; caption := caption_of al sl |}])
      else ret rs
  | None => ret rs
  end.

(** [for song in songs["results"]: ...] (line 154) *)
Fixpoint inline_loop (songs : list song) (rs : list cached_audio) : M (list cached_audio) :=
  match songs with
  | [] => ret rs
  | sg :: rest =>
      rs' <- inline_step sg rs ;;
      inline_loop rest rs'
  end.

(** [context.bot.answer_inline_query(id, results, cache_time=1)]
    (line 167) *)
Definition answer (inline_query_id : string) (rs : list cached_audio) : M unit :=
  fun st =>
    match answer_inline_query w (trace st) inline_query_id rs with
    | Some e => (Raise e, log (EvAnswer inline_query_id rs 1) st)
    | None => (Ok tt, log (EvAnswer inline_query_id rs 1) st)
    end.

(** [inline_query(update, context)] (lines 145-167), where
    [update.inline_query] has the identifier [inline_query_id] and the
    text [text]. *)
Definition inline_query (inline_query_id text : string) : M unit :=
  let query := PyStr.strip text in
  hit <- cache_contains query ;;
  rs <- (if hit : bool then cache_getitem query
         else
           songs <- fetch_songs_from_api query ;;
           found <- item "results" (results songs) ;;
           rs <- inline_loop found [] ;;
           cache_setitem query rs ;;
           ret rs) ;;
  answer inline_query_id rs.

(** The loop of [fetch_all_songs_from_api]: [while next_page_url: ...]
    (lines 176-185).  The loop ends when a page has no next page or is
    answered with a status other than 200; [fuel] bounds the number of
    pages the model follows. *)
Fixpoint fetch_pages (fuel : nat) (next_page_url : option string) (all_songs : list song)
  : M (list song) :=
  match next_page_url with
  | None => ret all_songs
  | Some url =>
      if PyStr.truthy url then
        match fuel with
        | O => fun st => (OutOfFuel, st)
        | S fuel' =>
            response <- request (EvPage url) (fun tr => catalog_get w tr url) ;;
            if (fst response =? 200)%Z then
              data <- json (snd response) ;;
              found <- item "results" (results data) ;;
              fetch_pages fuel' (next data) (all_songs ++ found)
            else ret all_songs
        end
      else ret all_songs
  end.

(** [fetch_all_songs_from_api()] (lines 170-187) *)
Definition fetch_all_songs_from_api (fuel : nat) : M (list song) :=
  fetch_pages fuel (Some (API_BASE_URL ++ "?page_size=1000")%string) [].

(** The body of the loop of [upload_songs] for one song (lines 199-209). *)
Definition upload_step (sg : song) : M unit :=
  slug <- item "slug" (s_slug sg) ;;
  d <- storage ;;
  if Dict.mem slug d then ret tt
  else
    file_id <- get_telegram_file_id sg ;;
    match file_id with
    | Some fid => if PyStr.truthy fid then store_file_id slug fid else ret tt
    | None => ret tt
    end.

(** [for i, song in enumerate(songs): ...] (line 198) *)
Fixpoint upload_loop (songs : list song) : M unit :=
  match songs with
  | [] => ret tt
  | sg :: rest => upload_step sg ;; upload_loop rest
  end.

(** [upload_songs(context)] (lines 190-209): the function has no [return]
    with a value. *)
Definition upload_songs (fuel : nat) : M py_return :=
  songs <- fetch_all_songs_from_api fuel ;;
  match songs with
  | [] => ret PyNone
  | _ => upload_loop songs ;; ret PyNone
  end.

End Program.

(* ================================================================== *)
(** * Concrete songs, worlds and states *)
(* ================================================================== *)

Module Demo.

(** The song of the scenario of the specification. *)
Definition song_abc : song :=
  {| s_slug := Some "abc"; s_file := Some "http://x/a.mp3"; s_length := None;
     s_authors := Some [{| author_name := Some "Art" |}]; s_name := Some "Blue";
     s_album := Has {| album_slug := Some "al1" |}; s_image_cropped := Missing |}.

(** A song whose media file is not served. *)
Definition song_gone : song :=
  {| s_slug := Some "gone"; s_file := Some "http://x/gone.mp3"; s_length := Some 10%Z;
     s_authors := None; s_name := None;
     s_album := Has {| album_slug := Some "al1" |}; s_image_cropped := JNull |}.


Definition search_url (q : string) : string :=
  (API_BASE_URL ++ "?search=" ++ q ++ "&page_size=5")%string.

Definition listing_url : string := (API_BASE_URL ++ "?page_size=1000")%string.

(** A world that serves [songs] for every search and as the only page of
    the listing, except that the search for [down] is answered with the
    status 503; it serves the file of [song_abc] and nothing else, accepts
    every upload with the token [tok123] and every answer, and its clock
    advances by one unit with every request and stands still between two
    requests. *)
Definition world_of (songs : list song) : world :=
  {| catalog_get := fun _ url =>
       if String.eqb url (search_url "down") then Response 503%Z None
       else Response 200%Z (Some {| results := Some songs; next := None |});
     http_get := fun _ url =>
       if String.eqb url "http://x/a.mp3" then Response 200%Z "mp3-bytes"
       else Response 404%Z "";
     send_audio := fun _ _ => Response 200%Z {| message_audio := Some "tok123" |};
     answer_inline_query := fun _ _ _ => None;
     monotonic := fun tr _ => Z.of_nat (length tr) |}.

(** The same world, except that the messaging platform refuses every
    upload. *)
Definition world_rejecting (songs : list song) : world :=
  {| catalog_get := catalog_get (world_of songs);
     http_get := http_get (world_of songs);
     send_audio := fun _ _ => Fails (TelegramError "Bad Request");
     answer_inline_query := answer_inline_query (world_of songs);
     monotonic := monotonic (world_of songs) |}.

(** The state of a process started without a file. *)
Definition fresh : state :=
  {| file_id_storage := Dict.empty; disk := None;
     query_cache := TTLCache.empty; trace := []; clock_reads := 0 |}.

(** The state of a process started with a file that holds one token. *)
Definition warm : state :=
  {| file_id_storage := [("abc", "tok123")];
     disk := Some (Json.dumps [("abc", "tok123")]);
     query_cache := TTLCache.empty; trace := []; clock_reads := 0 |}.

(** The state of [fresh] after the search request for [blue]. *)
Definition searched : state := log (EvSearch (search_url "blue")) fresh.

(** The state after the songs [song_gone] and [song_abc], found in
    [searched], have been resolved in this order. *)
Definition resolved : state :=
  snd (inline_loop (world_of [song_gone; song_abc]) [song_gone; song_abc] [] searched).

(** The state after the inline query for [blue] has been answered, from
    [fresh], in the world that serves [song_abc]. *)
Definition answered : state :=
  snd (inline_query (world_of [song_abc]) "q1" "blue" fresh).

(** The world of [world_of], with a clock that advances by 400 units with
    every reading. *)
Definition world_slow_clock (songs : list song) : world :=
  {| catalog_get := catalog_get (world_of songs);
     http_get := http_get (world_of songs);
     send_audio := send_audio (world_of songs);
     answer_inline_query := answer_inline_query (world_of songs);
     monotonic := fun _ n => (400 * Z.of_nat n)%Z |}.

(** The state after the inline query for [blue] has been answered, from
    [fresh], in the world with the slow clock: the entry of the query was
    stored at the instant 0. *)
Definition answered_slow : state :=
  snd (inline_query (world_slow_clock [song_abc]) "q1" "blue" fresh).

(** The file of [warm], cut short while it was being written. *)
Definition truncated : string := substring 0 10 (Json.dumps [("abc", "tok123")]).

End Demo.

(* ================================================================== *)
(** * Vocabulary of the properties *)
(* ================================================================== *)

(** The URLs of the media files fetched in a run of events. *)
Definition media_urls (evs : list event) : list string :=
  flat_map (fun e => match e with EvMedia u => [u] | _ => [] end) evs.

(** The result lists sent as answers in a run of events. *)
Definition answers (evs : list event) : list (list cached_audio) :=
  flat_map (fun e => match e with EvAnswer _ rs _ => [rs] | _ => [] end) evs.

(** Every author of the list carries a name. *)
Definition authors_named (authors : list author) : bool :=
  forallb (fun a => match author_name a with Some _ => true | None => false end) authors.

(** A record with the keys the program subscripts: [slug], [file], the
    [name] of every author, and [album] with its [slug]. *)
Definition well_formed (sg : song) : bool :=
  match s_slug sg, s_file sg, s_album sg with
  | Some _, Some _, Has {| album_slug := Some _ |} =>
      authors_named (get_default (s_authors sg) [])
  | _, _, _ => false
  end.

(** The record carries [album] with its [slug]. *)
Definition album_known (sg : song) : bool :=
  match s_album sg with
  | Has {| album_slug := Some _ |} => true
  | _ => false
  end.


(** The entry of the answer for a song and its token. *)
Definition entry (sg : song) (tok : string) : option cached_audio :=
  match s_slug sg, s_album sg with
  | Some slug, Has {| album_slug := Some al |} =>
      Some {| id := slug; audio_file_id := tok; caption := caption_of al slug |}
  | _, _ => None
  end.

(** The entries for the songs that resolved to a token, in the order of the
    songs: a song without a token, or with an empty one, has no entry. *)
Fixpoint assemble (songs : list song) (tokens : list (option string)) : list cached_audio :=
  match songs, tokens with
  | sg :: songs', Some tok :: tokens' =>
      if PyStr.truthy tok
      then match entry sg tok with
           | Some e => e :: assemble songs' tokens'
           | None => assemble songs' tokens'
           end
      else assemble songs' tokens'
  | _ :: songs', None :: tokens' => assemble songs' tokens'
  | _, _ => []
  end.

(** Resolving the songs one after the other, each call returning normally:
    the outcomes in order and the state reached. *)
Inductive resolves (w : world) : list song -> state -> list (option string) -> state -> Prop :=
| resolves_nil st : resolves w [] st [] st
| resolves_cons sg rest st t st1 ts st2 :
    get_telegram_file_id w sg st = (Ok t, st1) ->
    resolves w rest st1 ts st2 ->
    resolves w (sg :: rest) st (t :: ts) st2.

(** The media storage answers every request: no transport error. *)
Definition media_served (w : world) : Prop :=
  forall tr url, exists status body, http_get w tr url = Response status body.

(** The messaging platform accepts every upload and returns an audio. *)
Definition uploads_accepted (w : world) : Prop :=
  forall tr req, exists status fid,
    send_audio w tr req = Response status {| message_audio := Some fid |}.




(** The operations of the sequential execution model: one inline query,
    one bulk ingestion run, one step of a bulk ingestion run, one
    resolution, one bare put into the token store. *)
Inductive op :=
| Inline (inline_query_id text : string)
| Upload (fuel : nat)
| Ingest (sg : song)
| Resolve (sg : song)
| Put (slug file_id : string).

Definition run_op (w : world) (o : op) (st : state) : state :=
  match o with
  | Inline qid text => snd (inline_query w qid text st)
  | Upload fuel => snd (upload_songs w fuel st)
  | Ingest sg => snd (upload_step w sg st)
  | Resolve sg => snd (get_telegram_file_id w sg st)
  | Put slug file_id => snd (store_file_id slug file_id st)
  end.

Definition run (w : world) (ops : list op) (st : state) : state :=
  fold_left (fun s o => run_op w o s) ops st.

(** The operations of the services: everything but a bare [Put]. *)
Definition service_op (o : op) : bool :=
  match o with
  | Put _ _ => false
  | _ => true
  end.

(** The slugs of the songs of a listing. *)
Definition slugs (songs : list song) : list string :=
  flat_map (fun sg => match s_slug sg with Some s => [s] | None => [] end) songs.



(** The media files of a listing. *)
Definition files (songs : list song) : list string :=
  flat_map (fun sg => match s_file sg with Some u => [u] | None => [] end) songs.

(** What one step of the bulk ingestion sends for the song [sg], in a run
    that started with the store [d]: nothing when the slug has a token,
    and otherwise the fetch of the media file of the song and no other
    media fetch. *)
Definition step_events (d : Dict.t) (sg : song) (es : list event) : Prop :=
  match s_slug sg with
  | Some s => if Dict.mem s d then es = [] else media_urls es = files [sg]
  | None => False
  end.

(** How the store and its file evolve. *)

(** One step: nothing is written, or a token is written for a slug that
    holds no other token and the file is rewritten from the store. *)
Inductive evolves : state -> state -> Prop :=
| evolves_quiet st st' :
    file_id_storage st' = file_id_storage st -> disk st' = disk st ->
    evolves st st'
| evolves_write st st' slug tok :
    (forall t, Dict.get slug (file_id_storage st) = Some t -> t = tok) ->
    file_id_storage st' = Dict.set slug tok (file_id_storage st) ->
    disk st' = Some (Json.dumps (file_id_storage st')) ->
    evolves st st'
| evolves_trans st st1 st2 :
    evolves st st1 -> evolves st1 st2 -> evolves st st2.

(** The store and the file agree, and the store has no repeated key. *)
Definition synced (st : state) : Prop :=
  NoDup (Dict.keys (file_id_storage st)) /\
  load_file_ids (disk st) = Ok (Store (file_id_storage st)).

(** A computation that leaves the store and the file as they are. *)
Definition quiet {A} (m : M A) : Prop :=
  forall st, file_id_storage (snd (m st)) = file_id_storage st /\
             disk (snd (m st)) = disk st.

(* ================================================================== *)
(** * Vocabulary of the properties beyond the claims *)
(* ================================================================== *)

(** The state after the events [evs] have left the process, in order. *)
Definition logs (evs : list event) (st : state) : state :=
  fold_left (fun s e => log e s) evs st.

(** The names of the authors of a list, in order. *)
Definition names_of (authors : list author) : list string :=
  flat_map (fun a => match author_name a with Some n => [n] | None => [] end) authors.

(** The slug of the album in the caption of an upload: empty when the
    record has no album or the album has no slug. *)
Definition album_of (sg : song) : string :=
  match s_album sg with
  | Has al => get_default (album_slug al) ""
  | _ => ""
  end.

(** The upload of the song [sg], whose slug is [slug] and whose media file
    has the bytes [body], with the thumbnail [thumb] (lines 112-129). *)
Definition upload_request (sg : song) (slug body : string) (thumb : option string)
  : audio_request :=
  {| chat_id := "868474142"; audio_name := (slug ++ ".mp3")%string; audio := body;
     duration := get_default (s_length sg) 0%Z;
     performer := PyStr.join ", " (names_of (get_default (s_authors sg) []));
     title := get_default (s_name sg) "Unknown Title";
     audio_caption := caption_of (album_of sg) slug;
     thumbnail := thumb |}.

(** The exception that the metadata of a record raises, in the order in
    which the resolver reads the keys (lines 92-96): [file] is
    subscripted, then the [name] of every author, and an [album] that holds
    [null] has no [get]. *)
Definition metadata_error (sg : song) : option exn :=
  match s_file sg with
  | None => Some (KeyError "file")
  | Some _ =>
      if authors_named (get_default (s_authors sg) []) then
        match s_album sg with
        | JNull => Some AttributeError
        | _ => None
        end
      else Some (KeyError "name")
  end.

(** The exception that a resolution raises before it sends anything, when
    the store is [d]: a record without [slug], or a record without a token
    whose metadata raises. *)
Definition raises_before_request (d : Dict.t) (sg : song) : option exn :=
  match s_slug sg with
  | None => Some (KeyError "slug")
  | Some slug =>
      match Dict.get slug d with
      | Some _ => None
      | None => metadata_error sg
      end
  end.

(** The thumbnail stage of a resolution that starts with the trace [tr]:
    the events sent and the thumbnail obtained.  A record without a
    thumbnail URL sends nothing; otherwise the URL is fetched and the bytes
    are kept when the status is 200. *)
Inductive thumbnail_stage (w : world) (tr : list event) (sg : song)
  : list event -> option string -> Prop :=
| thumbnail_none :
    thumbnail_url_of (s_image_cropped sg) = None ->
    thumbnail_stage w tr sg [] None
| thumbnail_fetched u status body :
    thumbnail_url_of (s_image_cropped sg) = Some u ->
    http_get w tr u = Response status body ->
    thumbnail_stage w tr sg [EvThumb u] (if (status =? 200)%Z then Some body else None).

(** The exception that the answer of the messaging platform to an upload
    makes the resolver raise: the error of the client, or the
    [AttributeError] of [message.audio.file_id] when the message carries no
    audio. *)
Definition upload_error (r : reply message) : option exn :=
  match r with
  | Fails e => Some e
  | Response _ {| message_audio := None |} => Some AttributeError
  | Response _ {| message_audio := Some _ |} => None
  end.

(** The events of one resolution: nothing, or the media fetch, then at
    most one thumbnail fetch, then at most one upload. *)
Definition resolver_events (evs : list event) : bool :=
  match evs with
  | [] => true
  | [EvMedia _] => true
  | [EvMedia _; EvThumb _] => true
  | [EvMedia _; EvSendAudio _] => true
  | [EvMedia _; EvThumb _; EvSendAudio _] => true
  | _ => false
  end.

(** The exception that an answer of the catalog makes its reader raise:
    the error of the client, a body that is not JSON, or a page without
    the key [results]; a status other than 200 raises nothing. *)
Definition page_error (r : reply (option page)) : option exn :=
  match r with
  | Fails e => Some e
  | Response status body =>
      if (status =? 200)%Z then
        match body with
        | None => Some JSONDecodeError
        | Some pg =>
            match results pg with
            | None => Some (KeyError "results")
            | Some _ => None
            end
        end
      else None
  end.

(** The URL that [while next_page_url:] goes on with: none when the value
    is [None] or the empty string. *)
Definition following (next_page_url : option string) : option string :=
  match next_page_url with
  | Some url => if PyStr.truthy url then Some url else None
  | None => None
  end.

(** A walk through the pages of the catalog that starts at [nxt] with the
    trace [tr]: the songs gathered and the requests sent.  The walk ends at
    a page without a next page and at a page answered with a status other
    than 200. *)
Inductive listing (w : world) : list event -> option string -> list song -> list event -> Prop :=
| listing_done tr nxt :
    following nxt = None ->
    listing w tr nxt [] []
| listing_stopped tr nxt url status body :
    following nxt = Some url ->
    catalog_get w tr url = Response status body ->
    status <> 200%Z ->
    listing w tr nxt [] [EvPage url]
| listing_page tr nxt url found nxt' songs evs :
    following nxt = Some url ->
    catalog_get w tr url = Response 200%Z (Some {| results := Some found; next := nxt' |}) ->
    listing w (tr ++ [EvPage url]) nxt' songs evs ->
    listing w tr nxt (found ++ songs) (EvPage url :: evs).

(** A walk through the pages of the catalog that ends with a page whose
    answer raises [e]. *)
Inductive listing_raises (w : world) : list event -> option string -> exn -> list event -> Prop :=
| listing_raises_here tr nxt url e :
    following nxt = Some url ->
    page_error (catalog_get w tr url) = Some e ->
    listing_raises w tr nxt e [EvPage url]
| listing_raises_later tr nxt url found nxt' e evs :
    following nxt = Some url ->
    catalog_get w tr url = Response 200%Z (Some {| results := Some found; next := nxt' |}) ->
    listing_raises w (tr ++ [EvPage url]) nxt' e evs ->
    listing_raises w tr nxt e (EvPage url :: evs).

(** The search requests of a run of events. *)
Definition searches (evs : list event) : list string :=
  flat_map (fun e => match e with EvSearch u => [u] | _ => [] end) evs.

(** The media storage answers every request with the status 200. *)
Definition media_always_served (w : world) : Prop :=
  forall tr url, exists body, http_get w tr url = Response 200%Z body.

(** A catalog whose every page is served and names a next page. *)
Definition always_next (w : world) : Prop :=
  forall tr url, exists found nxt,
    catalog_get w tr url = Response 200%Z (Some {| results := Some found; next := Some nxt |})
    /\ PyStr.truthy nxt = true.

(** A computation that stays away from the inline queries: it neither
    reads the clock nor touches the query cache, and it sends no search
    and no answer. *)
Definition no_query_effect {A} (m : M A) : Prop :=
  forall st,
    query_cache (snd (m st)) = query_cache st /\
    clock_reads (snd (m st)) = clock_reads st /\
    exists evs, trace (snd (m st)) = trace st ++ evs /\
                answers evs = [] /\ searches evs = [].

(** A computation that only adds to the trace. *)
Definition extends_trace {A} (m : M A) : Prop :=
  forall st, exists evs, trace (snd (m st)) = trace st ++ evs.

(** A computation that keeps the query cache within its capacity. *)
Definition keeps_bound {A} (m : M A) : Prop :=
  forall st,
    length (query_cache st) <= TTLCache.maxsize ->
    length (query_cache (snd (m st))) <= TTLCache.maxsize.

(** The token that the store [d] holds for a song. *)
Definition token_of (d : Dict.t) (sg : song) : option string :=
  match s_slug sg with
  | Some slug => Dict.get slug d
  | None => None
  end.

(** The song has a token in the store [d]. *)
Definition known (d : Dict.t) (sg : song) : bool :=
  match token_of d sg with
  | Some _ => true
  | None => false
  end.





(** Songs, worlds and states of the runs beyond the claims. *)
Module Tour.

(** A song with two authors and a thumbnail, without title and album. *)
Definition song_pic : song :=
  {| s_slug := Some "pic"; s_file := Some "http://x/a.mp3"; s_length := Some 215%Z;
     s_authors := Some [{| author_name := Some "Art" |}; {| author_name := Some "Bo" |}];
     s_name := None; s_album := Missing; s_image_cropped := Has "http://x/p.jpg" |}.

(** A record with the keys [slug] and [file] only. *)
Definition song_bare : song :=
  {| s_slug := Some "bare"; s_file := Some "http://x/a.mp3"; s_length := None;
     s_authors := None; s_name := None; s_album := Missing; s_image_cropped := Missing |}.

(** A record whose album is [null]. *)
Definition song_null_album : song :=
  {| s_slug := Some "nul"; s_file := Some "http://x/a.mp3"; s_length := None;
     s_authors := None; s_name := None; s_album := JNull; s_image_cropped := Missing |}.


Definition page_two_url : string := "http://c/?page=2".

(** A catalog of two pages: the listing starts with the songs [first] and
    names a second page, which is answered with [second]; every other
    request is answered with the status 404.  The rest of the world is the
    one of [Demo.world_of]. *)
Definition world_paged (first : list song) (second : reply (option page)) : world :=
  {| catalog_get := fun _ url =>
       if String.eqb url Demo.listing_url
       then Response 200%Z (Some {| results := Some first; next := Some page_two_url |})
       else if String.eqb url page_two_url then second
       else Response 404%Z None;
     http_get := http_get (Demo.world_of []);
     send_audio := send_audio (Demo.world_of []);
     answer_inline_query := answer_inline_query (Demo.world_of []);
     monotonic := monotonic (Demo.world_of []) |}.

(** A catalog whose every page names a next page. *)
Definition world_endless : world :=
  {| catalog_get := fun _ _ =>
       Response 200%Z (Some {| results := Some [Demo.song_abc]; next := Some page_two_url |});
     http_get := http_get (Demo.world_of []);
     send_audio := send_audio (Demo.world_of []);
     answer_inline_query := answer_inline_query (Demo.world_of []);
     monotonic := monotonic (Demo.world_of []) |}.

(** The world of [Demo.world_of], whose media storage also serves the
    thumbnail of [song_pic]. *)
Definition world_pictures (songs : list song) : world :=
  {| catalog_get := catalog_get (Demo.world_of songs);
     http_get := fun _ url =>
       if String.eqb url "http://x/p.jpg" then Response 200%Z "jpg-bytes"
       else if String.eqb url "http://x/a.mp3" then Response 200%Z "mp3-bytes"
       else Response 404%Z "";
     send_audio := send_audio (Demo.world_of songs);
     answer_inline_query := answer_inline_query (Demo.world_of songs);
     monotonic := monotonic (Demo.world_of songs) |}.

(** The world of [Demo.world_of], whose media storage drops the connection
    on the thumbnail of [song_pic]. *)
Definition world_broken_pictures (songs : list song) : world :=
  {| catalog_get := catalog_get (Demo.world_of songs);
     http_get := fun _ url =>
       if String.eqb url "http://x/p.jpg" then Fails (ClientError "reset")
       else http_get (Demo.world_of songs) [] url;
     send_audio := send_audio (Demo.world_of songs);
     answer_inline_query := answer_inline_query (Demo.world_of songs);
     monotonic := monotonic (Demo.world_of songs) |}.

(** The world of [Demo.world_of], whose catalog answers every request
    with the status 503. *)
Definition world_down : world :=
  {| catalog_get := fun _ _ => Response 503%Z None;
     http_get := http_get (Demo.world_of []);
     send_audio := send_audio (Demo.world_of []);
     answer_inline_query := answer_inline_query (Demo.world_of []);
     monotonic := monotonic (Demo.world_of []) |}.

(** The world of [Demo.world_of], whose media storage serves every file. *)
Definition world_serving (songs : list song) : world :=
  {| catalog_get := catalog_get (Demo.world_of songs);
     http_get := fun _ _ => Response 200%Z "bytes";
     send_audio := send_audio (Demo.world_of songs);
     answer_inline_query := answer_inline_query (Demo.world_of songs);
     monotonic := monotonic (Demo.world_of songs) |}.

(** The world of [Demo.world_of], whose messaging platform refuses every
    answer. *)
Definition world_late (songs : list song) : world :=
  {| catalog_get := catalog_get (Demo.world_of songs);
     http_get := http_get (Demo.world_of songs);
     send_audio := send_audio (Demo.world_of songs);
     answer_inline_query := fun _ _ _ => Some (TelegramError "Query is too old");
     monotonic := monotonic (Demo.world_of songs) |}.


(** The world of [Demo.world_of], whose catalog drops the connection. *)
Definition world_offline : world :=
  {| catalog_get := fun _ _ => Fails (ClientError "connect");
     http_get := http_get (Demo.world_of []);
     send_audio := send_audio (Demo.world_of []);
     answer_inline_query := answer_inline_query (Demo.world_of []);
     monotonic := monotonic (Demo.world_of []) |}.

End Tour.

(* ================================================================== *)
(** * Proof tools *)
(* ================================================================== *)

(** Unfolding of the primitive steps of the monad. *)
Ltac unfold_m :=
  unfold store_file_id, download_thumbnail, album_slug_or_empty, album_slug_item,
    cache_contains, cache_getitem, cache_setitem, answer in *;
  unfold bind, ret, raise, item, json, storage, cache, timer, storage_set, dump_file_ids,
    request in *.

(** Case analysis on an innermost scrutinee of the goal. *)
Ltac case_inner :=
  match goal with
  | |- context [match ?x with _ => _ end] =>
      lazymatch x with
      | context [match _ with _ => _ end] => fail
      | _ => destruct x eqn:?
      end
  end.

(** The trace after a run of steps is the trace before, extended. *)
Ltac trace_eq :=
  simpl; rewrite <- ?app_assoc; first [reflexivity | symmetry; apply app_nil_r].

(** A case of a resolution that writes nothing and returns no token. *)
Ltac resolve_sent_nothing :=
  do 2 (split; [reflexivity|]); eexists; split; [trace_eq|]; split; [reflexivity|];
  left; do 2 (split; [reflexivity|]); intros ? H; discriminate H.

(* ================================================================== *)
(** * Facts about strings and dictionaries *)
(* ================================================================== *)

Lemma string_app_assoc (a b c : string) : ((a ++ b) ++ c)%string = (a ++ (b ++ c))%string.
Proof.
  induction a as [|x a IH]; simpl; [reflexivity | now rewrite IH].
Qed.

Lemma string_app_length (a b : string) :
  String.length (a ++ b) = String.length a + String.length b.
Proof.
  induction a as [|x a IH]; simpl; [reflexivity | now rewrite IH].
Qed.

Module DictFacts.

Lemma get_set_same k v d : Dict.get k (Dict.set k v d) = Some v.
Proof.
  induction d as [|[k' v'] d IH]; simpl.
  - now rewrite String.eqb_refl.
  - destruct (String.eqb k k') eqn:E; simpl; rewrite E; [reflexivity | exact IH].
Qed.

Lemma get_set_other k k' v d : k <> k' -> Dict.get k' (Dict.set k v d) = Dict.get k' d.
Proof.
  intros Hne. induction d as [|[k0 v0] d IH]; simpl.
  - destruct (String.eqb k' k) eqn:E; [|reflexivity].
    apply String.eqb_eq in E. congruence.
  - destruct (String.eqb k k0) eqn:E; simpl.
    + apply String.eqb_eq in E. subst k0.
      destruct (String.eqb k' k) eqn:E'; [|reflexivity].
      apply String.eqb_eq in E'. congruence.
    + now rewrite IH.
Qed.

Lemma get_None_keys k d : Dict.get k d = None <-> ~ In k (Dict.keys d).
Proof.
  induction d as [|[k' v'] d IH]; simpl.
  - tauto.
  - destruct (String.eqb k k') eqn:E.
    + apply String.eqb_eq in E. subst. split; [discriminate | tauto].
    + apply String.eqb_neq in E. rewrite IH. split; [intros H [H'|H']; congruence | tauto].
Qed.

Lemma mem_false_get k d : Dict.mem k d = false <-> Dict.get k d = None.
Proof.
  unfold Dict.mem. destruct (Dict.get k d); split; congruence.
Qed.

(** Writing a key that is absent appends it. *)
Lemma set_fresh k v d : ~ In k (Dict.keys d) -> Dict.set k v d = d ++ [(k, v)].
Proof.
  induction d as [|[k' v'] d IH]; simpl; intros H; [reflexivity|].
  destruct (String.eqb k k') eqn:E.
  - apply String.eqb_eq in E. subst. tauto.
  - rewrite IH; tauto.
Qed.

(** Writing a key keeps the keys, or adds the new one at the end. *)
Lemma keys_set k v d :
  Dict.keys (Dict.set k v d) = if Dict.mem k d then Dict.keys d else Dict.keys d ++ [k].
Proof.
  unfold Dict.mem.
  induction d as [|[k' v'] d IH]; simpl; [reflexivity|].
  destruct (String.eqb k k') eqn:E; simpl; [reflexivity|].
  rewrite IH. now destruct (Dict.get k d).
Qed.

Lemma NoDup_keys_set k v d : NoDup (Dict.keys d) -> NoDup (Dict.keys (Dict.set k v d)).
Proof.
  intros H. rewrite keys_set. destruct (Dict.mem k d) eqn:E; [exact H|].
  apply mem_false_get, get_None_keys in E.
  apply NoDup_app; repeat split; auto.
  - constructor; [simpl; tauto | constructor].
  - intros x Hx [Hk|[]]. subst. tauto.
Qed.

Lemma fold_set_NoDup ps acc :
  NoDup (Dict.keys acc) ->
  NoDup (Dict.keys (fold_left (fun d kv => Dict.set (fst kv) (snd kv) d) ps acc)).
Proof.
  revert acc. induction ps as [|[k v] ps IH]; simpl; intros acc H; [exact H|].
  apply IH, NoDup_keys_set, H.
Qed.

Lemma NoDup_keys_of_pairs ps : NoDup (Dict.keys (Dict.of_pairs ps)).
Proof. apply fold_set_NoDup. constructor. Qed.

Lemma fold_set_fresh ps acc :
  NoDup (Dict.keys (acc ++ ps)) ->
  fold_left (fun d kv => Dict.set (fst kv) (snd kv) d) ps acc = acc ++ ps.
Proof.
  revert acc. induction ps as [|[k v] ps IH]; simpl; intros acc H.
  - now rewrite app_nil_r.
  - assert (Hk : ~ In k (Dict.keys acc)).
    { unfold Dict.keys in *. rewrite map_app in H. simpl in H.
      apply NoDup_remove_2 in H. intros Hin. apply H. apply in_or_app. now left. }
    rewrite (set_fresh _ _ _ Hk).
    rewrite IH; rewrite <- app_assoc; simpl; [reflexivity | exact H].
Qed.

(** A dictionary is the dictionary of its own items. *)
Lemma of_pairs_items d : NoDup (Dict.keys d) -> Dict.of_pairs d = d.
Proof. intros H. unfold Dict.of_pairs. now rewrite fold_set_fresh. Qed.

End DictFacts.

(* ================================================================== *)
(** * [json.loads] undoes [json.dumps] *)
(* ================================================================== *)

Module JsonFacts.

Import Json.
Local Open Scope string_scope.

Lemma prepend_char (c : ascii) (s rest : string) :
  prepend (N_of_ascii c) (Parsed (Some s) rest) = Parsed (Some (String c s)) rest.
Proof.
  unfold prepend. pose proof (N_ascii_bounded c) as H.
  apply N.ltb_lt in H. now rewrite H, ascii_N_embedding.
Qed.

(** Scanning the escape of one character gives the character back. *)
Lemma scanstring_escape_char (c : ascii) (tail : string) :
  scanstring (escape_char c ++ tail) = prepend (N_of_ascii c) (scanstring tail).
Proof.
  destruct c as [[] [] [] [] [] [] [] []]; reflexivity.
Qed.

Lemma scanstring_escape (s tail : string) :
  scanstring (escape s ++ String dquote tail) = Parsed (Some s) tail.
Proof.
  induction s as [|c s IH]; simpl.
  - reflexivity.
  - rewrite string_app_assoc, scanstring_escape_char, IH. apply prepend_char.
Qed.

Lemma skip_ws_stop (c : ascii) (r : string) :
  is_ws c = false -> skip_ws (String c r) = String c r.
Proof. intros H. simpl. now rewrite H. Qed.

Lemma skip_ws_space (r : string) : skip_ws (String " " r) = skip_ws r.
Proof. reflexivity. Qed.

(** The value at the head of an encoded string. *)
Lemma value_encode_str (v tail : string) (fuel depth : nat) :
  value_at (S fuel) depth (encode_str v ++ tail) = Parsed (Str (Some v)) tail.
Proof.
  unfold encode_str. cbn [value_at append].
  change (Ascii.eqb dquote dquote) with true. cbv iota.
  rewrite string_app_assoc. cbn [append].
  now rewrite scanstring_escape.
Qed.

Lemma members_last (k v tail : string) (fuel depth : nat) :
  members_at (S (S fuel)) depth (encode_str k ++ ": " ++ encode_str v ++ String "}" tail)
  = Parsed [member (k, v)] tail.
Proof.
  unfold encode_str at 1. cbn [members_at append].
  change (Ascii.eqb dquote dquote) with true. cbv iota.
  rewrite string_app_assoc. cbn [append].
  rewrite scanstring_escape.
  rewrite (skip_ws_stop ":") by reflexivity.
  change (Ascii.eqb ":" ":") with true. cbv iota.
  rewrite skip_ws_space.
  unfold encode_str at 1. cbn [append].
  rewrite (skip_ws_stop dquote) by reflexivity.
  change (String dquote ((escape v ++ String dquote "") ++ String "}" tail))
    with (encode_str v ++ String "}" tail).
  rewrite value_encode_str.
  rewrite (skip_ws_stop "}") by reflexivity.
  reflexivity.
Qed.

Lemma members_more (k v rest : string) (fuel depth : nat) :
  members_at (S (S fuel)) depth (encode_str k ++ ": " ++ encode_str v ++ ", " ++ rest)
  = match members_at (S fuel) depth (skip_ws rest) with
    | Parsed ms r => Parsed (member (k, v) :: ms) r
    | Invalid => Invalid
    | Beyond => Beyond
    end.
Proof.
  unfold encode_str at 1. cbn [members_at append].
  change (Ascii.eqb dquote dquote) with true. cbv iota.
  rewrite string_app_assoc. cbn [append].
  rewrite scanstring_escape.
  rewrite (skip_ws_stop ":") by reflexivity.
  change (Ascii.eqb ":" ":") with true. cbv iota.
  rewrite skip_ws_space.
  unfold encode_str at 1. cbn [append].
  rewrite (skip_ws_stop dquote) by reflexivity.
  change (String dquote ((escape v ++ String dquote "") ++ String "," (String " " rest)))
    with (encode_str v ++ String "," (String " " rest)).
  rewrite value_encode_str.
  rewrite (skip_ws_stop ",") by reflexivity.
  change (Ascii.eqb "," "}") with false.
  change (Ascii.eqb "," ",") with true. cbv iota.
  rewrite skip_ws_space. reflexivity.
Qed.

Lemma encode_members_cons (k v : string) (d : Dict.t) :
  d <> [] ->
  encode_members ((k, v) :: d) = encode_str k ++ ": " ++ encode_str v ++ ", " ++ encode_members d.
Proof. destruct d; [congruence | reflexivity]. Qed.

Lemma encode_members_quote (d : Dict.t) (tail : string) :
  d <> [] -> exists r, (encode_members d ++ tail)%string = String dquote r.
Proof.
  destruct d as [|[k v] d]; [congruence|]. intros _.
  destruct d; simpl; eexists; reflexivity.
Qed.

Lemma members_encode (d : Dict.t) (depth : nat) :
  d <> [] -> forall fuel tail, (length d < fuel)%nat ->
  members_at fuel depth (encode_members d ++ String "}" tail) = Parsed (map member d) tail.
Proof.
  induction d as [|[k v] d IH]; [congruence|]. intros _ fuel tail Hf.
  destruct fuel as [|[|fuel]]; [simpl in Hf; lia | simpl in Hf; lia |].
  destruct d as [|kv d].
  - cbn [encode_members]. rewrite !string_app_assoc. apply members_last.
  - rewrite encode_members_cons by discriminate.
    rewrite !string_app_assoc, members_more.
    destruct (encode_members_quote (kv :: d) (String "}" tail)) as [r Hr]; [discriminate|].
    rewrite Hr, (skip_ws_stop dquote) by reflexivity. rewrite <- Hr.
    rewrite IH; [reflexivity | discriminate | simpl in *; lia].
Qed.

Lemma encode_members_length (d : Dict.t) : (length d <= String.length (encode_members d))%nat.
Proof.
  induction d as [|[k v] d IH]; [simpl; lia|].
  destruct d as [|kv d].
  - simpl. lia.
  - rewrite encode_members_cons by discriminate.
    rewrite !string_app_length. simpl in *. lia.
Qed.

(** What is written is read back as the object of its members. *)
Lemma loads_dumps_value (d : Dict.t) : loads (dumps d) = Parsed (Object (map member d)) "".
Proof.
  unfold loads, dumps. cbn [append].
  rewrite (skip_ws_stop "{") by reflexivity.
  set (fuel := (2 * String.length (String "{" (encode_members d ++ "}")) + 2)%nat).
  assert (Hfuel : (exists f, fuel = S f /\ length d < f)%nat).
  { subst fuel. cbn [String.length]. rewrite string_app_length.
    pose proof (encode_members_length d). eexists. split; [rewrite Nat.add_comm; reflexivity|].
    simpl. lia. }
  destruct Hfuel as (f & -> & Hf).
  unfold max_depth. cbn [value_at].
  change (Ascii.eqb "{" dquote) with false.
  change (Ascii.eqb "{" "{") with true. cbv iota.
  destruct d as [|kv d].
  - reflexivity.
  - destruct (encode_members_quote (kv :: d) "}") as [r Hr]; [discriminate|].
    rewrite Hr, (skip_ws_stop dquote) by reflexivity.
    change (Ascii.eqb dquote "}") with false. cbv iota.
    rewrite <- Hr, members_encode; [reflexivity | discriminate | exact Hf].
Qed.

Lemma pairs_members (d : Dict.t) : pairs (map member d) = Some (map lift d).
Proof.
  induction d as [|[k v] d IH]; simpl; [reflexivity | now rewrite IH].
Qed.

Lemma put_lift (k v : string) (d : Dict.t) :
  put k (Some v) (map lift d) = map lift (Dict.set k v d).
Proof.
  induction d as [|[k' v'] d IH]; simpl; [reflexivity|].
  destruct (String.eqb k k'); simpl; [reflexivity | now rewrite IH].
Qed.

Lemma build_lift (ps : list (string * string)) : forall acc : Dict.t,
  fold_left (fun d kv => put (fst kv) (snd kv) d) (map lift ps) (map lift acc)
  = map lift (fold_left (fun d kv => Dict.set (fst kv) (snd kv) d) ps acc).
Proof.
  induction ps as [|[k v] ps IH]; intros acc; simpl; [reflexivity|].
  now rewrite put_lift, IH.
Qed.

Lemma strings_lift (d : Dict.t) : strings (map lift d) = Some d.
Proof.
  induction d as [|[k v] d IH]; simpl; [reflexivity | now rewrite IH].
Qed.

(** The object of the members of a dictionary is that dictionary, built
    again. *)
Lemma mapping_members (d : Dict.t) : mapping (Object (map member d)) = Some (Dict.of_pairs d).
Proof.
  unfold mapping, Dict.of_pairs. rewrite pairs_members.
  change (@nil (string * option string)) with (map lift []).
  now rewrite build_lift, strings_lift.
Qed.

(** Round trip: a dictionary without repeated keys is read back as it was
    written. *)
Lemma loads_dumps (d : Dict.t) :
  NoDup (Dict.keys d) ->
  loads (dumps d) = Parsed (Object (map member d)) "" /\ mapping (Object (map member d)) = Some d.
Proof.
  intros H. split; [apply loads_dumps_value|].
  rewrite mapping_members. f_equal. now apply DictFacts.of_pairs_items.
Qed.

Lemma put_keys (k : string) (v : option string) (d : list (string * option string)) :
  NoDup (map fst d) -> NoDup (map fst (put k v d)) /\
  forall x, In x (map fst (put k v d)) -> x = k \/ In x (map fst d).
Proof.
  induction d as [|[k' v'] d IH]; simpl; intros H.
  - split; [constructor; [intros [] | constructor] | intros x [<-|[]]; now left].
  - destruct (String.eqb k k') eqn:E; simpl.
    + split; [exact H | intros x Hx; now right].
    + inversion H as [|? ? Hk Hd]; subst. destruct (IH Hd) as [Hn Hin].
      split.
      * constructor; [|exact Hn]. intros Hx. destruct (Hin _ Hx) as [->|Hx'].
        -- rewrite String.eqb_refl in E. discriminate.
        -- contradiction.
      * intros x [<-|Hx]; [right; now left|]. destruct (Hin _ Hx) as [->|Hx']; [now left | right; now right].
Qed.

Lemma build_keys (ps acc : list (string * option string)) :
  NoDup (map fst acc) ->
  NoDup (map fst (fold_left (fun d kv => put (fst kv) (snd kv) d) ps acc)).
Proof.
  revert acc. induction ps as [|[k v] ps IH]; simpl; intros acc H; [exact H|].
  apply IH, put_keys, H.
Qed.

Lemma strings_keys (d : list (string * option string)) (r : Dict.t) :
  strings d = Some r -> Dict.keys r = map fst d.
Proof.
  revert r. induction d as [|[k [v|]] d IH]; simpl; intros r H; try discriminate.
  - now injection H as <-.
  - destruct (strings d) as [r'|]; [|discriminate]. injection H as <-.
    simpl. now rewrite (IH r' eq_refl).
Qed.

(** A value that is a mapping of the model has no repeated key. *)
Lemma mapping_NoDup (v : value) (d : Dict.t) : mapping v = Some d -> NoDup (Dict.keys d).
Proof.
  unfold mapping. destruct v as [| | | | |ms]; try discriminate.
  destruct (pairs ms) as [ps|]; [|discriminate]. intros H.
  rewrite (strings_keys _ _ H). apply build_keys. constructor.
Qed.

End JsonFacts.


(* ================================================================== *)
(** * [str.strip] trims *)
(* ================================================================== *)

Module PyStrFacts.

Import PyStr.
Local Open Scope string_scope.





End PyStrFacts.

(* ================================================================== *)
(** * Facts about the query cache *)
(* ================================================================== *)

Module CacheFacts.

Section Facts.
Context {V : Type}.
Implicit Types (c : TTLCache.t V) (l : TTLCache.link V).

Lemma find_key k c l : TTLCache.find k c = Some l -> TTLCache.key l = k.
Proof.
  induction c as [|x c IH]; simpl; [discriminate|].
  destruct (String.eqb k (TTLCache.key x)) eqn:E.
  - intros [= <-]. symmetry. now apply String.eqb_eq.
  - exact IH.
Qed.

Lemma find_app k c c' :
  TTLCache.find k (c ++ c') =
  match TTLCache.find k c with
  | Some l => Some l
  | None => TTLCache.find k c'
  end.
Proof.
  induction c as [|x c IH]; simpl; [reflexivity|].
  now destruct (String.eqb k (TTLCache.key x)).
Qed.

Lemma find_remove k c : TTLCache.find k (TTLCache.remove k c) = None.
Proof.
  unfold TTLCache.remove.
  induction c as [|x c IH]; simpl; [reflexivity|].
  destruct (String.eqb k (TTLCache.key x)) eqn:E; simpl; [exact IH|].
  now rewrite E.
Qed.

(** After [cache[k] = v] the key holds [v] and expires [ttl] later. *)
Lemma find_setitem now k v c :
  TTLCache.find k (TTLCache.setitem now k v c)
  = Some {| TTLCache.key := k; TTLCache.value := v;
            TTLCache.expires := (now + TTLCache.ttl)%Z |}.
Proof.
  unfold TTLCache.setitem. rewrite find_app, find_remove. simpl.
  now rewrite String.eqb_refl.
Qed.

(** A hit: the value is returned and the entry stays, with the same
    expiry, as the most recently used one. *)
Lemma getitem_hit now k c l :
  TTLCache.find k c = Some l -> (now < TTLCache.expires l)%Z ->
  TTLCache.getitem now k c = (Some (TTLCache.value l), TTLCache.remove k c ++ [l])
  /\ TTLCache.find k (TTLCache.remove k c ++ [l]) = Some l.
Proof.
  intros Hf Hlt. unfold TTLCache.getitem. rewrite Hf.
  apply Z.ltb_lt in Hlt. rewrite Hlt. split; [reflexivity|].
  rewrite find_app, find_remove. simpl.
  rewrite (find_key _ _ _ Hf), String.eqb_refl. reflexivity.
Qed.

Lemma contains_find now k c :
  TTLCache.contains now k c = true <->
  exists l, TTLCache.find k c = Some l /\ (now < TTLCache.expires l)%Z.
Proof.
  unfold TTLCache.contains. destruct (TTLCache.find k c) as [l|].
  - rewrite Z.ltb_lt. split; [eauto | now intros [l' [[= <-] H]]].
  - split; [discriminate | now intros [l' [H _]]].
Qed.

End Facts.

End CacheFacts.

(* ================================================================== *)
(** * Facts about the program *)
(* ================================================================== *)

Lemma bind_ok {A B} (m : M A) (k : A -> M B) st a st' :
  m st = (Ok a, st') -> bind m k st = k a st'.
Proof. intros H. unfold bind. now rewrite H. Qed.

Lemma bind_raise {A B} (m : M A) (k : A -> M B) st e st' :
  m st = (Raise e, st') -> bind m k st = (Raise e, st').
Proof. intros H. unfold bind. now rewrite H. Qed.

Lemma bind_out_of_fuel {A B} (m : M A) (k : A -> M B) st st' :
  m st = (OutOfFuel, st') -> bind m k st = (OutOfFuel, st').
Proof. intros H. unfold bind. now rewrite H. Qed.

(** Collecting the names of the authors touches nothing. *)
Lemma author_names_frame (l : list author) st : snd (author_names l st) = st.
Proof.
  revert st. induction l as [|a l IH]; intros st; simpl; [reflexivity|].
  unfold bind, item. destruct (author_name a); simpl; [|reflexivity].
  specialize (IH st). destruct (author_names l st) as [[ns| |] st']; simpl in *; congruence.
Qed.

Lemma author_names_named (l : list author) st :
  authors_named l = true -> exists ns, author_names l st = (Ok ns, st).
Proof.
  induction l as [|a l IH]; simpl; intros H; [eexists; reflexivity|].
  apply andb_true_iff in H as [Ha Hl].
  destruct (IH Hl) as [ns Hns].
  destruct (author_name a) as [n|]; [|discriminate].
  exists (n :: ns). unfold bind, item, ret. now rewrite Hns.
Qed.

(** ** The resolver *)

(** The fast path. *)
Lemma resolve_hit w sg slug tok st :
  s_slug sg = Some slug -> Dict.get slug (file_id_storage st) = Some tok ->
  get_telegram_file_id w sg st = (Ok (Some tok), st).
Proof.
  intros Hs Hg. unfold get_telegram_file_id. unfold_m.
  rewrite Hs. simpl. now rewrite Hg.
Qed.

(** Whatever the outcome of a resolution, the query cache is untouched,
    the trace is extended, and the store and the file are either left as
    they were, or the media fetch answered 200, a token is written for the
    slug of the song, which had none, and the file is rewritten from the
    store. *)
Lemma resolve_frame w sg st :
  let r := fst (get_telegram_file_id w sg st) in
  let st' := snd (get_telegram_file_id w sg st) in
  query_cache st' = query_cache st /\
  exists evs, trace st' = trace st ++ evs /\
  ((file_id_storage st' = file_id_storage st /\ disk st' = disk st)
   \/ (exists slug tok url body,
         s_slug sg = Some slug /\ Dict.get slug (file_id_storage st) = None /\
         s_file sg = Some url /\ http_get w (trace st) url = Response 200%Z body /\
         r = Ok (Some tok) /\
         file_id_storage st' = Dict.set slug tok (file_id_storage st) /\
         disk st' = Some (Json.dumps (file_id_storage st')))).
Proof.
  unfold get_telegram_file_id. unfold_m.
  destruct (s_slug sg) as [slug|] eqn:Hslug; simpl.
  2:{ split; [reflexivity|]. exists []. rewrite app_nil_r. auto. }
  destruct (Dict.get slug (file_id_storage st)) as [tok|] eqn:Hget; simpl.
  { split; [reflexivity|]. exists []. rewrite app_nil_r. auto. }
  destruct (s_file sg) as [url|] eqn:Hfile; simpl.
  2:{ split; [reflexivity|]. exists []. rewrite app_nil_r. auto. }
  pose proof (author_names_frame (get_default (s_authors sg) []) st) as Hn.
  destruct (author_names _ st) as [[ns| |] st1]; simpl in Hn; subst st1.
  2,3: (split; [reflexivity|]; exists []; rewrite app_nil_r; auto).
  repeat (case_inner; unfold_m; simpl);
  repeat match goal with
         | H : (_ =? 200)%Z = true |- _ => apply Z.eqb_eq in H; subst
         end;
  (split; [reflexivity|]; eexists; split; [trace_eq|]);
  first [ left; split; reflexivity
        | right; do 4 eexists; repeat split; eassumption || reflexivity ].
Qed.

(** A resolution that returns a token leaves it in the store. *)
Lemma resolve_token_stored w sg st tok st' :
  get_telegram_file_id w sg st = (Ok (Some tok), st') ->
  exists slug, s_slug sg = Some slug /\ Dict.get slug (file_id_storage st') = Some tok.
Proof.
  intros H. unfold get_telegram_file_id in H. unfold_m.
  destruct (s_slug sg) as [slug|] eqn:Hslug; simpl in H; [|discriminate].
  exists slug. split; [reflexivity|].
  destruct (Dict.get slug (file_id_storage st)) as [t|] eqn:Hget; simpl in H.
  { injection H as <- <-. exact Hget. }
  destruct (s_file sg) as [url|] eqn:Hfile; simpl in H; [|discriminate].
  pose proof (author_names_frame (get_default (s_authors sg) []) st) as Hn.
  destruct (author_names _ st) as [[ns| |] st1]; simpl in Hn; subst st1; try discriminate.
  revert H.
  repeat (case_inner; unfold_m; simpl); intros H; try discriminate;
  injection H as <- <-; simpl; apply DictFacts.get_set_same.
Qed.


Lemma well_formed_inv sg :
  well_formed sg = true ->
  exists slug url al,
    s_slug sg = Some slug /\ s_file sg = Some url /\
    s_album sg = Has {| album_slug := Some al |} /\
    authors_named (get_default (s_authors sg) []) = true.
Proof.
  unfold well_formed. intros H.
  destruct (s_slug sg) as [slug|]; [|discriminate].
  destruct (s_file sg) as [url|]; [|discriminate].
  destruct (s_album sg) as [| |[[al|]]]; try discriminate.
  exists slug, url, al. auto.
Qed.

(** In a world that serves the media storage and accepts the uploads, the
    resolution of a well-formed record returns normally; when the slug has
    no token yet, the media file of the song is fetched exactly once. *)
Lemma resolve_polite w sg st :
  media_served w -> uploads_accepted w -> well_formed sg = true ->
  exists t st' evs,
    get_telegram_file_id w sg st = (Ok t, st') /\
    trace st' = trace st ++ evs /\
    (forall slug, s_slug sg = Some slug ->
       Dict.get slug (file_id_storage st) = None ->
       exists url, s_file sg = Some url /\ media_urls evs = [url]).
Proof.
  intros Hm Hu Hwf.
  destruct (well_formed_inv sg Hwf) as (slug & url & al & Hs & Hf & Hal & Hn).
  destruct (Dict.get slug (file_id_storage st)) as [tok|] eqn:Hg.
  { exists (Some tok), st, []. rewrite (resolve_hit w sg slug tok st Hs Hg).
    rewrite app_nil_r. repeat split. intros s Hs' Hg'. congruence. }
  unfold get_telegram_file_id.
  rewrite (bind_ok _ _ st slug st) by (now rewrite Hs).
  rewrite (bind_ok _ _ st (file_id_storage st) st) by reflexivity.
  rewrite Hg.
  rewrite (bind_ok _ _ st url st) by (now rewrite Hf).
  destruct (author_names_named _ st Hn) as [ns Hns].
  rewrite (bind_ok _ _ st ns st) by exact Hns.
  rewrite (bind_ok _ _ st al st) by (now rewrite Hal).
  unfold_m.
  destruct (Hm (trace st) url) as (status & body & Hget). rewrite Hget. simpl.
  destruct (status =? 200)%Z.
  2:{ do 3 eexists. split; [reflexivity|]. split; [trace_eq|].
      intros s _ _. exists url. now split. }
  destruct (thumbnail_url_of (s_image_cropped sg)) as [u|]; simpl.
  - destruct (Hm (trace st ++ [EvMedia url]) u) as (status' & body' & Hget').
    rewrite Hget'. simpl.
    destruct (status' =? 200)%Z; simpl;
      match goal with
      | |- context [send_audio w ?tr ?req] =>
          destruct (Hu tr req) as (s' & fid & Hsend); rewrite Hsend; simpl
      end;
      (do 3 eexists; split; [reflexivity|]; split; [trace_eq|];
       intros s _ _; exists url; now split).
  - match goal with
    | |- context [send_audio w ?tr ?req] =>
        destruct (Hu tr req) as (s' & fid & Hsend); rewrite Hsend; simpl
    end.
    do 3 eexists. split; [reflexivity|]. split; [trace_eq|].
    intros s _ _. exists url. now split.
Qed.

(** ** How the store and its file evolve *)

Lemma evolves_refl st : evolves st st.
Proof. now apply evolves_quiet. Qed.

Lemma synced_written d st :
  NoDup (Dict.keys d) -> file_id_storage st = d -> disk st = Some (Json.dumps d) ->
  synced st.
Proof.
  intros Hd Hs Hf. split; [now rewrite Hs|].
  rewrite Hf, Hs. unfold load_file_ids.
  destruct (JsonFacts.loads_dumps d Hd) as [-> ->]. reflexivity.
Qed.

(** A token that is in the store stays there, unchanged. *)
Lemma evolves_keeps st st' :
  evolves st st' ->
  forall slug tok, Dict.get slug (file_id_storage st) = Some tok ->
                   Dict.get slug (file_id_storage st') = Some tok.
Proof.
  induction 1 as [st st' Hs _|st st' s t Hpre Hs _|st st1 st2 _ IH1 _ IH2];
    intros slug tok Hg.
  - now rewrite Hs.
  - rewrite Hs. destruct (String.eqb s slug) eqn:E.
    + apply String.eqb_eq in E. subst s. rewrite DictFacts.get_set_same.
      f_equal. symmetry. now apply Hpre.
    + apply String.eqb_neq in E. now rewrite DictFacts.get_set_other.
  - auto.
Qed.

Lemma evolves_NoDup st st' :
  evolves st st' ->
  NoDup (Dict.keys (file_id_storage st)) -> NoDup (Dict.keys (file_id_storage st')).
Proof.
  induction 1 as [st st' Hs _|st st' s t _ Hs _|st st1 st2 _ IH1 _ IH2]; intros Hd.
  - now rewrite Hs.
  - rewrite Hs. now apply DictFacts.NoDup_keys_set.
  - auto.
Qed.

Lemma evolves_synced st st' : evolves st st' -> synced st -> synced st'.
Proof.
  induction 1 as [st st' Hs Hf|st st' s t _ Hs Hf|st st1 st2 _ IH1 _ IH2]; intros Hsy.
  - destruct Hsy as [Hd Hl]. split; [now rewrite Hs | now rewrite Hs, Hf].
  - destruct Hsy as [Hd Hl].
    apply (synced_written (file_id_storage st')); [|reflexivity|exact Hf].
    rewrite Hs. now apply DictFacts.NoDup_keys_set.
  - auto.
Qed.

Lemma quiet_evolves {A} (m : M A) st : quiet m -> evolves st (snd (m st)).
Proof. intros H. destruct (H st). now apply evolves_quiet. Qed.

Lemma evolves_bind {A B} (m : M A) (k : A -> M B) :
  (forall st, evolves st (snd (m st))) ->
  (forall a st, evolves st (snd (k a st))) ->
  forall st, evolves st (snd (bind m k st)).
Proof.
  intros Hm Hk st. unfold bind. specialize (Hm st).
  destruct (m st) as [[a|e|] st1]; simpl in *; [|exact Hm|exact Hm].
  eapply evolves_trans; [exact Hm | apply Hk].
Qed.

Lemma quiet_bind {A B} (m : M A) (k : A -> M B) :
  quiet m -> (forall a, quiet (k a)) -> quiet (bind m k).
Proof.
  intros Hm Hk st. unfold bind. specialize (Hm st).
  destruct (m st) as [[a|e|] st1]; simpl in *; [|exact Hm|exact Hm].
  destruct Hm as [H1 H2]. destruct (Hk a st1) as [H3 H4]. split; congruence.
Qed.

Lemma quiet_ret {A} (a : A) : quiet (ret a).
Proof. intros st. now split. Qed.

Lemma quiet_raise {A} (e : exn) : quiet (@raise A e).
Proof. intros st. now split. Qed.

Lemma quiet_item {A} k (o : option A) : quiet (item k o).
Proof. destruct o; [apply quiet_ret | apply quiet_raise]. Qed.

Lemma quiet_json {A} (o : option A) : quiet (json o).
Proof. destruct o; [apply quiet_ret | apply quiet_raise]. Qed.

Lemma quiet_request {B} ev (oracle : list event -> reply B) : quiet (request ev oracle).
Proof. intros st. unfold request. destruct (oracle (trace st)); now split. Qed.

Lemma quiet_cache_contains w q : quiet (cache_contains w q).
Proof.
  intros st. unfold cache_contains, cache, bind, timer, ret. simpl.
  destruct (TTLCache.find q (query_cache st)); now split.
Qed.

Lemma quiet_cache_getitem w q : quiet (cache_getitem w q).
Proof.
  intros st. unfold cache_getitem, cache, bind, timer, raise. simpl.
  destruct (TTLCache.find q (query_cache st)); [|now split]. simpl.
  destruct (TTLCache.getitem _ q (query_cache st)) as [[v|] c]; now split.
Qed.

Lemma quiet_cache_setitem w q rs : quiet (cache_setitem w q rs).
Proof. intros st. now split. Qed.

Lemma quiet_answer w qid rs : quiet (answer w qid rs).
Proof.
  intros st. unfold answer. destruct (answer_inline_query w (trace st) qid rs); now split.
Qed.

Lemma quiet_fetch_songs_from_api w q : quiet (fetch_songs_from_api w q).
Proof.
  unfold fetch_songs_from_api. apply quiet_bind; [apply quiet_request|].
  intros [status body]. simpl. destruct (status =? 200)%Z; [apply quiet_json | apply quiet_ret].
Qed.

Lemma quiet_album_slug_item a : quiet (album_slug_item a).
Proof.
  destruct a; simpl; [apply quiet_raise | apply quiet_raise | apply quiet_item].
Qed.

Lemma quiet_fetch_pages w fuel : forall nxt acc, quiet (fetch_pages w fuel nxt acc).
Proof.
  induction fuel as [|fuel IH]; intros [url|] acc; simpl; try apply quiet_ret.
  - destruct (PyStr.truthy url); [|apply quiet_ret]. intros st. now split.
  - destruct (PyStr.truthy url); [|apply quiet_ret].
    apply quiet_bind; [apply quiet_request|].
    intros [status body]. simpl. destruct (status =? 200)%Z; [|apply quiet_ret].
    apply quiet_bind; [apply quiet_json|]. intros data.
    apply quiet_bind; [apply quiet_item|]. intros found. apply IH.
Qed.

Lemma resolve_evolves w sg st : evolves st (snd (get_telegram_file_id w sg st)).
Proof.
  destruct (resolve_frame w sg st) as (_ & evs & _ & [[Hs Hf]|H]).
  - now apply evolves_quiet.
  - destruct H as (slug & tok & url & body & _ & Hg & _ & _ & _ & Hs & Hf).
    apply (evolves_write _ _ slug tok); auto. intros t Ht. congruence.
Qed.

Lemma inline_step_evolves w sg rs st : evolves st (snd (inline_step w sg rs st)).
Proof.
  unfold inline_step. apply evolves_bind; [apply resolve_evolves|].
  intros [fid|] st1; [|apply evolves_refl].
  destruct (PyStr.truthy fid); [|apply evolves_refl].
  apply quiet_evolves.
  apply quiet_bind; [apply quiet_item|]. intros i.
  apply quiet_bind; [apply quiet_album_slug_item|]. intros al.
  apply quiet_bind; [apply quiet_item|]. intros sl. apply quiet_ret.
Qed.

Lemma inline_loop_evolves w songs : forall rs st, evolves st (snd (inline_loop w songs rs st)).
Proof.
  induction songs as [|sg songs IH]; intros rs st; simpl; [apply evolves_refl|].
  apply evolves_bind; [apply inline_step_evolves | intros; apply IH].
Qed.

Lemma inline_query_evolves w qid text st : evolves st (snd (inline_query w qid text st)).
Proof.
  unfold inline_query.
  apply evolves_bind; [intros; apply quiet_evolves, quiet_cache_contains|].
  intros hit st1.
  apply evolves_bind; [|intros; apply quiet_evolves, quiet_answer].
  intros st2. destruct hit.
  - apply quiet_evolves, quiet_cache_getitem.
  - apply evolves_bind; [intros; apply quiet_evolves, quiet_fetch_songs_from_api|].
    intros pg st3.
    apply evolves_bind; [intros; apply quiet_evolves, quiet_item|].
    intros found st4.
    apply evolves_bind; [intros; apply inline_loop_evolves|].
    intros rs st5.
    apply evolves_bind; [intros; apply quiet_evolves, quiet_cache_setitem|].
    intros; apply evolves_refl.
Qed.

(** Storing again the token a resolution returned. *)
Lemma store_again_evolves slug tok st :
  Dict.get slug (file_id_storage st) = Some tok ->
  evolves st (snd (store_file_id slug tok st)).
Proof.
  intros Hg. apply (evolves_write _ _ slug tok); [intros t Ht; congruence | reflexivity | reflexivity].
Qed.

Lemma upload_step_evolves w sg st : evolves st (snd (upload_step w sg st)).
Proof.
  unfold upload_step.
  destruct (s_slug sg) as [slug|] eqn:Hs; [|apply evolves_refl].
  rewrite (bind_ok _ _ st slug st) by reflexivity.
  rewrite (bind_ok _ _ st (file_id_storage st) st) by reflexivity.
  destruct (Dict.mem slug (file_id_storage st)); [apply evolves_refl|].
  unfold bind.
  pose proof (resolve_evolves w sg st) as He.
  destruct (get_telegram_file_id w sg st) as [[[fid|]|e|] st2] eqn:Hr; simpl in *; try exact He.
  destruct (PyStr.truthy fid); [|exact He].
  eapply evolves_trans; [exact He|].
  destruct (resolve_token_stored w sg st fid st2 Hr) as (slug' & Hs' & Hg').
  rewrite Hs in Hs'. injection Hs' as <-.
  now apply store_again_evolves.
Qed.

Lemma upload_loop_evolves w songs : forall st, evolves st (snd (upload_loop w songs st)).
Proof.
  induction songs as [|sg songs IH]; intros st; simpl; [apply evolves_refl|].
  apply evolves_bind; [apply upload_step_evolves | intros; apply IH].
Qed.

Lemma upload_songs_evolves w fuel st : evolves st (snd (upload_songs w fuel st)).
Proof.
  unfold upload_songs.
  apply evolves_bind; [intros; apply quiet_evolves, quiet_fetch_pages|].
  intros [|sg songs] st1; [apply evolves_refl|].
  apply evolves_bind; [apply upload_loop_evolves | intros; apply evolves_refl].
Qed.

(** Every operation of the services evolves the state. *)
Lemma run_op_evolves w o st : service_op o = true -> evolves st (run_op w o st).
Proof.
  destruct o; simpl; intros H; try discriminate.
  - apply inline_query_evolves.
  - apply upload_songs_evolves.
  - apply upload_step_evolves.
  - apply resolve_evolves.
Qed.

Lemma run_evolves w ops : forall st, forallb service_op ops = true -> evolves st (run w ops st).
Proof.
  induction ops as [|o ops IH]; intros st H; simpl; [apply evolves_refl|].
  simpl in H. apply andb_true_iff in H as [Ho Hops].
  eapply evolves_trans; [apply run_op_evolves, Ho | apply IH, Hops].
Qed.

(** A bare put keeps the store and the file in agreement. *)
Lemma put_synced slug tok st : synced st -> synced (snd (store_file_id slug tok st)).
Proof.
  intros [Hd _].
  apply (synced_written (Dict.set slug tok (file_id_storage st)));
    [now apply DictFacts.NoDup_keys_set | reflexivity | reflexivity].
Qed.

Lemma run_op_synced w o st : synced st -> synced (run_op w o st).
Proof.
  destruct o as [qid text|fuel|sg|sg|slug tok].
  - apply evolves_synced, (run_op_evolves w (Inline qid text)). reflexivity.
  - apply evolves_synced, (run_op_evolves w (Upload fuel)). reflexivity.
  - apply evolves_synced, (run_op_evolves w (Ingest sg)). reflexivity.
  - apply evolves_synced, (run_op_evolves w (Resolve sg)). reflexivity.
  - apply put_synced.
Qed.

Lemma run_synced w ops : forall st, synced st -> synced (run w ops st).
Proof.
  induction ops as [|o ops IH]; intros st H; simpl; [exact H|].
  apply IH, run_op_synced, H.
Qed.

(** The state a process starts in has its store and its file in
    agreement. *)
Lemma load_file_ids_NoDup file d :
  load_file_ids file = Ok (Store d) -> NoDup (Dict.keys d).
Proof.
  destruct file as [text|]; simpl.
  - destruct (Json.loads text) as [v rest| |]; try discriminate.
    destruct (Json.mapping v) as [d'|] eqn:Hm; [|discriminate].
    intros [= <-]. exact (JsonFacts.mapping_NoDup v d' Hm).
  - intros [= <-]. constructor.
Qed.

Lemma startup_synced file st : startup file = Ok (Some st) -> synced st.
Proof.
  unfold startup. destruct (load_file_ids file) as [[d|v]|e|] eqn:Hl; intros [= <-].
  split; simpl; [|exact Hl]. exact (load_file_ids_NoDup file d Hl).
Qed.

(** ** The inline query *)

Lemma bind_assoc {A B C} (m : M A) (f : A -> M B) (g : B -> M C) st :
  bind (bind m f) g st = bind m (fun a => bind (f a) g) st.
Proof. unfold bind. destruct (m st) as [[a|e|] st1]; reflexivity. Qed.

(** The search request: one event, the URL carries the query and the page
    size 5, and nothing else changes. *)
Lemma fetch_songs_from_api_frame w q st :
  let st1 := snd (fetch_songs_from_api w q st) in
  st1 = log (EvSearch (API_BASE_URL ++ "?search=" ++ q ++ "&page_size=5")%string) st.
Proof.
  unfold fetch_songs_from_api, bind, request. simpl.
  destruct (catalog_get w (trace st) _) as [e|status body]; simpl; [reflexivity|].
  destruct (status =? 200)%Z; [|reflexivity].
  destruct body; reflexivity.
Qed.


(** The step of the loop after a resolution that returned normally. *)
Lemma inline_step_resolved w sg rs st t st1 :
  get_telegram_file_id w sg st = (Ok t, st1) ->
  album_known sg = true ->
  inline_step w sg rs st = (Ok (rs ++ assemble [sg] [t]), st1).
Proof.
  intros Hr Ha. unfold inline_step. rewrite (bind_ok _ _ _ _ _ Hr).
  destruct t as [fid|]; simpl; [|now rewrite app_nil_r].
  destruct (PyStr.truthy fid); [|now rewrite app_nil_r].
  destruct (resolve_token_stored w sg st fid st1 Hr) as (slug & Hs & _).
  unfold album_known in Ha. unfold entry. rewrite Hs.
  destruct (s_album sg) as [| |[[al|]]]; try discriminate. reflexivity.
Qed.

Lemma assemble_cons sg songs t ts :
  assemble (sg :: songs) (t :: ts) = assemble [sg] [t] ++ assemble songs ts.
Proof.
  simpl. destruct t as [tok|]; [|reflexivity].
  destruct (PyStr.truthy tok); [|reflexivity].
  destruct (entry sg tok); reflexivity.
Qed.

(** The loop, when every resolution returns normally, assembles the
    entries in the order of the songs. *)
Lemma inline_loop_resolves w songs st ts st2 :
  resolves w songs st ts st2 ->
  forallb album_known songs = true ->
  forall rs, inline_loop w songs rs st = (Ok (rs ++ assemble songs ts), st2).
Proof.
  induction 1 as [st|sg rest st t st1 ts st2 Hr _ IH]; intros Ha rs.
  - simpl. now rewrite app_nil_r.
  - simpl in Ha. apply andb_true_iff in Ha as [Ha1 Ha2].
    cbn [inline_loop].
    rewrite (bind_ok _ _ _ _ _ (inline_step_resolved w sg rs st t st1 Hr Ha1)).
    rewrite IH by exact Ha2. rewrite (assemble_cons sg rest t ts), app_assoc. reflexivity.
Qed.

(** What the step of the loop can do to the list, whatever the outcome of
    the resolution. *)
Lemma inline_step_cases w sg rs st :
  exists r, inline_step w sg rs st = (r, snd (get_telegram_file_id w sg st)) /\
    forall rs', r = Ok rs' ->
      rs' = rs \/
      exists slug fid al,
        s_slug sg = Some slug /\
        fst (get_telegram_file_id w sg st) = Ok (Some fid) /\
        rs' = rs ++ [{| id := slug; audio_file_id := fid; caption := caption_of al slug |}].
Proof.
  unfold inline_step, bind.
  destruct (get_telegram_file_id w sg st) as [[[fid|]|e|] st1] eqn:Hr; simpl;
    try (eexists; split; [reflexivity|]; intros rs' [= <-]; now left);
    try (eexists; split; [reflexivity|]; intros rs'; discriminate).
  destruct (PyStr.truthy fid);
    [|eexists; split; [reflexivity|]; intros rs' [= <-]; now left].
  unfold item, ret, raise.
  destruct (s_slug sg) as [slug|] eqn:Hs;
    [|eexists; split; [reflexivity|]; intros rs'; discriminate].
  destruct (s_album sg) as [| |[[al|]]]; simpl;
    try (eexists; split; [reflexivity|]; intros rs'; discriminate).
  eexists; split; [reflexivity|]. intros rs' [= <-]. right.
  exists slug, fid, al. auto.
Qed.



(** The membership test of the cache: the clock is read when the key has
    an entry, and the entry counts while it has not expired. *)
Lemma cache_contains_cases w q st :
  cache_contains w q st =
  match TTLCache.find q (query_cache st) with
  | Some l => (Ok (now w st <? TTLCache.expires l)%Z, tick st)
  | None => (Ok false, st)
  end.
Proof.
  unfold cache_contains, cache, bind, timer, ret, TTLCache.contains. simpl.
  destruct (TTLCache.find q (query_cache st)); reflexivity.
Qed.

(** A membership test that answers [false] leaves the store, the file,
    the cache and the trace as they are. *)
Lemma cache_contains_false w q st st0 :
  cache_contains w q st = (Ok false, st0) ->
  file_id_storage st0 = file_id_storage st /\ disk st0 = disk st /\
  query_cache st0 = query_cache st /\ trace st0 = trace st.
Proof.
  rewrite cache_contains_cases.
  destruct (TTLCache.find q (query_cache st)); intros H;
    apply (f_equal snd) in H; simpl in H; subst st0; auto.
Qed.

Lemma cache_getitem_hit w q st l :
  TTLCache.find q (query_cache st) = Some l ->
  (now w st < TTLCache.expires l)%Z ->
  cache_getitem w q st
  = (Ok (TTLCache.value l),
     set_query_cache (TTLCache.remove q (query_cache st) ++ [l]) (tick st)).
Proof.
  intros Hf Hlt. unfold cache_getitem, cache, bind, timer. simpl. rewrite Hf. simpl.
  now destruct (CacheFacts.getitem_hit _ _ _ _ Hf Hlt) as [-> _].
Qed.

Lemma cache_getitem_expired w q st l :
  TTLCache.find q (query_cache st) = Some l ->
  (TTLCache.expires l <= now w st)%Z ->
  cache_getitem w q st
  = (Raise (KeyError q),
     set_query_cache (TTLCache.remove q (query_cache st) ++ [l]) (tick st)).
Proof.
  intros Hf Hle. unfold cache_getitem, cache, bind, timer. simpl. rewrite Hf. simpl.
  unfold TTLCache.getitem. rewrite Hf.
  apply Z.ltb_ge in Hle. now rewrite Hle.
Qed.

(** The inline query on a hit: the clock is read twice, by the membership
    test and by the read; when the entry has not expired at either
    reading, the cached list is answered. *)
Lemma inline_query_hit w qid text st l :
  TTLCache.find (PyStr.strip text) (query_cache st) = Some l ->
  (now w st < TTLCache.expires l)%Z ->
  (now w (tick st) < TTLCache.expires l)%Z ->
  inline_query w qid text st =
  answer w qid (TTLCache.value l)
         (set_query_cache (TTLCache.remove (PyStr.strip text) (query_cache st) ++ [l])
                          (tick (tick st))).
Proof.
  intros Hf Hlt1 Hlt2. unfold inline_query.
  rewrite (bind_ok _ _ st true (tick st)).
  2:{ rewrite cache_contains_cases, Hf. apply Z.ltb_lt in Hlt1. now rewrite Hlt1. }
  now rewrite (bind_ok _ _ _ _ _ (cache_getitem_hit w _ (tick st) l Hf Hlt2)).
Qed.

(** The entry expires between the membership test and the read: the read
    raises [KeyError], which nothing catches. *)
Lemma inline_query_expires_between w qid text st l :
  TTLCache.find (PyStr.strip text) (query_cache st) = Some l ->
  (now w st < TTLCache.expires l)%Z ->
  (TTLCache.expires l <= now w (tick st))%Z ->
  inline_query w qid text st =
  (Raise (KeyError (PyStr.strip text)),
   set_query_cache (TTLCache.remove (PyStr.strip text) (query_cache st) ++ [l])
                   (tick (tick st))).
Proof.
  intros Hf Hlt1 Hle2. unfold inline_query.
  rewrite (bind_ok _ _ st true (tick st)).
  2:{ rewrite cache_contains_cases, Hf. apply Z.ltb_lt in Hlt1. now rewrite Hlt1. }
  now rewrite (bind_raise _ _ _ _ _ (cache_getitem_expired w _ (tick st) l Hf Hle2)).
Qed.

(** The inline query on a miss, once the search has answered. *)
Lemma inline_query_miss w qid text st st0 pg st1 found :
  cache_contains w (PyStr.strip text) st = (Ok false, st0) ->
  fetch_songs_from_api w (PyStr.strip text) st0 = (Ok pg, st1) ->
  results pg = Some found ->
  inline_query w qid text st =
  match inline_loop w found [] st1 with
  | (Ok rs, st2) =>
      answer w qid rs
        (set_query_cache
           (TTLCache.setitem (now w st2) (PyStr.strip text) rs (query_cache st2))
           (tick st2))
  | (Raise e, st2) => (Raise e, st2)
  | (OutOfFuel, st2) => (OutOfFuel, st2)
  end.
Proof.
  intros Hc Hf Hres. unfold inline_query.
  rewrite (bind_ok _ _ _ _ _ Hc).
  rewrite bind_assoc, (bind_ok _ _ _ _ _ Hf).
  rewrite bind_assoc, (bind_ok _ _ st1 found st1) by (now rewrite Hres).
  rewrite bind_assoc. unfold bind at 1.
  destruct (inline_loop w found [] st1) as [[rs|e|] st2]; reflexivity.
Qed.

(** An inline query that returns normally has answered with the list the
    cache now holds for the trimmed query. *)
Lemma inline_query_returns w qid text st st1 :
  inline_query w qid text st = (Ok tt, st1) ->
  exists rs l st',
    st1 = log (EvAnswer qid rs 1) st' /\
    TTLCache.find (PyStr.strip text) (query_cache st') = Some l /\
    TTLCache.value l = rs.
Proof.
  intros H.
  assert (Hmiss : forall st0, cache_contains w (PyStr.strip text) st = (Ok false, st0) ->
            exists rs l st',
              st1 = log (EvAnswer qid rs 1) st' /\
              TTLCache.find (PyStr.strip text) (query_cache st') = Some l /\
              TTLCache.value l = rs).
  { intros st0 Hc.
    destruct (fetch_songs_from_api w (PyStr.strip text) st0) as [[pg|e|] s1] eqn:Hfetch.
    - destruct (results pg) as [found|] eqn:Hres.
      + rewrite (inline_query_miss w qid text st st0 pg s1 found Hc Hfetch Hres) in H.
        destruct (inline_loop w found [] s1) as [[rs|e|] st2]; try discriminate.
        unfold answer in H. simpl in H.
        destruct (answer_inline_query w (trace st2) qid rs); [discriminate|].
        injection H as <-. do 3 eexists. split; [reflexivity|].
        split; [apply CacheFacts.find_setitem | reflexivity].
      + unfold inline_query in H. rewrite (bind_ok _ _ _ _ _ Hc) in H.
        rewrite bind_assoc, (bind_ok _ _ _ _ _ Hfetch) in H.
        rewrite bind_assoc, (bind_raise _ _ s1 (KeyError "results") s1) in H
          by (now rewrite Hres).
        discriminate.
    - unfold inline_query in H. rewrite (bind_ok _ _ _ _ _ Hc) in H.
      rewrite bind_assoc, (bind_raise _ _ _ _ _ Hfetch) in H. discriminate.
    - unfold inline_query in H. rewrite (bind_ok _ _ _ _ _ Hc) in H.
      rewrite bind_assoc, (bind_out_of_fuel _ _ _ _ Hfetch) in H. discriminate. }
  pose proof (cache_contains_cases w (PyStr.strip text) st) as Hc.
  destruct (TTLCache.find (PyStr.strip text) (query_cache st)) as [l|] eqn:Hf;
    [|exact (Hmiss _ Hc)].
  destruct (now w st <? TTLCache.expires l)%Z eqn:Hlt1; [|exact (Hmiss _ Hc)].
  apply Z.ltb_lt in Hlt1.
  destruct (Z.lt_ge_cases (now w (tick st)) (TTLCache.expires l)) as [Hlt2|Hge2].
  - rewrite (inline_query_hit w qid text st l Hf Hlt1 Hlt2) in H.
    unfold answer in H. simpl in H.
    destruct (answer_inline_query w (trace st) qid (TTLCache.value l)); [discriminate|].
    injection H as <-. exists (TTLCache.value l), l. eexists. split; [reflexivity|].
    split; [|reflexivity]. simpl.
    now destruct (CacheFacts.getitem_hit _ _ _ _ Hf Hlt1).
  - rewrite (inline_query_expires_between w qid text st l Hf Hlt1 Hge2) in H. discriminate.
Qed.

(** One query served from the cache: the cached list is answered, nothing
    else is sent, the clock has been read twice, and only the order of use
    of the cache changes. *)
Lemma inline_query_hit_state w qid text st l :
  TTLCache.find (PyStr.strip text) (query_cache st) = Some l ->
  (now w st < TTLCache.expires l)%Z ->
  (now w (tick st) < TTLCache.expires l)%Z ->
  let st' := snd (inline_query w qid text st) in
  trace st' = trace st ++ [EvAnswer qid (TTLCache.value l) 1] /\
  clock_reads st' = 2 + clock_reads st /\
  TTLCache.find (PyStr.strip text) (query_cache st') = Some l /\
  file_id_storage st' = file_id_storage st /\
  disk st' = disk st.
Proof.
  intros Hf Hlt1 Hlt2. cbv zeta. rewrite (inline_query_hit w qid text st l Hf Hlt1 Hlt2).
  unfold answer. simpl.
  destruct (CacheFacts.getitem_hit _ _ _ _ Hf Hlt1) as [_ Hf'].
  destruct (answer_inline_query w (trace st) qid (TTLCache.value l)); simpl; auto.
Qed.


(** ** Polite worlds *)






(** ** The bulk ingestion *)



Lemma mem_get_eq k d1 d2 : Dict.get k d1 = Dict.get k d2 -> Dict.mem k d1 = Dict.mem k d2.
Proof. unfold Dict.mem. now intros ->. Qed.

(** One step of the ingestion in a world that serves the media storage and
    accepts the uploads: nothing is sent when the slug has a token, the
    media file is fetched once otherwise, and no other slug of the store
    is touched. *)
Lemma upload_step_polite w sg slug st :
  media_served w -> uploads_accepted w -> well_formed sg = true ->
  s_slug sg = Some slug ->
  exists st2 evs,
    upload_step w sg st = (Ok tt, st2) /\
    trace st2 = trace st ++ evs /\
    step_events (file_id_storage st) sg evs /\
    (forall s, s <> slug ->
       Dict.get s (file_id_storage st2) = Dict.get s (file_id_storage st)).
Proof.
  intros Hm Hu Hwf Hs. unfold upload_step, step_events. rewrite Hs.
  rewrite (bind_ok _ _ st slug st) by reflexivity.
  rewrite (bind_ok _ _ st (file_id_storage st) st) by reflexivity.
  destruct (Dict.mem slug (file_id_storage st)) eqn:Hmem.
  { exists st, []. rewrite app_nil_r. auto. }
  apply DictFacts.mem_false_get in Hmem.
  destruct (resolve_polite w sg st Hm Hu Hwf) as (t & st1 & evs & Hr & Ht & Hmedia).
  destruct (Hmedia slug Hs Hmem) as (u & Hu' & Hurls).
  assert (Hfiles : media_urls evs = files [sg]).
  { unfold files. simpl. now rewrite Hu'. }
  assert (Hother : forall s, s <> slug ->
            Dict.get s (file_id_storage st1) = Dict.get s (file_id_storage st)).
  { intros s Hne. destruct (resolve_frame w sg st) as (_ & _ & _ & Hfr).
    rewrite Hr in Hfr. simpl in Hfr.
    destruct Hfr as [[Hst _]|(s' & tok & _ & _ & Hs' & _ & _ & _ & _ & Hst & _)].
    - now rewrite Hst.
    - rewrite Hst. rewrite Hs in Hs'. injection Hs' as <-.
      apply DictFacts.get_set_other. congruence. }
  rewrite (bind_ok _ _ _ _ _ Hr).
  destruct t as [fid|]; [destruct (PyStr.truthy fid)|].
  - eexists. exists evs. split; [reflexivity|]. simpl. split; [exact Ht|]. split; [exact Hfiles|].
    intros s Hne. rewrite DictFacts.get_set_other by congruence. now apply Hother.
  - exists st1, evs. auto.
  - exists st1, evs. auto.
Qed.

Lemma step_events_ext d1 d2 sg es :
  (forall s, s_slug sg = Some s -> Dict.mem s d1 = Dict.mem s d2) ->
  step_events d1 sg es -> step_events d2 sg es.
Proof.
  unfold step_events. intros H. destruct (s_slug sg) as [s|]; [|auto].
  now rewrite (H s eq_refl).
Qed.

Lemma Forall2_impl_in {A B} (P Q : A -> B -> Prop) l l' :
  (forall x y, In x l -> P x y -> Q x y) -> Forall2 P l l' -> Forall2 Q l l'.
Proof.
  intros H HP. induction HP as [|x y l l' Hxy _ IH]; constructor.
  - apply H; [now left | exact Hxy].
  - apply IH. intros a b Hin. apply H. now right.
Qed.

(** The ingestion loop in such a world: it returns normally, and each song
    sends what [step_events] says for the store the loop started with. *)
Lemma upload_loop_polite w songs :
  media_served w -> uploads_accepted w ->
  forallb well_formed songs = true -> NoDup (slugs songs) ->
  forall st, exists st2 per,
    upload_loop w songs st = (Ok tt, st2) /\
    trace st2 = trace st ++ concat per /\
    Forall2 (step_events (file_id_storage st)) songs per.
Proof.
  intros Hm Hu. induction songs as [|sg songs IH]; intros Hwf Hnd st.
  - exists st, []. simpl. rewrite app_nil_r. auto.
  - simpl in Hwf. apply andb_true_iff in Hwf as [H1 H2].
    destruct (well_formed_inv sg H1) as (slug & url & al & Hs & Hf & _ & _).
    unfold slugs in Hnd. simpl in Hnd. rewrite Hs in Hnd. simpl in Hnd.
    apply NoDup_cons_iff in Hnd as [Hfresh Hnd].
    destruct (upload_step_polite w sg slug st Hm Hu H1 Hs)
      as (st1 & evs1 & Hstep & Ht1 & Hev1 & Hother).
    destruct (IH H2 Hnd st1) as (st2 & per & Hloop & Ht2 & Hper).
    exists st2, (evs1 :: per). cbn [upload_loop].
    rewrite (bind_ok _ _ _ _ _ Hstep). split; [exact Hloop|].
    split; [simpl; now rewrite Ht2, Ht1, app_assoc|].
    constructor; [exact Hev1|].
    apply (Forall2_impl_in (step_events (file_id_storage st1))); [|exact Hper].
    intros sg' es Hin. apply step_events_ext. intros s Hs'.
    apply mem_get_eq, Hother. intros ->. apply Hfresh.
    unfold slugs. apply in_flat_map. exists sg'. rewrite Hs'. simpl. auto.
Qed.






(* ================================================================== *)
(** * Further facts *)
(* ================================================================== *)

(** Writing a key twice is writing it once, with the last value. *)
Lemma dict_set_set k v1 v2 d : Dict.set k v2 (Dict.set k v1 d) = Dict.set k v2 d.
Proof.
  induction d as [|[k' v'] d IH]; simpl.
  - now rewrite String.eqb_refl.
  - destruct (String.eqb k k') eqn:E; simpl; rewrite E; [reflexivity | now rewrite IH].
Qed.

Lemma logs_app evs1 evs2 st : logs (evs1 ++ evs2) st = logs evs2 (logs evs1 st).
Proof. apply fold_left_app. Qed.

Lemma logs_frame evs : forall st,
  file_id_storage (logs evs st) = file_id_storage st /\
  disk (logs evs st) = disk st /\
  query_cache (logs evs st) = query_cache st /\
  clock_reads (logs evs st) = clock_reads st /\
  trace (logs evs st) = trace st ++ evs.
Proof.
  induction evs as [|e evs IH]; intros st; simpl.
  - now rewrite app_nil_r.
  - destruct (IH (log e st)) as (-> & -> & -> & -> & ->). simpl.
    now rewrite <- app_assoc.
Qed.

(** The names of authors that all carry one. *)
Lemma author_names_of (l : list author) st :
  authors_named l = true -> author_names l st = (Ok (names_of l), st).
Proof.
  induction l as [|a l IH]; simpl; intros H; [reflexivity|].
  apply andb_true_iff in H as [Ha Hl].
  destruct (author_name a) as [n|]; [|discriminate].
  unfold bind, item, ret. now rewrite (IH Hl).
Qed.

(** The first author without a name raises. *)
Lemma author_names_unnamed (l : list author) st :
  authors_named l = false -> author_names l st = (Raise (KeyError "name"), st).
Proof.
  induction l as [|a l IH]; simpl; intros H; [discriminate|].
  unfold bind, item, ret, raise.
  destruct (author_name a) as [n|]; [|reflexivity].
  simpl in H. now rewrite (IH H).
Qed.

(** A resolution whose metadata is sound reaches the media fetch; what
    follows is the thumbnail stage, the upload and the write. *)
Lemma resolve_slow w sg slug url st :
  s_slug sg = Some slug ->
  Dict.get slug (file_id_storage st) = None ->
  s_file sg = Some url ->
  metadata_error sg = None ->
  get_telegram_file_id w sg st =
  match http_get w (trace st) url with
  | Fails e => (Raise e, log (EvMedia url) st)
  | Response status body =>
      if (status =? 200)%Z then
        bind (match thumbnail_url_of (s_image_cropped sg) with
              | Some u => download_thumbnail w u
              | None => ret None
              end)
             (fun thumb =>
                message <- request (EvSendAudio (upload_request sg slug body thumb))
                             (fun tr => send_audio w tr (upload_request sg slug body thumb)) ;;
                file_id <- match message_audio (snd message) with
                           | Some fid => ret fid
                           | None => raise AttributeError
                           end ;;
                store_file_id slug file_id ;;
                ret (Some file_id))
             (log (EvMedia url) st)
      else (Ok None, log (EvMedia url) st)
  end.
Proof.
  intros Hs Hg Hf Hmeta. unfold metadata_error in Hmeta. rewrite Hf in Hmeta.
  destruct (authors_named (get_default (s_authors sg) [])) eqn:Ha; [|discriminate].
  unfold get_telegram_file_id.
  rewrite (bind_ok _ _ st slug st) by (now rewrite Hs).
  rewrite (bind_ok _ _ st (file_id_storage st) st) by reflexivity.
  rewrite Hg.
  rewrite (bind_ok _ _ st url st) by (now rewrite Hf).
  rewrite (bind_ok _ _ st _ st (author_names_of _ st Ha)).
  rewrite (bind_ok _ _ st (album_of sg) st)
    by (unfold album_of; destruct (s_album sg); [reflexivity | discriminate | reflexivity]).
  unfold bind at 1. unfold request at 1.
  destruct (http_get w (trace st) url) as [e|status body]; [reflexivity|].
  simpl. destruct (status =? 200)%Z; [|reflexivity].
  destruct (thumbnail_url_of (s_image_cropped sg)) as [u|]; unfold upload_request; unfold_m;
    simpl; repeat (case_inner; simpl); reflexivity.
Qed.

(** The thumbnail stage, run. *)
Lemma thumbnail_stage_run w sg st tevs thumb :
  thumbnail_stage w (trace st) sg tevs thumb ->
  match thumbnail_url_of (s_image_cropped sg) with
  | Some u => download_thumbnail w u
  | None => ret None
  end st = (Ok thumb, logs tevs st).
Proof.
  intros [Hn | u status body Hu Hget].
  - now rewrite Hn.
  - rewrite Hu. unfold download_thumbnail, bind, request. rewrite Hget. simpl.
    now destruct (status =? 200)%Z.
Qed.

(** The upload and what follows it, after the thumbnail stage. *)
Lemma resolve_after_thumbnail w sg slug url body tevs thumb st :
  s_slug sg = Some slug ->
  Dict.get slug (file_id_storage st) = None ->
  s_file sg = Some url ->
  metadata_error sg = None ->
  http_get w (trace st) url = Response 200%Z body ->
  thumbnail_stage w (trace st ++ [EvMedia url]) sg tevs thumb ->
  get_telegram_file_id w sg st =
  match send_audio w (trace st ++ EvMedia url :: tevs) (upload_request sg slug body thumb) with
  | Fails e =>
      (Raise e, logs (EvMedia url :: tevs ++ [EvSendAudio (upload_request sg slug body thumb)]) st)
  | Response _ {| message_audio := None |} =>
      (Raise AttributeError,
       logs (EvMedia url :: tevs ++ [EvSendAudio (upload_request sg slug body thumb)]) st)
  | Response _ {| message_audio := Some fid |} =>
      (Ok (Some fid),
       snd (store_file_id slug fid
              (logs (EvMedia url :: tevs ++ [EvSendAudio (upload_request sg slug body thumb)])
                    st)))
  end.
Proof.
  intros Hs Hg Hf Hmeta Hh Hstage.
  rewrite (resolve_slow w sg slug url st Hs Hg Hf Hmeta), Hh. simpl.
  rewrite (bind_ok _ _ _ _ _ (thumbnail_stage_run w sg (log (EvMedia url) st) tevs thumb Hstage)).
  unfold bind at 1. unfold request at 1.
  destruct (logs_frame tevs (log (EvMedia url) st)) as (_ & _ & _ & _ & Htr).
  rewrite Htr. simpl. rewrite <- app_assoc. simpl.
  rewrite logs_app.
  destruct (send_audio w (trace st ++ EvMedia url :: tevs) (upload_request sg slug body thumb))
    as [e|status [[fid|]]]; reflexivity.
Qed.

(** One resolution, case by case: what it returns, what it sends and what
    it writes. *)
Lemma resolve_cases w sg st :
  let r := fst (get_telegram_file_id w sg st) in
  let st' := snd (get_telegram_file_id w sg st) in
  query_cache st' = query_cache st /\
  clock_reads st' = clock_reads st /\
  exists evs, trace st' = trace st ++ evs /\ resolver_events evs = true /\
  ((file_id_storage st' = file_id_storage st /\ disk st' = disk st /\
    (forall tok, r = Ok (Some tok) ->
       evs = [] /\ exists slug, s_slug sg = Some slug /\
                                Dict.get slug (file_id_storage st) = Some tok))
   \/ (exists slug tok,
         s_slug sg = Some slug /\ Dict.get slug (file_id_storage st) = None /\
         r = Ok (Some tok) /\
         file_id_storage st' = Dict.set slug tok (file_id_storage st) /\
         disk st' = Some (Json.dumps (file_id_storage st')))).
Proof.
  unfold get_telegram_file_id. unfold_m.
  destruct (s_slug sg) as [slug|] eqn:Hslug; simpl.
  2:{ resolve_sent_nothing. }
  destruct (Dict.get slug (file_id_storage st)) as [tok|] eqn:Hget; simpl.
  { do 2 (split; [reflexivity|]). exists []. rewrite app_nil_r.
    split; [reflexivity|]. split; [reflexivity|]. left. do 2 (split; [reflexivity|]).
    intros t [= <-]. eauto. }
  destruct (s_file sg) as [url|] eqn:Hfile; simpl.
  2:{ resolve_sent_nothing. }
  pose proof (author_names_frame (get_default (s_authors sg) []) st) as Hn.
  destruct (author_names _ st) as [[ns| |] st1]; simpl in Hn; subst st1.
  2,3: resolve_sent_nothing.
  repeat (case_inner; unfold_m; simpl);
  first [ resolve_sent_nothing
        | do 2 (split; [reflexivity|]); eexists; split; [trace_eq|]; split; [reflexivity|];
          right; do 2 eexists; repeat split; eassumption || reflexivity ].
Qed.

(** The state a resolution leaves is the one a step of the bulk ingestion
    leaves. *)
Lemma store_again slug tok st :
  file_id_storage st = Dict.set slug tok (file_id_storage st) ->
  disk st = Some (Json.dumps (file_id_storage st)) ->
  snd (store_file_id slug tok st) = st.
Proof.
  intros Hs Hd. unfold store_file_id. unfold_m. simpl.
  destruct st as [d f c tr n]. simpl in *. unfold set_disk, set_file_id_storage. simpl.
  rewrite <- Hs. now rewrite <- Hd.
Qed.

(** ** The listing *)

Lemma following_truthy nxt url :
  following nxt = Some url -> nxt = Some url /\ PyStr.truthy url = true.
Proof.
  destruct nxt as [u|]; simpl; [|discriminate].
  destruct (PyStr.truthy u) eqn:E; [|discriminate]. intros [= <-]. now split.
Qed.

Lemma fetch_pages_done w fuel nxt acc st :
  following nxt = None -> fetch_pages w fuel nxt acc st = (Ok acc, st).
Proof.
  intros H. destruct fuel; (destruct nxt as [u|]; simpl in *; [|reflexivity]);
    (destruct (PyStr.truthy u); [discriminate | reflexivity]).
Qed.

(** One page that is served, and the rest of the walk. *)
Lemma fetch_pages_page w fuel nxt url found nxt' acc st :
  following nxt = Some url ->
  catalog_get w (trace st) url
  = Response 200%Z (Some {| results := Some found; next := nxt' |}) ->
  fetch_pages w (S fuel) nxt acc st
  = fetch_pages w fuel nxt' (acc ++ found) (log (EvPage url) st).
Proof.
  intros Hn Hget. destruct (following_truthy _ _ Hn) as [-> Ht].
  simpl. rewrite Ht. unfold bind at 1. unfold request. now rewrite Hget.
Qed.

Lemma fetch_pages_listing w tr nxt songs evs :
  listing w tr nxt songs evs ->
  forall st fuel acc,
    trace st = tr -> length evs <= fuel ->
    fetch_pages w fuel nxt acc st = (Ok (acc ++ songs), logs evs st).
Proof.
  induction 1 as [tr nxt Hn | tr nxt url status body Hn Hget Hne
                 | tr nxt url found nxt' songs evs Hn Hget _ IH];
    intros st fuel acc Htr Hfuel.
  - rewrite app_nil_r. now apply fetch_pages_done.
  - destruct (following_truthy _ _ Hn) as [-> Ht].
    destruct fuel as [|fuel]; [simpl in Hfuel; lia|].
    simpl. rewrite Ht. unfold bind, request. rewrite Htr, Hget. simpl.
    apply Z.eqb_neq in Hne. rewrite Hne. now rewrite app_nil_r.
  - destruct fuel as [|fuel]; [simpl in Hfuel; lia|].
    rewrite <- Htr in Hget.
    rewrite (fetch_pages_page w fuel nxt url found nxt' acc st Hn Hget).
    rewrite (IH (log (EvPage url) st) fuel (acc ++ found)).
    + now rewrite app_assoc.
    + simpl. now rewrite Htr.
    + simpl in Hfuel. lia.
Qed.

Lemma fetch_pages_raises w tr nxt e evs :
  listing_raises w tr nxt e evs ->
  forall st fuel acc,
    trace st = tr -> length evs <= fuel ->
    fetch_pages w fuel nxt acc st = (Raise e, logs evs st).
Proof.
  induction 1 as [tr nxt url e Hn Herr | tr nxt url found nxt' e evs Hn Hget _ IH];
    intros st fuel acc Htr Hfuel.
  - destruct (following_truthy _ _ Hn) as [-> Ht].
    destruct fuel as [|fuel]; [simpl in Hfuel; lia|].
    simpl. rewrite Ht. unfold bind, request. rewrite Htr.
    unfold page_error in Herr.
    destruct (catalog_get w tr url) as [e'|status body].
    { now injection Herr as <-. }
    simpl. destruct (status =? 200)%Z; [|discriminate].
    destruct body as [pg|]; simpl.
    + destruct (results pg); [discriminate|]. now injection Herr as <-.
    + now injection Herr as <-.
  - destruct fuel as [|fuel]; [simpl in Hfuel; lia|].
    rewrite <- Htr in Hget.
    rewrite (fetch_pages_page w fuel nxt url found nxt' acc st Hn Hget).
    apply IH; [simpl; now rewrite Htr | simpl in Hfuel; lia].
Qed.

Lemma fetch_pages_endless w :
  always_next w ->
  forall fuel nxt url acc st,
    following nxt = Some url ->
    fst (fetch_pages w fuel nxt acc st) = OutOfFuel /\
    length (trace (snd (fetch_pages w fuel nxt acc st))) = length (trace st) + fuel.
Proof.
  intros Hw. induction fuel as [|fuel IH]; intros nxt url acc st Hn.
  - destruct (following_truthy _ _ Hn) as [-> Ht]. simpl. rewrite Ht. simpl. split; [reflexivity | lia].
  - destruct (Hw (trace st) url) as (found & nxt' & Hget & Ht').
    rewrite (fetch_pages_page w fuel nxt url found (Some nxt') acc st Hn Hget).
    destruct (IH (Some nxt') nxt' (acc ++ found) (log (EvPage url) st)) as [Hr Hl].
    { simpl. now rewrite Ht'. }
    split; [exact Hr|]. rewrite Hl. simpl. rewrite length_app. simpl. lia.
Qed.

(** ** Computations that stay away from the inline queries *)

Lemma no_query_effect_bind {A B} (m : M A) (k : A -> M B) :
  no_query_effect m -> (forall a, no_query_effect (k a)) -> no_query_effect (bind m k).
Proof.
  intros Hm Hk st. unfold bind. specialize (Hm st).
  destruct (m st) as [[a|e|] st1]; simpl in *; try exact Hm.
  destruct Hm as (Hc & Hn & evs & Ht & Ha & Hs).
  destruct (Hk a st1) as (Hc' & Hn' & evs' & Ht' & Ha' & Hs').
  split; [congruence|]. split; [congruence|].
  exists (evs ++ evs'). rewrite Ht', Ht, app_assoc.
  split; [reflexivity|]. unfold answers, searches in *.
  rewrite !flat_map_app, Ha, Ha', Hs, Hs'. now split.
Qed.

Lemma no_query_effect_pure {A} (m : M A) :
  (forall st, snd (m st) = st) -> no_query_effect m.
Proof.
  intros H st. rewrite H. do 2 (split; [reflexivity|]).
  exists []. now rewrite app_nil_r.
Qed.

Lemma no_query_effect_request {B} ev (oracle : list event -> reply B) :
  answers [ev] = [] -> searches [ev] = [] -> no_query_effect (request ev oracle).
Proof.
  intros Ha Hs st. unfold request.
  destruct (oracle (trace st)); simpl; (do 2 (split; [reflexivity|])); exists [ev]; auto.
Qed.

Lemma resolver_events_quiet evs :
  resolver_events evs = true -> answers evs = [] /\ searches evs = [].
Proof.
  destruct evs as [|[] [|[] [|[] [|]]]]; simpl; try discriminate; now split.
Qed.

Lemma no_query_effect_resolve w sg : no_query_effect (get_telegram_file_id w sg).
Proof.
  intros st. destruct (resolve_cases w sg st) as (Hc & Hn & evs & Ht & He & _).
  do 2 (split; [assumption|]). exists evs. split; [assumption|].
  now apply resolver_events_quiet.
Qed.

Lemma no_query_effect_store slug tok : no_query_effect (store_file_id slug tok).
Proof.
  intros st. unfold store_file_id. unfold_m. simpl.
  do 2 (split; [reflexivity|]). exists []. now rewrite app_nil_r.
Qed.

Lemma no_query_effect_fetch_pages w fuel :
  forall nxt acc, no_query_effect (fetch_pages w fuel nxt acc).
Proof.
  induction fuel as [|fuel IH]; intros nxt acc; simpl.
  - destruct nxt as [u|]; [destruct (PyStr.truthy u)|]; now apply no_query_effect_pure.
  - destruct nxt as [u|]; [destruct (PyStr.truthy u)|]; try now apply no_query_effect_pure.
    apply no_query_effect_bind; [now apply no_query_effect_request|].
    intros r. destruct (fst r =? 200)%Z; [|now apply no_query_effect_pure].
    apply no_query_effect_bind.
    { destruct (snd r); now apply no_query_effect_pure. }
    intros pg. apply no_query_effect_bind; [|intros found; apply IH].
    destruct (results pg); now apply no_query_effect_pure.
Qed.

Lemma no_query_effect_upload_step w sg : no_query_effect (upload_step w sg).
Proof.
  unfold upload_step.
  apply no_query_effect_bind.
  { destruct (s_slug sg); now apply no_query_effect_pure. }
  intros slug. apply no_query_effect_bind; [now apply no_query_effect_pure|].
  intros d. destruct (Dict.mem slug d); [now apply no_query_effect_pure|].
  apply no_query_effect_bind; [apply no_query_effect_resolve|].
  intros [fid|]; [|now apply no_query_effect_pure].
  destruct (PyStr.truthy fid); [apply no_query_effect_store | now apply no_query_effect_pure].
Qed.

Lemma no_query_effect_upload_loop w songs : no_query_effect (upload_loop w songs).
Proof.
  induction songs as [|sg songs IH]; simpl; [now apply no_query_effect_pure|].
  apply no_query_effect_bind; [apply no_query_effect_upload_step | intros _; exact IH].
Qed.

Lemma upload_songs_frame w fuel : no_query_effect (upload_songs w fuel).
Proof.
  unfold upload_songs. apply no_query_effect_bind.
  - apply no_query_effect_fetch_pages.
  - intros [|sg songs]; [now apply no_query_effect_pure|].
    apply no_query_effect_bind; [apply no_query_effect_upload_loop|].
    intros _. now apply no_query_effect_pure.
Qed.

(** The loop of the bulk ingestion stops at the first step that raises. *)
Lemma upload_loop_stops w pre :
  forall st st_mid bad post e st_bad,
    upload_loop w pre st = (Ok tt, st_mid) ->
    upload_step w bad st_mid = (Raise e, st_bad) ->
    upload_loop w (pre ++ bad :: post) st = (Raise e, st_bad).
Proof.
  induction pre as [|sg pre IH]; intros st st_mid bad post e st_bad Hpre Hbad; simpl in *.
  - injection Hpre as <-. now rewrite (bind_raise _ _ _ _ _ Hbad).
  - unfold bind in Hpre |- *.
    destruct (upload_step w sg st) as [[[]|e'|] st1]; try discriminate.
    now apply (IH st1 st_mid).
Qed.

(** ** The inline query, beyond the claims *)

Lemma extends_trace_bind {A B} (m : M A) (k : A -> M B) :
  extends_trace m -> (forall a, extends_trace (k a)) -> extends_trace (bind m k).
Proof.
  intros Hm Hk st. unfold bind. destruct (Hm st) as [evs Ht].
  destruct (m st) as [[a|e|] st1]; simpl in *; eauto.
  destruct (Hk a st1) as [evs' Ht']. exists (evs ++ evs').
  now rewrite Ht', Ht, app_assoc.
Qed.

Lemma extends_trace_same {A} (m : M A) :
  (forall st, trace (snd (m st)) = trace st) -> extends_trace m.
Proof. intros H st. exists []. now rewrite H, app_nil_r. Qed.

Lemma extends_trace_resolve w sg : extends_trace (get_telegram_file_id w sg).
Proof.
  intros st. destruct (resolve_cases w sg st) as (_ & _ & evs & Ht & _). eauto.
Qed.

Lemma extends_trace_inline_loop w songs : forall rs, extends_trace (inline_loop w songs rs).
Proof.
  induction songs as [|sg songs IH]; intros rs; simpl.
  - now apply extends_trace_same.
  - apply extends_trace_bind; [|intros rs'; apply IH].
    intros st. destruct (inline_step_cases w sg rs st) as (r & -> & _). simpl.
    apply extends_trace_resolve.
Qed.

Lemma extends_trace_answer w qid rs : extends_trace (answer w qid rs).
Proof.
  intros st. unfold answer. exists [EvAnswer qid rs 1].
  now destruct (answer_inline_query w (trace st) qid rs).
Qed.

(** A query that misses the cache sends the search first. *)
Lemma inline_query_miss_trace w qid text st st0 :
  cache_contains w (PyStr.strip text) st = (Ok false, st0) ->
  exists evs,
    trace (snd (inline_query w qid text st))
    = trace st
      ++ EvSearch (API_BASE_URL ++ "?search=" ++ PyStr.strip text ++ "&page_size=5")%string
      :: evs.
Proof.
  intros Hmiss. unfold inline_query. rewrite (bind_ok _ _ _ _ _ Hmiss).
  destruct (cache_contains_false w _ _ _ Hmiss) as (_ & _ & _ & Htr). rewrite <- Htr.
  rewrite !bind_assoc.
  pose proof (fetch_songs_from_api_frame w (PyStr.strip text) st0) as Hfr. simpl in Hfr.
  unfold bind at 1.
  destruct (fetch_songs_from_api w (PyStr.strip text) st0) as [[pg|e|] st1]; simpl in Hfr;
    subst st1; try (exists []; reflexivity).
  match goal with
  | |- context [trace (snd (?m ?s))] =>
      assert (He : extends_trace m); [|destruct (He s) as [evs Hevs]]
  end.
  2:{ exists evs. rewrite Hevs. simpl. now rewrite <- app_assoc. }
  apply extends_trace_bind.
  - apply extends_trace_bind; [destruct (results pg); now apply extends_trace_same|].
    intros found. apply extends_trace_bind; [apply extends_trace_inline_loop|].
    intros rs. apply extends_trace_bind; [now apply extends_trace_same|].
    intros _. now apply extends_trace_same.
  - intros rs. apply extends_trace_answer.
Qed.

(** Resolutions stay away from the query cache and send no answer. *)
Lemma resolves_frame w songs st ts st2 :
  resolves w songs st ts st2 ->
  query_cache st2 = query_cache st /\
  exists evs, trace st2 = trace st ++ evs /\ answers evs = [] /\ searches evs = [].
Proof.
  induction 1 as [st | sg rest st t st1 ts st2 Hrun _ (Hc & evs & Ht & Ha & Hs)].
  - split; [reflexivity|]. exists []. now rewrite app_nil_r.
  - destruct (no_query_effect_resolve w sg st) as (Hc1 & _ & evs1 & Ht1 & Ha1 & Hs1).
    rewrite Hrun in Hc1, Ht1. simpl in Hc1, Ht1.
    split; [congruence|]. exists (evs1 ++ evs). rewrite Ht, Ht1, app_assoc.
    split; [reflexivity|]. unfold answers, searches in *.
    rewrite !flat_map_app, Ha, Ha1, Hs, Hs1. now split.
Qed.

Lemma inline_loop_app w pre : forall rest rs st,
  inline_loop w (pre ++ rest) rs st = bind (inline_loop w pre rs) (inline_loop w rest) st.
Proof.
  induction pre as [|sg pre IH]; intros rest rs st; simpl; [reflexivity|].
  rewrite bind_assoc.
  destruct (inline_step w sg rs st) as [[rs'|e|] st1] eqn:E.
  - rewrite !(bind_ok _ _ _ _ _ E). apply IH.
  - now rewrite !(bind_raise _ _ _ _ _ E).
  - now rewrite !(bind_out_of_fuel _ _ _ _ E).
Qed.



Lemma lstrip_all_space s : PyStr.all_space s = true -> PyStr.lstrip s = ""%string.
Proof.
  induction s as [|c s IH]; simpl; [reflexivity|].
  intros H. apply andb_true_iff in H as [Hc Hs]. rewrite Hc. auto.
Qed.

(** ** The capacity of the query cache *)

Lemma cache_remove_length {V} k (c : TTLCache.t V) :
  length (TTLCache.remove k c) <= length c.
Proof. apply filter_length_le. Qed.

Lemma cache_remove_found {V} k (c : TTLCache.t V) l :
  TTLCache.find k c = Some l -> length (TTLCache.remove k c) < length c.
Proof.
  unfold TTLCache.remove. induction c as [|x c IH]; simpl; [discriminate|].
  destruct (String.eqb k (TTLCache.key x)); simpl.
  - intros _. pose proof (filter_length_le (fun l => negb (String.eqb k (TTLCache.key l))) c). lia.
  - intros H. specialize (IH H). lia.
Qed.

Lemma cache_make_room_length {V} (c : TTLCache.t V) :
  length (TTLCache.make_room c) < TTLCache.maxsize.
Proof.
  induction c as [|x c IH]; [unfold TTLCache.maxsize; simpl; lia|].
  change (TTLCache.make_room (x :: c))
    with (if (TTLCache.maxsize <? length (x :: c) + 1)%nat then TTLCache.make_room c else x :: c).
  destruct (TTLCache.maxsize <? length (x :: c) + 1)%nat eqn:E; [exact IH|].
  apply Nat.ltb_ge in E. lia.
Qed.

(** [cache[k] = v] keeps the cache within its capacity. *)
Lemma cache_setitem_length {V} now k (v : V) (c : TTLCache.t V) :
  length c <= TTLCache.maxsize ->
  length (TTLCache.setitem now k v c) <= TTLCache.maxsize.
Proof.
  intros Hc. unfold TTLCache.setitem. rewrite length_app. simpl.
  assert (He : length (TTLCache.expire now c) <= length c) by apply filter_length_le.
  destruct (TTLCache.find k (TTLCache.expire now c)) as [l|] eqn:Hf.
  - pose proof (cache_remove_found k _ l Hf). lia.
  - pose proof (cache_make_room_length (TTLCache.expire now c)).
    pose proof (cache_remove_length k (TTLCache.make_room (TTLCache.expire now c))). lia.
Qed.

(** [cache[k]] does not make the cache grow. *)
Lemma cache_getitem_length {V} now k (c : TTLCache.t V) :
  length (snd (TTLCache.getitem now k c)) <= length c.
Proof.
  unfold TTLCache.getitem. destruct (TTLCache.find k c) as [l|] eqn:Hf; simpl; [|lia].
  pose proof (cache_remove_found k c l Hf).
  destruct (now <? TTLCache.expires l)%Z; simpl; rewrite length_app; simpl; lia.
Qed.

Lemma keeps_bound_bind {A B} (m : M A) (k : A -> M B) :
  keeps_bound m -> (forall a, keeps_bound (k a)) -> keeps_bound (bind m k).
Proof.
  intros Hm Hk st Hst. unfold bind. specialize (Hm st Hst).
  destruct (m st) as [[a|e|] st1]; simpl in *; auto. now apply Hk.
Qed.

Lemma keeps_bound_same {A} (m : M A) :
  (forall st, query_cache (snd (m st)) = query_cache st) -> keeps_bound m.
Proof. intros H st Hst. now rewrite H. Qed.

Lemma keeps_bound_no_query_effect {A} (m : M A) : no_query_effect m -> keeps_bound m.
Proof. intros H. apply keeps_bound_same. intros st. apply (H st). Qed.

Lemma keeps_bound_inline_loop w songs : forall rs, keeps_bound (inline_loop w songs rs).
Proof.
  induction songs as [|sg songs IH]; intros rs; simpl.
  - now apply keeps_bound_same.
  - apply keeps_bound_bind; [|intros rs'; apply IH].
    apply keeps_bound_same. intros st.
    destruct (inline_step_cases w sg rs st) as (r & -> & _). simpl.
    apply (resolve_cases w sg st).
Qed.

Lemma keeps_bound_inline_query w qid text : keeps_bound (inline_query w qid text).
Proof.
  unfold inline_query. apply keeps_bound_bind.
  { apply keeps_bound_same. intros st. rewrite cache_contains_cases.
    now destruct (TTLCache.find _ _). }
  intros hit. apply keeps_bound_bind.
  2:{ intros rs. apply keeps_bound_same. intros st. unfold answer.
      now destruct (answer_inline_query w (trace st) qid rs). }
  destruct hit.
  - intros st Hst. unfold cache_getitem. unfold_m.
    destruct (TTLCache.find (PyStr.strip text) (query_cache st)) as [l|]; simpl; [|exact Hst].
    pose proof (cache_getitem_length (now w st) (PyStr.strip text) (query_cache st)) as Hl.
    destruct (TTLCache.getitem (now w st) (PyStr.strip text) (query_cache st)) as [[v|] c'];
      simpl in *; lia.
  - apply keeps_bound_bind.
    { apply keeps_bound_same. intros st.
      now rewrite (fetch_songs_from_api_frame w (PyStr.strip text) st). }
    intros pg. apply keeps_bound_bind; [destruct (results pg); now apply keeps_bound_same|].
    intros found. apply keeps_bound_bind; [apply keeps_bound_inline_loop|].
    intros rs. apply keeps_bound_bind; [|intros _; now apply keeps_bound_same].
    intros st Hst. unfold cache_setitem. unfold_m. simpl.
    now apply cache_setitem_length.
Qed.

(** ** More on the resolver and the two loops *)

(** The resolver returns [None] only after a media fetch that was answered
    with a status other than 200. *)
Lemma resolve_none_inv w sg st st' :
  get_telegram_file_id w sg st = (Ok None, st') ->
  exists slug url status body,
    s_slug sg = Some slug /\ Dict.get slug (file_id_storage st) = None /\
    s_file sg = Some url /\
    http_get w (trace st) url = Response status body /\ status <> 200%Z /\
    st' = log (EvMedia url) st.
Proof.
  unfold get_telegram_file_id. unfold_m.
  destruct (s_slug sg) as [slug|] eqn:Hslug; simpl; [|discriminate].
  destruct (Dict.get slug (file_id_storage st)) as [tok|] eqn:Hget; simpl; [discriminate|].
  destruct (s_file sg) as [url|] eqn:Hfile; simpl; [|discriminate].
  pose proof (author_names_frame (get_default (s_authors sg) []) st) as Hn.
  destruct (author_names _ st) as [[ns| |] st1]; simpl in Hn; subst st1; try discriminate.
  destruct (s_album sg); simpl; try discriminate;
    (destruct (http_get w (trace st) url) as [e|status body] eqn:Hh; simpl; [discriminate|];
     destruct (status =? 200)%Z eqn:E; simpl;
     [ repeat (case_inner; unfold_m; simpl); discriminate
     | intros [= <-]; apply Z.eqb_neq in E; exists slug, url, status, body; auto 10 ]).
Qed.

(** A step of the bulk ingestion for a song that has a token. *)
Lemma upload_step_known w sg st :
  known (file_id_storage st) sg = true -> upload_step w sg st = (Ok tt, st).
Proof.
  unfold known, token_of, upload_step. intros H.
  destruct (s_slug sg) as [slug|] eqn:Hs; [|discriminate].
  unfold_m. simpl. unfold Dict.mem.
  now destruct (Dict.get slug (file_id_storage st)).
Qed.

Lemma upload_loop_known w songs st :
  forallb (known (file_id_storage st)) songs = true -> upload_loop w songs st = (Ok tt, st).
Proof.
  induction songs as [|sg songs IH]; simpl; intros H; [reflexivity|].
  apply andb_true_iff in H as [Hsg Hrest].
  rewrite (bind_ok _ _ _ _ _ (upload_step_known w sg st Hsg)). auto.
Qed.

(** When the media storage serves every file and the platform accepts
    every upload, a step of the bulk ingestion leaves the song with a
    token. *)
Lemma upload_step_completes w sg st :
  media_always_served w -> uploads_accepted w -> well_formed sg = true ->
  exists st2,
    upload_step w sg st = (Ok tt, st2) /\ known (file_id_storage st2) sg = true.
Proof.
  intros Hm Hu Hwf.
  destruct (well_formed_inv sg Hwf) as (slug & url & al & Hs & Hf & _ & _).
  assert (Hserved : media_served w).
  { intros tr u. destruct (Hm tr u) as [body Hb]. eauto. }
  unfold known, token_of. rewrite Hs.
  destruct (Dict.get slug (file_id_storage st)) as [tok|] eqn:Hg.
  { exists st. rewrite Hg. split; [|reflexivity].
    apply upload_step_known. unfold known, token_of. now rewrite Hs, Hg. }
  destruct (resolve_polite w sg st Hserved Hu Hwf) as (t & st1 & evs & Hrun & _).
  destruct t as [fid|].
  2:{ destruct (resolve_none_inv w sg st st1 Hrun)
        as (s & u & status & body & _ & _ & _ & Hh & Hne & _).
      destruct (Hm (trace st) u) as [body' Hb]. congruence. }
  destruct (resolve_token_stored w sg st fid st1 Hrun) as (s & Hs' & Hg1).
  rewrite Hs in Hs'. injection Hs' as <-.
  unfold upload_step.
  rewrite (bind_ok _ _ st slug st) by (now rewrite Hs).
  rewrite (bind_ok _ _ st (file_id_storage st) st) by reflexivity.
  unfold Dict.mem. rewrite Hg. rewrite (bind_ok _ _ _ _ _ Hrun).
  destruct (PyStr.truthy fid).
  - eexists. split; [reflexivity|]. unfold store_file_id. unfold_m. simpl.
    now rewrite DictFacts.get_set_same.
  - exists st1. split; [reflexivity|]. now rewrite Hg1.
Qed.

Lemma known_evolves st st' sg :
  evolves st st' -> known (file_id_storage st) sg = true ->
  known (file_id_storage st') sg = true.
Proof.
  unfold known, token_of. intros He H.
  destruct (s_slug sg) as [slug|]; [|discriminate].
  destruct (Dict.get slug (file_id_storage st)) as [tok|] eqn:Hg; [|discriminate].
  now rewrite (evolves_keeps _ _ He slug tok Hg).
Qed.

Lemma upload_loop_completes w songs :
  media_always_served w -> uploads_accepted w -> forallb well_formed songs = true ->
  forall st, exists st2,
    upload_loop w songs st = (Ok tt, st2) /\
    forallb (known (file_id_storage st2)) songs = true.
Proof.
  intros Hm Hu. induction songs as [|sg songs IH]; simpl; intros Hwf st.
  - exists st. now split.
  - apply andb_true_iff in Hwf as [Hsg Hrest].
    destruct (upload_step_completes w sg st Hm Hu Hsg) as (st1 & Hstep & Hk).
    destruct (IH Hrest st1) as (st2 & Hloop & Hall).
    exists st2. rewrite (bind_ok _ _ _ _ _ Hstep). split; [exact Hloop|].
    rewrite Hall, andb_true_r.
    apply (known_evolves st1 st2); [|exact Hk].
    pose proof (upload_loop_evolves w songs st1) as He. now rewrite Hloop in He.
Qed.

(** The entries that the loop of the inline query gathers name songs of
    the search and carry the token that the store holds. *)
Lemma inline_loop_stored w found :
  forall rs0 st rs st2,
    inline_loop w found rs0 st = (Ok rs, st2) ->
    Forall (fun e => Dict.get (id e) (file_id_storage st) = Some (audio_file_id e)) rs0 ->
    exists added,
      rs = rs0 ++ added /\ length added <= length found /\
      Forall (fun e => In (id e) (slugs found)) added /\
      Forall (fun e => Dict.get (id e) (file_id_storage st2) = Some (audio_file_id e)) rs.
Proof.
  induction found as [|sg found IH]; simpl; intros rs0 st rs st2 Hrun Hinv.
  - injection Hrun as <- <-. exists []. rewrite app_nil_r. repeat split; auto.
  - unfold bind in Hrun.
    destruct (inline_step_cases w sg rs0 st) as (r & Hstep & Hr).
    rewrite Hstep in Hrun. destruct r as [rs1|e|]; try discriminate.
    pose proof (resolve_evolves w sg st) as Hev.
    set (st1 := snd (get_telegram_file_id w sg st)) in *.
    assert (Hinv0 : Forall (fun e => Dict.get (id e) (file_id_storage st1)
                                     = Some (audio_file_id e)) rs0).
    { eapply Forall_impl; [|exact Hinv]. intros e He. exact (evolves_keeps _ _ Hev _ _ He). }
    destruct (Hr rs1 eq_refl) as [-> | (slug & fid & al & Hs & Hfid & ->)].
    + destruct (IH rs0 st1 rs st2 Hrun Hinv0) as (added & -> & Hlen & Hin & Hst).
      exists added. repeat split; auto.
      eapply Forall_impl; [|exact Hin]. intros e He. unfold slugs in *. simpl.
      apply in_or_app. now right.
    + assert (Hg : Dict.get slug (file_id_storage st1) = Some fid).
      { destruct (resolve_token_stored w sg st fid st1) as (s & Hs' & Hg).
        - subst st1. rewrite <- Hfid. now destruct (get_telegram_file_id w sg st).
        - congruence. }
      destruct (IH _ st1 rs st2 Hrun) as (added & -> & Hlen & Hin & Hst).
      { apply Forall_app. split; [exact Hinv0|]. constructor; [exact Hg | constructor]. }
      eexists (_ :: added). rewrite <- app_assoc in Hst |- *. split; [reflexivity|].
      split; [simpl; lia|]. split; [|exact Hst].
      unfold slugs in *. simpl. rewrite Hs. constructor; [simpl; now left|].
      eapply Forall_impl; [|exact Hin]. intros e He. simpl. now right.
Qed.


(** ** The cycles of the bulk ingestion *)














(* ================================================================== *)
(** * The claims *)
(* ================================================================== *)

(** C1.  A song whose slug already has a token in the store: the resolver
    returns the stored token and the state is the one it started from, so
    nothing was sent (no media fetch, no thumbnail fetch, no upload). *)
Theorem resolve_fast_path w sg slug tok st :
  s_slug sg = Some slug ->
  Dict.get slug (file_id_storage st) = Some tok ->
  get_telegram_file_id w sg st = (Ok (Some tok), st)
  /\ trace (snd (get_telegram_file_id w sg st)) = trace st.
Proof.
  intros Hs Hg. rewrite (resolve_hit w sg slug tok st Hs Hg). now split.
Qed.



(** C4 (amended).  A missing file is an empty store; a file the program
    wrote is read back as the mapping it was written from; a file that is
    not JSON makes the load, and with it the start of the process, raise
    [JSONDecodeError]: only [FileNotFoundError] is caught.  A file that
    holds another JSON value is not an empty store either: the load
    returns that value, and the process starts with it as its store. *)
Theorem load_file_ids_missing_or_unparseable d text other v :
  NoDup (Dict.keys d) ->
  Json.loads text = Json.Invalid ->
  Json.loads other = Json.Parsed v "" ->
  Json.mapping v = None ->
  load_file_ids None = Ok (Store Dict.empty)
  /\ load_file_ids (Some (Json.dumps d)) = Ok (Store d)
  /\ load_file_ids (Some text) = Raise JSONDecodeError
  /\ startup (Some text) = Raise JSONDecodeError
  /\ load_file_ids (Some other) = Ok (Foreign v)
  /\ startup (Some other) = Ok None.
Proof.
  intros Hd Ht Ho Hm. unfold startup, load_file_ids.
  destruct (JsonFacts.loads_dumps d Hd) as [-> ->]. rewrite Ht, Ho, Hm. auto 10.
Qed.



(** C7.  After an inline query that returned, a second call whose two
    readings of the clock come before the entry of the query expires, for
    the same text or one that differs only by the white space around it,
    answers with the same list, sends nothing else (no search, no media
    fetch, no upload) and leaves the store and the file as they are. *)
Theorem repeated_query_served_from_cache w qid1 qid2 text text2 st0 st1 :
  inline_query w qid1 text st0 = (Ok tt, st1) ->
  PyStr.strip text2 = PyStr.strip text ->
  (forall l, TTLCache.find (PyStr.strip text) (query_cache st1) = Some l ->
             (now w st1 < TTLCache.expires l)%Z /\
             (now w (tick st1) < TTLCache.expires l)%Z) ->
  exists tr rs,
    trace st1 = tr ++ [EvAnswer qid1 rs 1] /\
    trace (snd (inline_query w qid2 text2 st1)) = trace st1 ++ [EvAnswer qid2 rs 1] /\
    file_id_storage (snd (inline_query w qid2 text2 st1)) = file_id_storage st1 /\
    disk (snd (inline_query w qid2 text2 st1)) = disk st1.
Proof.
  intros Hfirst Hsame Httl.
  destruct (inline_query_returns w qid1 text st0 st1 Hfirst) as (rs & l & st' & -> & Hf & Hv).
  simpl in Httl. destruct (Httl l Hf) as [H1 H2].
  exists (trace st'), rs. split; [reflexivity|].
  rewrite <- Hsame in Hf.
  destruct (inline_query_hit_state w qid2 text2 (log (EvAnswer qid1 rs 1) st') l Hf H1 H2)
    as (Ht & _ & _ & Hs & Hd).
  rewrite Hv in Ht. auto.
Qed.

(** C8.  From the state a process starts in, after any sequence of
    operations that ends with a put, the file is the dump of the mapping,
    it holds the token just put, and the load of a fresh process reads
    exactly the mapping back from it; the same agreement holds after any
    sequence of operations at all. *)
Theorem persisted_store_round_trip w file st0 ops ops' slug tok :
  startup file = Ok (Some st0) ->
  (let st := run w (ops ++ [Put slug tok]) st0 in
   disk st = Some (Json.dumps (file_id_storage st))
   /\ Dict.get slug (file_id_storage st) = Some tok
   /\ load_file_ids (disk st) = Ok (Store (file_id_storage st)))
  /\ load_file_ids (disk (run w ops' st0)) = Ok (Store (file_id_storage (run w ops' st0))).
Proof.
  intros Hst. pose proof (startup_synced file st0 Hst) as Hsy.
  split; [|apply (run_synced w ops' st0 Hsy)].
  cbv zeta. unfold run. rewrite fold_left_app. simpl.
  fold (run w ops st0).
  pose proof (run_synced w ops st0 Hsy) as [Hd _].
  split; [reflexivity|]. split; [apply DictFacts.get_set_same|].
  apply (put_synced slug tok) ; now apply run_synced.
Qed.

(** C9.  Write once: along any sequence of operations of the services
    (inline queries, bulk ingestion runs and their steps, resolutions), a
    token that is in the store stays there unchanged, and the store keeps
    at most one entry per slug. *)
Theorem token_store_write_once w ops st slug tok :
  forallb service_op ops = true ->
  NoDup (Dict.keys (file_id_storage st)) ->
  Dict.get slug (file_id_storage st) = Some tok ->
  Dict.get slug (file_id_storage (run w ops st)) = Some tok
  /\ NoDup (Dict.keys (file_id_storage (run w ops st))).
Proof.
  intros Hops Hd Hg. pose proof (run_evolves w ops st Hops) as He. split.
  - exact (evolves_keeps _ _ He slug tok Hg).
  - exact (evolves_NoDup _ _ He Hd).
Qed.



(* ================================================================== *)
(** * Concrete runs *)
(* ================================================================== *)



Lemma resolve_fast_path_witness :
  get_telegram_file_id (Demo.world_of []) Demo.song_abc Demo.warm
  = (Ok (Some "tok123"), Demo.warm)
  /\ trace (snd (get_telegram_file_id (Demo.world_of []) Demo.song_abc Demo.warm))
     = trace Demo.warm.
Proof.
  apply (resolve_fast_path (Demo.world_of []) Demo.song_abc "abc" "tok123" Demo.warm);
    reflexivity.
Defined.




(** C4, as stated, fails: a file cut short while it was being written is
    not treated as an empty store, the load raises. *)
Lemma load_file_ids_corrupt_raises :
  Demo.truncated = String "{" (String Json.dquote "abc" ++ String Json.dquote ": " ++ String Json.dquote "t")
  /\ load_file_ids (Some Demo.truncated) = Raise JSONDecodeError
  /\ startup (Some Demo.truncated) = Raise JSONDecodeError
  /\ startup (Some "") = Raise JSONDecodeError.
Proof. repeat split. Qed.

Lemma load_file_ids_missing_or_unparseable_witness :
  load_file_ids None = Ok (Store Dict.empty)
  /\ load_file_ids (Some (Json.dumps [("abc", "tok123")])) = Ok (Store [("abc", "tok123")])
  /\ load_file_ids (Some Demo.truncated) = Raise JSONDecodeError
  /\ startup (Some Demo.truncated) = Raise JSONDecodeError
  /\ load_file_ids (Some "[]") = Ok (Foreign (Json.Array []))
  /\ startup (Some "[]") = Ok None.
Proof.
  apply (load_file_ids_missing_or_unparseable
           [("abc", "tok123")] Demo.truncated "[]" (Json.Array [])).
  - repeat constructor; simpl; tauto.
  - reflexivity.
  - reflexivity.
  - reflexivity.
Defined.







Lemma repeated_query_served_from_cache_witness :
  exists tr rs,
    trace Demo.answered = tr ++ [EvAnswer "q1" rs 1]
    /\ trace (snd (inline_query (Demo.world_of [Demo.song_abc]) "q2" " blue" Demo.answered))
       = trace Demo.answered ++ [EvAnswer "q2" rs 1]
    /\ file_id_storage (snd (inline_query (Demo.world_of [Demo.song_abc]) "q2" " blue"
                               Demo.answered))
       = file_id_storage Demo.answered
    /\ disk (snd (inline_query (Demo.world_of [Demo.song_abc]) "q2" " blue" Demo.answered))
       = disk Demo.answered.
Proof.
  apply (repeated_query_served_from_cache
           (Demo.world_of [Demo.song_abc]) "q1" "q2" "blue" " blue" Demo.fresh Demo.answered).
  - reflexivity.
  - reflexivity.
  - intros l H. vm_compute in H. injection H as <-. split; reflexivity.
Defined.

Lemma persisted_store_round_trip_witness :
  (let st := run (Demo.world_of [Demo.song_abc]) ([Inline "q1" "blue"] ++ [Put "zzz" "tok9"])
                 Demo.warm in
   disk st = Some (Json.dumps (file_id_storage st))
   /\ Dict.get "zzz" (file_id_storage st) = Some "tok9"
   /\ load_file_ids (disk st) = Ok (Store (file_id_storage st)))
  /\ load_file_ids (disk (run (Demo.world_of [Demo.song_abc]) [Upload 2] Demo.warm))
     = Ok (Store (file_id_storage (run (Demo.world_of [Demo.song_abc]) [Upload 2] Demo.warm))).
Proof.
  apply (persisted_store_round_trip
           (Demo.world_of [Demo.song_abc]) (disk Demo.warm) Demo.warm
           [Inline "q1" "blue"] [Upload 2] "zzz" "tok9").
  reflexivity.
Defined.

Lemma token_store_write_once_witness :
  Dict.get "abc"
    (file_id_storage
       (run (Demo.world_of [Demo.song_gone; Demo.song_abc])
            [Inline "q1" " blue "; Upload 3; Ingest Demo.song_gone; Resolve Demo.song_abc]
            Demo.warm))
  = Some "tok123"
  /\ NoDup (Dict.keys
              (file_id_storage
                 (run (Demo.world_of [Demo.song_gone; Demo.song_abc])
                      [Inline "q1" " blue "; Upload 3; Ingest Demo.song_gone;
                       Resolve Demo.song_abc]
                      Demo.warm))).
Proof.
  apply (token_store_write_once
           (Demo.world_of [Demo.song_gone; Demo.song_abc])
           [Inline "q1" " blue "; Upload 3; Ingest Demo.song_gone; Resolve Demo.song_abc]
           Demo.warm "abc" "tok123").
  - reflexivity.
  - repeat constructor; simpl; tauto.
  - reflexivity.
Defined.



(** The scenario of the specification: the search for [blue] returns one
    song, the resolver uploads it and gets the token [tok123]; the answer
    is the one entry of the song, and a second call within the time to
    live answers with the same list without fetching or uploading again. *)
Example scenario_blue :
  let w := Demo.world_of [Demo.song_abc] in
  let entry_abc := {| id := "abc"; audio_file_id := "tok123";
                      caption := "https://next.akarpov.ru/music/albums/al1#abc" |} in
  trace Demo.answered
  = [EvSearch "https://new.akarpov.ru/api/v1/music/song/?search=blue&page_size=5";
     EvMedia "http://x/a.mp3";
     EvSendAudio {| chat_id := "868474142"; audio_name := "abc.mp3"; audio := "mp3-bytes";
                    duration := 0; performer := "Art"; title := "Blue";
                    audio_caption := "https://next.akarpov.ru/music/albums/al1#abc";
                    thumbnail := None |};
     EvAnswer "q1" [entry_abc] 1]
  /\ trace (snd (inline_query w "q2" " blue" Demo.answered))
     = trace Demo.answered ++ [EvAnswer "q2" [entry_abc] 1].
Proof. split; reflexivity. Qed.

(* ================================================================== *)
(** * Properties beyond the claims *)
(* ================================================================== *)

(** ** The token store *)

(** X1.  [store_file_id] overwrites: a second put for the same slug leaves
    the store, the file and everything else exactly as if only the second
    put had been made, and the slug then holds the second token.  Writing
    once is therefore a property of the callers, not of the store. *)
Theorem store_file_id_last_write_wins slug tok1 tok2 st :
  snd (store_file_id slug tok2 (snd (store_file_id slug tok1 st)))
  = snd (store_file_id slug tok2 st)
  /\ Dict.get slug
       (file_id_storage (snd (store_file_id slug tok2 (snd (store_file_id slug tok1 st)))))
     = Some tok2.
Proof.
  unfold store_file_id. unfold_m. simpl. unfold set_disk, set_file_id_storage. simpl.
  rewrite dict_set_set. split; [reflexivity | apply DictFacts.get_set_same].
Qed.

(** X2.  [store_file_id] touches one key: the token of every other slug is
    as before, the keys keep their order, with the slug added at the end
    when it is new, and neither the query cache nor the trace changes. *)
Theorem store_file_id_keeps_the_rest slug tok other st :
  other <> slug ->
  Dict.get other (file_id_storage (snd (store_file_id slug tok st)))
  = Dict.get other (file_id_storage st)
  /\ Dict.keys (file_id_storage (snd (store_file_id slug tok st)))
     = (if Dict.mem slug (file_id_storage st)
        then Dict.keys (file_id_storage st)
        else Dict.keys (file_id_storage st) ++ [slug])
  /\ query_cache (snd (store_file_id slug tok st)) = query_cache st
  /\ trace (snd (store_file_id slug tok st)) = trace st.
Proof.
  intros Hne. unfold store_file_id. unfold_m. simpl.
  split; [apply DictFacts.get_set_other; congruence|].
  split; [apply DictFacts.keys_set|]. now split.
Qed.

Lemma store_file_id_keeps_the_rest_witness :
  Dict.get "abc" (file_id_storage (snd (store_file_id "zzz" "tok9" Demo.warm)))
  = Dict.get "abc" (file_id_storage Demo.warm)
  /\ Dict.keys (file_id_storage (snd (store_file_id "zzz" "tok9" Demo.warm)))
     = (if Dict.mem "zzz" (file_id_storage Demo.warm)
        then Dict.keys (file_id_storage Demo.warm)
        else Dict.keys (file_id_storage Demo.warm) ++ ["zzz"])
  /\ query_cache (snd (store_file_id "zzz" "tok9" Demo.warm)) = query_cache Demo.warm
  /\ trace (snd (store_file_id "zzz" "tok9" Demo.warm)) = trace Demo.warm.
Proof.
  apply (store_file_id_keeps_the_rest "zzz" "tok9" "abc" Demo.warm). discriminate.
Defined.

(** ** The resolver *)

(** X3.  A record without the key [slug], and a record without a token
    whose metadata cannot be read (no [file], an author without [name], an
    album that is [null]), make the resolver raise before it sends
    anything: the state is the one it started from. *)
Theorem resolve_raises_before_any_request w sg st e :
  raises_before_request (file_id_storage st) sg = Some e ->
  get_telegram_file_id w sg st = (Raise e, st).
Proof.
  unfold raises_before_request, metadata_error, get_telegram_file_id. intros H.
  destruct (s_slug sg) as [slug|] eqn:Hs.
  2:{ injection H as <-. reflexivity. }
  rewrite (bind_ok _ _ st slug st) by reflexivity.
  rewrite (bind_ok _ _ st (file_id_storage st) st) by reflexivity.
  destruct (Dict.get slug (file_id_storage st)); [discriminate|].
  destruct (s_file sg) as [url|] eqn:Hf.
  2:{ injection H as <-. reflexivity. }
  rewrite (bind_ok _ _ st url st) by reflexivity.
  destruct (authors_named (get_default (s_authors sg) [])) eqn:Ha.
  - rewrite (bind_ok _ _ st _ st (author_names_of _ st Ha)).
    destruct (s_album sg); try discriminate. injection H as <-. reflexivity.
  - injection H as <-.
    now rewrite (bind_raise _ _ st _ st (author_names_unnamed _ st Ha)).
Qed.

Lemma resolve_raises_before_any_request_witness :
  get_telegram_file_id (Demo.world_of []) Tour.song_null_album Demo.fresh
  = (Raise AttributeError, Demo.fresh).
Proof.
  apply (resolve_raises_before_any_request
           (Demo.world_of []) Tour.song_null_album Demo.fresh AttributeError).
  reflexivity.
Defined.

(** X4.  The slow path, when it succeeds: for a song without a token whose
    media file is answered with the status 200, the resolver fetches the
    file, runs the thumbnail stage, uploads the file under the name
    [slug.mp3] with the duration (0 when missing), the names of the
    authors joined by a comma, the title ([Unknown Title] when missing) and
    the caption of the album page, and, when the platform returns an
    audio, leaves the state that [store_file_id] leaves for the token of
    that audio, which it returns. *)
Theorem resolve_uploads_and_stores w sg slug url body tevs thumb status fid st :
  s_slug sg = Some slug ->
  Dict.get slug (file_id_storage st) = None ->
  s_file sg = Some url ->
  metadata_error sg = None ->
  http_get w (trace st) url = Response 200%Z body ->
  thumbnail_stage w (trace st ++ [EvMedia url]) sg tevs thumb ->
  send_audio w (trace st ++ EvMedia url :: tevs) (upload_request sg slug body thumb)
  = Response status {| message_audio := Some fid |} ->
  get_telegram_file_id w sg st
  = (Ok (Some fid),
     snd (store_file_id slug fid
            (logs (EvMedia url :: tevs ++ [EvSendAudio (upload_request sg slug body thumb)])
                  st))).
Proof.
  intros Hs Hg Hf Hmeta Hh Hstage Hsend.
  rewrite (resolve_after_thumbnail w sg slug url body tevs thumb st Hs Hg Hf Hmeta Hh Hstage).
  now rewrite Hsend.
Qed.

Lemma resolve_uploads_and_stores_witness :
  get_telegram_file_id (Tour.world_pictures []) Tour.song_pic Demo.fresh
  = (Ok (Some "tok123"),
     snd (store_file_id "pic" "tok123"
            (logs (EvMedia "http://x/a.mp3"
                   :: [EvThumb "http://x/p.jpg"]
                   ++ [EvSendAudio (upload_request Tour.song_pic "pic" "mp3-bytes"
                                      (Some "jpg-bytes"))])
                  Demo.fresh))).
Proof.
  apply (resolve_uploads_and_stores
           (Tour.world_pictures []) Tour.song_pic "pic" "http://x/a.mp3" "mp3-bytes"
           [EvThumb "http://x/p.jpg"] (Some "jpg-bytes") 200%Z "tok123" Demo.fresh).
  - reflexivity.
  - reflexivity.
  - reflexivity.
  - reflexivity.
  - reflexivity.
  - apply (thumbnail_fetched _ _ _ "http://x/p.jpg" 200%Z "jpg-bytes"); reflexivity.
  - reflexivity.
Defined.

(** X5.  The thumbnail of a song whose media file was fetched: when its
    fetch raises, the resolver raises that error and no upload is sent;
    when it is answered, with any status, the upload is sent, and it
    carries the thumbnail only when the status is 200.  A thumbnail that is
    not served does not stop the upload. *)
Theorem resolve_thumbnail_failures w sg slug url body turl st :
  s_slug sg = Some slug ->
  Dict.get slug (file_id_storage st) = None ->
  s_file sg = Some url ->
  metadata_error sg = None ->
  http_get w (trace st) url = Response 200%Z body ->
  thumbnail_url_of (s_image_cropped sg) = Some turl ->
  match http_get w (trace st ++ [EvMedia url]) turl with
  | Fails e =>
      get_telegram_file_id w sg st = (Raise e, logs [EvMedia url; EvThumb turl] st)
  | Response tstatus tbody =>
      trace (snd (get_telegram_file_id w sg st))
      = trace st ++ [EvMedia url; EvThumb turl;
                     EvSendAudio (upload_request sg slug body
                                    (if (tstatus =? 200)%Z then Some tbody else None))]
  end.
Proof.
  intros Hs Hg Hf Hmeta Hh Hu.
  destruct (http_get w (trace st ++ [EvMedia url]) turl) as [e|tstatus tbody] eqn:Ht.
  - rewrite (resolve_slow w sg slug url st Hs Hg Hf Hmeta), Hh, Hu. simpl.
    unfold download_thumbnail, bind, request. simpl. now rewrite Ht.
  - rewrite (resolve_after_thumbnail w sg slug url body [EvThumb turl]
               (if (tstatus =? 200)%Z then Some tbody else None) st Hs Hg Hf Hmeta Hh
               (thumbnail_fetched _ _ _ turl tstatus tbody Hu Ht)).
    destruct (send_audio _ _ _) as [e|s [[fid|]]]; simpl; rewrite <- !app_assoc; reflexivity.
Qed.

Lemma resolve_thumbnail_failures_witness :
  trace (snd (get_telegram_file_id (Demo.world_of []) Tour.song_pic Demo.fresh))
  = trace Demo.fresh
    ++ [EvMedia "http://x/a.mp3"; EvThumb "http://x/p.jpg";
        EvSendAudio (upload_request Tour.song_pic "pic" "mp3-bytes"
                       (if (404 =? 200)%Z then Some "" else None))].
Proof.
  apply (resolve_thumbnail_failures
           (Demo.world_of []) Tour.song_pic "pic" "http://x/a.mp3" "mp3-bytes"
           "http://x/p.jpg" Demo.fresh); reflexivity.
Defined.

(** X6.  An upload that the messaging platform refuses, or answers with a
    message without audio, makes the resolver raise after the media file
    was fetched and the upload sent: only the trace changes, the store and
    the file are as before. *)
Theorem resolve_upload_refused w sg slug url body tevs thumb e st :
  s_slug sg = Some slug ->
  Dict.get slug (file_id_storage st) = None ->
  s_file sg = Some url ->
  metadata_error sg = None ->
  http_get w (trace st) url = Response 200%Z body ->
  thumbnail_stage w (trace st ++ [EvMedia url]) sg tevs thumb ->
  upload_error (send_audio w (trace st ++ EvMedia url :: tevs)
                  (upload_request sg slug body thumb)) = Some e ->
  get_telegram_file_id w sg st
  = (Raise e, logs (EvMedia url :: tevs ++ [EvSendAudio (upload_request sg slug body thumb)]) st)
  /\ file_id_storage (snd (get_telegram_file_id w sg st)) = file_id_storage st
  /\ disk (snd (get_telegram_file_id w sg st)) = disk st.
Proof.
  intros Hs Hg Hf Hmeta Hh Hstage Herr.
  rewrite (resolve_after_thumbnail w sg slug url body tevs thumb st Hs Hg Hf Hmeta Hh Hstage).
  destruct (send_audio _ _ _) as [e'|s [[fid|]]]; simpl in Herr; try discriminate;
    injection Herr as <-; (split; [reflexivity|]); simpl;
    match goal with
    | |- context [logs ?evs ?s] => destruct (logs_frame evs s) as (-> & -> & _)
    end; now split.
Qed.

Lemma resolve_upload_refused_witness :
  get_telegram_file_id (Demo.world_rejecting []) Tour.song_bare Demo.fresh
  = (Raise (TelegramError "Bad Request"),
     logs (EvMedia "http://x/a.mp3"
           :: [] ++ [EvSendAudio (upload_request Tour.song_bare "bare" "mp3-bytes" None)])
          Demo.fresh)
  /\ file_id_storage (snd (get_telegram_file_id (Demo.world_rejecting []) Tour.song_bare
                             Demo.fresh))
     = file_id_storage Demo.fresh
  /\ disk (snd (get_telegram_file_id (Demo.world_rejecting []) Tour.song_bare Demo.fresh))
     = disk Demo.fresh.
Proof.
  apply (resolve_upload_refused
           (Demo.world_rejecting []) Tour.song_bare "bare" "http://x/a.mp3" "mp3-bytes"
           [] None (TelegramError "Bad Request") Demo.fresh);
    try reflexivity.
  apply thumbnail_none. reflexivity.
Defined.

(** X7.  The resolver writes only together with a token: when it returns a
    token, the slug of the song holds it in the store, the tokens of the
    other slugs are as before, and the file is as before or the dump of
    the store; whenever it returns [None] or raises, the store and the
    file are exactly as before. *)
Theorem resolve_writes_only_with_token w sg st :
  match get_telegram_file_id w sg st with
  | (Ok (Some tok), st') =>
      exists slug,
        s_slug sg = Some slug /\
        Dict.get slug (file_id_storage st') = Some tok /\
        (forall other, other <> slug ->
           Dict.get other (file_id_storage st') = Dict.get other (file_id_storage st)) /\
        (disk st' = disk st \/ disk st' = Some (Json.dumps (file_id_storage st')))
  | (_, st') => file_id_storage st' = file_id_storage st /\ disk st' = disk st
  end.
Proof.
  destruct (resolve_cases w sg st) as (_ & _ & evs & _ & _ & Hcases).
  destruct (get_telegram_file_id w sg st) as [[[tok|]| |] st'] eqn:Hrun; simpl in Hcases;
    try (destruct Hcases as [(Hs & Hd & _) | (slug & tok' & _ & _ & Hr & _)];
         [now split | discriminate Hr]).
  destruct Hcases as [(Hs & Hd & Hfast) | (slug & tok' & Hslug & Hnone & Hr & Hs & Hd)].
  - destruct (Hfast tok eq_refl) as (_ & slug & Hslug & Hget).
    exists slug. rewrite Hs. repeat split; auto.
  - injection Hr as <-. exists slug. rewrite Hs.
    split; [exact Hslug|]. split; [apply DictFacts.get_set_same|].
    split; [|right; rewrite Hd, Hs; reflexivity].
    intros other Hne. apply DictFacts.get_set_other. congruence.
Qed.

(** X8.  One resolution sends at most three requests, in this order: the
    fetch of the media file, at most one fetch of a thumbnail, at most one
    upload.  It sends no search, no listing request and no answer, and it
    neither reads the clock nor touches the query cache. *)
Theorem resolve_sends_at_most_one_of_each w sg st :
  exists evs,
    trace (snd (get_telegram_file_id w sg st)) = trace st ++ evs
    /\ resolver_events evs = true
    /\ query_cache (snd (get_telegram_file_id w sg st)) = query_cache st
    /\ clock_reads (snd (get_telegram_file_id w sg st)) = clock_reads st.
Proof.
  destruct (resolve_cases w sg st) as (Hc & Hn & evs & Ht & He & _).
  exists evs. auto.
Qed.

(** ** The bulk ingestion, one song *)

(** X9.  In a step of the bulk ingestion for a song without a token, the
    call of [store_file_id] that follows the resolver changes nothing:
    the resolver has already stored the token and rewritten the file, so
    the state after the step is the state after the resolution; and the
    step raises exactly when the resolution does. *)
Theorem upload_step_store_is_redundant w sg slug st :
  s_slug sg = Some slug ->
  Dict.mem slug (file_id_storage st) = false ->
  snd (upload_step w sg st) = snd (get_telegram_file_id w sg st)
  /\ fst (upload_step w sg st)
     = match fst (get_telegram_file_id w sg st) with
       | Ok _ => Ok tt
       | Raise e => Raise e
       | OutOfFuel => OutOfFuel
       end.
Proof.
  intros Hs Hm. unfold upload_step.
  rewrite (bind_ok _ _ st slug st) by (now rewrite Hs).
  rewrite (bind_ok _ _ st (file_id_storage st) st) by reflexivity.
  rewrite Hm. unfold bind.
  destruct (resolve_cases w sg st) as (_ & _ & evs & _ & _ & Hcases).
  apply DictFacts.mem_false_get in Hm.
  destruct (get_telegram_file_id w sg st) as [[[fid|]| |] st1]; simpl in *; auto.
  destruct (PyStr.truthy fid); [|now split].
  destruct Hcases as [(_ & _ & Hfast) | (slug' & tok & Hslug & _ & Hr & Hst & Hd)].
  - destruct (Hfast fid eq_refl) as (_ & slug' & Hslug & Hget). congruence.
  - injection Hr as <-. rewrite Hs in Hslug. injection Hslug as <-.
    split; [|reflexivity]. apply store_again; [|exact Hd].
    rewrite Hst. now rewrite dict_set_set.
Qed.

Lemma upload_step_store_is_redundant_witness :
  snd (upload_step (Demo.world_of []) Demo.song_abc Demo.fresh)
  = snd (get_telegram_file_id (Demo.world_of []) Demo.song_abc Demo.fresh)
  /\ fst (upload_step (Demo.world_of []) Demo.song_abc Demo.fresh)
     = match fst (get_telegram_file_id (Demo.world_of []) Demo.song_abc Demo.fresh) with
       | Ok _ => Ok tt
       | Raise e => Raise e
       | OutOfFuel => OutOfFuel
       end.
Proof.
  apply (upload_step_store_is_redundant (Demo.world_of []) Demo.song_abc "abc" Demo.fresh);
    reflexivity.
Defined.

(** ** The listing of the catalog *)

(** X10.  [fetch_all_songs_from_api] walks the pages from the first URL,
    with page size 1000, along the [next] links: it returns the songs of
    the pages in the order of the walk and sends one request per page.
    The walk ends at a page whose [next] is [null], missing or empty, and
    also at a page answered with a status other than 200, in which case
    the songs gathered so far are returned and nothing is raised. *)
Theorem fetch_all_songs_follows_pages w st songs evs fuel :
  listing w (trace st) (Some (API_BASE_URL ++ "?page_size=1000")%string) songs evs ->
  length evs <= fuel ->
  fetch_all_songs_from_api w fuel st = (Ok songs, logs evs st).
Proof.
  intros Hl Hfuel. unfold fetch_all_songs_from_api.
  now rewrite (fetch_pages_listing w _ _ _ _ Hl st fuel [] eq_refl Hfuel).
Qed.

Lemma fetch_all_songs_follows_pages_witness :
  fetch_all_songs_from_api
    (Tour.world_paged [Demo.song_abc]
       (Response 200%Z (Some {| results := Some [Demo.song_gone]; next := Some "" |})))
    5 Demo.fresh
  = (Ok ([Demo.song_abc] ++ [Demo.song_gone] ++ []),
     logs [EvPage Demo.listing_url; EvPage Tour.page_two_url] Demo.fresh).
Proof.
  apply (fetch_all_songs_follows_pages
           (Tour.world_paged [Demo.song_abc]
              (Response 200%Z (Some {| results := Some [Demo.song_gone]; next := Some "" |})))
           Demo.fresh ([Demo.song_abc] ++ [Demo.song_gone] ++ [])
           [EvPage Demo.listing_url; EvPage Tour.page_two_url] 5).
  - apply (listing_page _ _ _ Demo.listing_url [Demo.song_abc] (Some Tour.page_two_url));
      [reflexivity | reflexivity |].
    apply (listing_page _ _ _ Tour.page_two_url [Demo.song_gone] (Some ""));
      [reflexivity | reflexivity |].
    apply listing_done. reflexivity.
  - simpl. lia.
Defined.

(** X11.  When the first page of the listing is answered with a status
    other than 200, the bulk ingestion returns [None] after that one
    request: nothing is fetched or uploaded, and the store, the file and
    the query cache are as before. *)
Theorem upload_songs_without_listing w fuel st status body :
  catalog_get w (trace st) (API_BASE_URL ++ "?page_size=1000")%string = Response status body ->
  status <> 200%Z ->
  upload_songs w (S fuel) st
  = (Ok PyNone, log (EvPage (API_BASE_URL ++ "?page_size=1000")%string) st).
Proof.
  intros Hget Hne. unfold upload_songs, fetch_all_songs_from_api.
  rewrite (bind_ok _ _ st [] (log (EvPage (API_BASE_URL ++ "?page_size=1000")%string) st));
    [reflexivity|].
  apply (fetch_pages_listing w (trace st) _ [] [EvPage (API_BASE_URL ++ "?page_size=1000")%string]);
    [|reflexivity | simpl; lia].
  now apply (listing_stopped w _ _ _ status body).
Qed.

Lemma upload_songs_without_listing_witness :
  upload_songs Tour.world_down 1 Demo.warm
  = (Ok PyNone, log (EvPage (API_BASE_URL ++ "?page_size=1000")%string) Demo.warm).
Proof.
  apply (upload_songs_without_listing Tour.world_down 0 Demo.warm 503%Z None).
  - reflexivity.
  - discriminate.
Defined.

(** X12.  When the answer to a page of the listing raises (the connection
    fails, the body is not JSON, or the page has no [results]), the
    listing raises, and with it the bulk ingestion: the songs of the pages
    read before are dropped, nothing is fetched or uploaded, and only the
    page requests have been sent. *)
Theorem upload_songs_listing_error w st e evs fuel :
  listing_raises w (trace st) (Some (API_BASE_URL ++ "?page_size=1000")%string) e evs ->
  length evs <= fuel ->
  fetch_all_songs_from_api w fuel st = (Raise e, logs evs st)
  /\ upload_songs w fuel st = (Raise e, logs evs st).
Proof.
  intros Hl Hfuel.
  assert (H : fetch_all_songs_from_api w fuel st = (Raise e, logs evs st)).
  { unfold fetch_all_songs_from_api.
    exact (fetch_pages_raises w _ _ _ _ Hl st fuel [] eq_refl Hfuel). }
  split; [exact H|]. unfold upload_songs. now rewrite (bind_raise _ _ _ _ _ H).
Qed.

Lemma upload_songs_listing_error_witness :
  fetch_all_songs_from_api
    (Tour.world_paged [Demo.song_abc] (Fails (ClientError "reset"))) 2 Demo.fresh
  = (Raise (ClientError "reset"),
     logs [EvPage Demo.listing_url; EvPage Tour.page_two_url] Demo.fresh)
  /\ upload_songs (Tour.world_paged [Demo.song_abc] (Fails (ClientError "reset"))) 2 Demo.fresh
     = (Raise (ClientError "reset"),
        logs [EvPage Demo.listing_url; EvPage Tour.page_two_url] Demo.fresh).
Proof.
  apply (upload_songs_listing_error
           (Tour.world_paged [Demo.song_abc] (Fails (ClientError "reset")))
           Demo.fresh (ClientError "reset")
           [EvPage Demo.listing_url; EvPage Tour.page_two_url] 2).
  - apply (listing_raises_later _ _ _ Demo.listing_url [Demo.song_abc]
             (Some Tour.page_two_url)); [reflexivity | reflexivity |].
    apply listing_raises_here; reflexivity.
  - simpl. lia.
Defined.

(** X13.  The walk through the pages has no bound of its own and does not
    notice a page it has seen: against a catalog whose every page names a
    next page the listing does not return, whatever the number of pages
    it is allowed, having sent that many requests; nor does the bulk
    ingestion. *)
Theorem fetch_all_songs_needs_a_last_page w fuel st :
  always_next w ->
  fst (fetch_all_songs_from_api w fuel st) = OutOfFuel
  /\ length (trace (snd (fetch_all_songs_from_api w fuel st))) = length (trace st) + fuel
  /\ fst (upload_songs w fuel st) = OutOfFuel.
Proof.
  intros Hw. unfold upload_songs, fetch_all_songs_from_api.
  destruct (fetch_pages_endless w Hw fuel
              (Some (API_BASE_URL ++ "?page_size=1000")%string)
              (API_BASE_URL ++ "?page_size=1000")%string [] st eq_refl) as [Hr Hl].
  split; [exact Hr|]. split; [exact Hl|].
  unfold bind.
  destruct (fetch_pages w fuel _ [] st) as [[a|e|] st1]; simpl in Hr; try discriminate.
  reflexivity.
Qed.

Lemma fetch_all_songs_needs_a_last_page_witness :
  fst (fetch_all_songs_from_api Tour.world_endless 7 Demo.fresh) = OutOfFuel
  /\ length (trace (snd (fetch_all_songs_from_api Tour.world_endless 7 Demo.fresh)))
     = length (trace Demo.fresh) + 7
  /\ fst (upload_songs Tour.world_endless 7 Demo.fresh) = OutOfFuel.
Proof.
  apply (fetch_all_songs_needs_a_last_page Tour.world_endless 7 Demo.fresh).
  intros tr url. exists [Demo.song_abc], Tour.page_two_url. split; reflexivity.
Defined.

(** ** The bulk ingestion *)

(** X14.  The bulk ingestion has no error handling of its own: when the
    resolution of a song without a token raises, the run raises that
    error at once.  The songs listed after it are not attempted, and the
    store and the file are as the songs before it left them. *)
Theorem upload_songs_stops_at_first_error w fuel st st1 pre bad post slug st_mid e st_bad :
  fetch_all_songs_from_api w fuel st = (Ok (pre ++ bad :: post), st1) ->
  upload_loop w pre st1 = (Ok tt, st_mid) ->
  s_slug bad = Some slug ->
  Dict.mem slug (file_id_storage st_mid) = false ->
  get_telegram_file_id w bad st_mid = (Raise e, st_bad) ->
  upload_songs w fuel st = (Raise e, st_bad)
  /\ file_id_storage st_bad = file_id_storage st_mid
  /\ disk st_bad = disk st_mid.
Proof.
  intros Hfetch Hpre Hs Hm Hbad.
  assert (Hstep : upload_step w bad st_mid = (Raise e, st_bad)).
  { unfold upload_step.
    rewrite (bind_ok _ _ st_mid slug st_mid) by (now rewrite Hs).
    rewrite (bind_ok _ _ st_mid (file_id_storage st_mid) st_mid) by reflexivity.
    rewrite Hm. now rewrite (bind_raise _ _ _ _ _ Hbad). }
  split.
  - unfold upload_songs. rewrite (bind_ok _ _ _ _ _ Hfetch).
    pose proof (upload_loop_stops w pre st1 st_mid bad post e st_bad Hpre Hstep) as Hloop.
    destruct (pre ++ bad :: post) as [|sg songs] eqn:E.
    + destruct pre; discriminate E.
    + now rewrite (bind_raise _ _ _ _ _ Hloop).
  - destruct (resolve_cases w bad st_mid) as (_ & _ & evs & _ & _ & Hcases).
    rewrite Hbad in Hcases. simpl in Hcases.
    destruct Hcases as [(H1 & H2 & _) | (s & t & _ & _ & Hr & _)]; [now split | discriminate Hr].
Qed.

Lemma upload_songs_stops_at_first_error_witness :
  let w := Demo.world_rejecting [Demo.song_gone; Tour.song_bare; Demo.song_abc] in
  let st_mid := log (EvMedia "http://x/gone.mp3") (log (EvPage Demo.listing_url) Demo.warm) in
  let st_bad :=
    logs [EvMedia "http://x/a.mp3";
          EvSendAudio (upload_request Tour.song_bare "bare" "mp3-bytes" None)] st_mid in
  upload_songs w 1 Demo.warm = (Raise (TelegramError "Bad Request"), st_bad)
  /\ file_id_storage st_bad = file_id_storage st_mid
  /\ disk st_bad = disk st_mid.
Proof.
  apply (upload_songs_stops_at_first_error
           (Demo.world_rejecting [Demo.song_gone; Tour.song_bare; Demo.song_abc]) 1 Demo.warm
           (log (EvPage Demo.listing_url) Demo.warm)
           [Demo.song_gone] Tour.song_bare [Demo.song_abc] "bare"
           (log (EvMedia "http://x/gone.mp3") (log (EvPage Demo.listing_url) Demo.warm))
           (TelegramError "Bad Request")); reflexivity.
Defined.

(** X15.  The bulk ingestion stays away from the inline queries: whatever
    its outcome, it neither reads the clock nor touches the query cache,
    and it sends no search and no answer. *)
Theorem upload_songs_leaves_queries_alone w fuel st :
  query_cache (snd (upload_songs w fuel st)) = query_cache st
  /\ clock_reads (snd (upload_songs w fuel st)) = clock_reads st
  /\ exists evs,
       trace (snd (upload_songs w fuel st)) = trace st ++ evs
       /\ answers evs = [] /\ searches evs = [].
Proof.
  exact (upload_songs_frame w fuel st).
Qed.

(** ** The inline query *)



(** X17.  An entry of the query cache that has expired counts as absent:
    the query sends the search again, as the first thing it sends. *)
Theorem inline_query_expired_entry_searches_again w qid text st l :
  TTLCache.find (PyStr.strip text) (query_cache st) = Some l ->
  (TTLCache.expires l <= now w st)%Z ->
  exists evs,
    trace (snd (inline_query w qid text st))
    = trace st
      ++ EvSearch (API_BASE_URL ++ "?search=" ++ PyStr.strip text ++ "&page_size=5")%string
      :: evs.
Proof.
  intros Hf Hexp.
  apply (inline_query_miss_trace w qid text st (tick st)).
  rewrite cache_contains_cases, Hf.
  apply Z.ltb_ge in Hexp. now rewrite Hexp.
Qed.

Lemma inline_query_expired_entry_searches_again_witness :
  exists evs,
    trace (snd (inline_query (Demo.world_slow_clock [Demo.song_abc]) "q2" " blue "
                  (tick Demo.answered_slow)))
    = trace (tick Demo.answered_slow)
      ++ EvSearch (API_BASE_URL ++ "?search=" ++ PyStr.strip " blue " ++ "&page_size=5")%string
      :: evs.
Proof.
  apply (inline_query_expired_entry_searches_again
           (Demo.world_slow_clock [Demo.song_abc]) "q2" " blue " (tick Demo.answered_slow)
           {| TTLCache.key := "blue";
              TTLCache.value :=
                [{| id := "abc"; audio_file_id := "tok123";
                    caption := "https://next.akarpov.ru/music/albums/al1#abc" |}];
              TTLCache.expires := 600%Z |}).
  - reflexivity.
  - vm_compute. discriminate.
Defined.

(** X18.  A search whose answer raises (the connection fails, the body is
    not JSON, or the page has no [results]) makes the query raise that
    error right after the search request: nothing is resolved, nothing is
    stored in the query cache and no answer is sent. *)
Theorem inline_query_search_error w qid text st st0 e :
  cache_contains w (PyStr.strip text) st = (Ok false, st0) ->
  page_error (catalog_get w (trace st)
                (API_BASE_URL ++ "?search=" ++ PyStr.strip text ++ "&page_size=5")%string)
  = Some e ->
  inline_query w qid text st
  = (Raise e,
     log (EvSearch (API_BASE_URL ++ "?search=" ++ PyStr.strip text ++ "&page_size=5")%string) st0)
  /\ query_cache st0 = query_cache st
  /\ trace st0 = trace st.
Proof.
  intros Hmiss Herr.
  destruct (cache_contains_false w _ _ _ Hmiss) as (_ & _ & Hc & Ht).
  split; [|now split].
  unfold inline_query. rewrite (bind_ok _ _ _ _ _ Hmiss). rewrite !bind_assoc.
  unfold fetch_songs_from_api. rewrite bind_assoc.
  unfold bind at 1. unfold request. rewrite Ht.
  unfold page_error in Herr.
  destruct (catalog_get w (trace st) _) as [e'|status body].
  { now injection Herr as <-. }
  simpl. destruct (status =? 200)%Z; [|discriminate].
  destruct body as [pg|]; simpl.
  - destruct (results pg) eqn:Hr; [discriminate|]. injection Herr as <-.
    unfold bind, ret, item. simpl. now rewrite Hr.
  - now injection Herr as <-.
Qed.

Lemma inline_query_search_error_witness :
  inline_query Tour.world_offline "q1" "blue" Demo.warm
  = (Raise (ClientError "connect"),
     log (EvSearch (API_BASE_URL ++ "?search=" ++ PyStr.strip "blue" ++ "&page_size=5")%string)
         Demo.warm)
  /\ query_cache Demo.warm = query_cache Demo.warm
  /\ trace Demo.warm = trace Demo.warm.
Proof.
  apply (inline_query_search_error Tour.world_offline "q1" "blue" Demo.warm Demo.warm
           (ClientError "connect")); reflexivity.
Defined.

(** X19.  The inline query has no error handling of its own: when the
    resolution of a song raises, the query raises that error at once.  The
    songs found after it are not resolved, no answer is sent and nothing
    is stored in the query cache, so that the next query searches again;
    the tokens of the songs resolved before it stay in the store. *)
Theorem inline_query_stops_at_first_error
    w qid text st st0 pg st1 pre bad post ts st_mid e st_bad :
  cache_contains w (PyStr.strip text) st = (Ok false, st0) ->
  fetch_songs_from_api w (PyStr.strip text) st0 = (Ok pg, st1) ->
  results pg = Some (pre ++ bad :: post) ->
  resolves w pre st1 ts st_mid ->
  forallb album_known pre = true ->
  get_telegram_file_id w bad st_mid = (Raise e, st_bad) ->
  inline_query w qid text st = (Raise e, st_bad)
  /\ query_cache st_bad = query_cache st
  /\ (exists evs, trace st_bad = trace st ++ evs /\ answers evs = [])
  /\ file_id_storage st_bad = file_id_storage st_mid
  /\ disk st_bad = disk st_mid.
Proof.
  intros Hmiss Hfetch Hres Hpre Halb Hbad.
  destruct (cache_contains_false w _ _ _ Hmiss) as (_ & _ & Hc0 & Ht0).
  pose proof (fetch_songs_from_api_frame w (PyStr.strip text) st0) as Hfr.
  rewrite Hfetch in Hfr. simpl in Hfr.
  destruct (resolves_frame w pre st1 ts st_mid Hpre) as (Hc1 & evs1 & Ht1 & Ha1 & _).
  destruct (resolve_cases w bad st_mid) as (Hc2 & _ & evs2 & Ht2 & He2 & Hcases).
  rewrite Hbad in Hc2, Ht2, Hcases. simpl in Hc2, Ht2, Hcases.
  split; [|split; [|split]].
  - rewrite (inline_query_miss w qid text st st0 pg st1 _ Hmiss Hfetch Hres).
    rewrite inline_loop_app.
    rewrite (bind_ok _ _ _ _ _ (inline_loop_resolves w pre st1 ts st_mid Hpre Halb [])).
    simpl. unfold inline_step. rewrite bind_assoc.
    now rewrite (bind_raise _ _ _ _ _ Hbad).
  - rewrite Hc2, Hc1. subst st1. simpl. exact Hc0.
  - exists (EvSearch (API_BASE_URL ++ "?search=" ++ PyStr.strip text ++ "&page_size=5")%string
            :: evs1 ++ evs2).
    split.
    + rewrite Ht2, Ht1. subst st1. simpl. rewrite Ht0, <- !app_assoc. reflexivity.
    + destruct (resolver_events_quiet evs2 He2) as [Ha2 _].
      unfold answers in *. simpl. now rewrite flat_map_app, Ha1, Ha2.
  - destruct Hcases as [(H1 & H2 & _) | (s & t & _ & _ & Hr & _)]; [now split | discriminate Hr].
Qed.

Lemma inline_query_stops_at_first_error_witness :
  let w := Demo.world_rejecting [Demo.song_gone; Tour.song_bare; Demo.song_abc] in
  let st_mid := log (EvMedia "http://x/gone.mp3") Demo.searched in
  let st_bad :=
    logs [EvMedia "http://x/a.mp3";
          EvSendAudio (upload_request Tour.song_bare "bare" "mp3-bytes" None)] st_mid in
  inline_query w "q1" "blue" Demo.fresh = (Raise (TelegramError "Bad Request"), st_bad)
  /\ query_cache st_bad = query_cache Demo.fresh
  /\ (exists evs, trace st_bad = trace Demo.fresh ++ evs /\ answers evs = [])
  /\ file_id_storage st_bad = file_id_storage st_mid
  /\ disk st_bad = disk st_mid.
Proof.
  apply (inline_query_stops_at_first_error
           (Demo.world_rejecting [Demo.song_gone; Tour.song_bare; Demo.song_abc])
           "q1" "blue" Demo.fresh Demo.fresh
           {| results := Some [Demo.song_gone; Tour.song_bare; Demo.song_abc]; next := None |}
           Demo.searched [Demo.song_gone] Tour.song_bare [Demo.song_abc] [None]
           (log (EvMedia "http://x/gone.mp3") Demo.searched)
           (TelegramError "Bad Request")); try reflexivity.
  apply (resolves_cons _ _ _ _ _ (log (EvMedia "http://x/gone.mp3") Demo.searched));
    [reflexivity | apply resolves_nil].
Defined.

(** X20.  The inline query needs the album of a song, the resolver and the
    bulk ingestion do not.  For a record whose album is missing, [null] or
    without slug, and that resolves to a token, the step of the loop of the
    inline query raises ([KeyError] or [TypeError]) after the resolution,
    which may have uploaded the song: the token is in the store.  A step
    of the bulk ingestion for the same record returns normally. *)
Theorem inline_query_needs_the_album w sg rs st fid st1 :
  get_telegram_file_id w sg st = (Ok (Some fid), st1) ->
  PyStr.truthy fid = true ->
  album_known sg = false ->
  inline_step w sg rs st
  = (Raise match s_album sg with
           | Missing => KeyError "album"
           | JNull => TypeError
           | Has _ => KeyError "slug"
           end, st1)
  /\ (exists slug, s_slug sg = Some slug /\ Dict.get slug (file_id_storage st1) = Some fid)
  /\ fst (upload_step w sg st) = Ok tt.
Proof.
  intros Hrun Htr Hal.
  destruct (resolve_token_stored w sg st fid st1 Hrun) as (slug & Hs & Hg).
  split; [|split; [eauto|]].
  - unfold inline_step. rewrite (bind_ok _ _ _ _ _ Hrun). rewrite Htr.
    rewrite (bind_ok _ _ st1 slug st1) by (now rewrite Hs).
    unfold album_known in Hal. unfold album_slug_item.
    destruct (s_album sg) as [| |[[al|]]]; try reflexivity. discriminate.
  - unfold upload_step.
    rewrite (bind_ok _ _ st slug st) by (now rewrite Hs).
    rewrite (bind_ok _ _ st (file_id_storage st) st) by reflexivity.
    destruct (Dict.mem slug (file_id_storage st)); [reflexivity|].
    rewrite (bind_ok _ _ _ _ _ Hrun). now rewrite Htr.
Qed.

Lemma inline_query_needs_the_album_witness :
  inline_step (Demo.world_of []) Tour.song_bare [] Demo.fresh
  = (Raise match s_album Tour.song_bare with
           | Missing => KeyError "album"
           | JNull => TypeError
           | Has _ => KeyError "slug"
           end,
     snd (get_telegram_file_id (Demo.world_of []) Tour.song_bare Demo.fresh))
  /\ (exists slug,
        s_slug Tour.song_bare = Some slug /\
        Dict.get slug
          (file_id_storage (snd (get_telegram_file_id (Demo.world_of []) Tour.song_bare
                                   Demo.fresh)))
        = Some "tok123")
  /\ fst (upload_step (Demo.world_of []) Tour.song_bare Demo.fresh) = Ok tt.
Proof.
  apply (inline_query_needs_the_album (Demo.world_of []) Tour.song_bare [] Demo.fresh "tok123");
    reflexivity.
Defined.

(** X21.  A query text that is empty or all white space is not treated
    apart: it is trimmed to the empty string, looked up in the cache under
    that key and, on a miss, searched as the empty string. *)
Theorem inline_query_blank_text_is_searched w qid text st st0 :
  PyStr.all_space text = true ->
  cache_contains w "" st = (Ok false, st0) ->
  PyStr.strip text = ""%string
  /\ exists evs,
       trace (snd (inline_query w qid text st))
       = trace st ++ EvSearch (API_BASE_URL ++ "?search=&page_size=5")%string :: evs.
Proof.
  intros Hsp Hmiss.
  assert (Hstrip : PyStr.strip text = ""%string).
  { unfold PyStr.strip. now rewrite (lstrip_all_space text Hsp). }
  split; [exact Hstrip|].
  rewrite <- Hstrip in Hmiss.
  destruct (inline_query_miss_trace w qid text st st0 Hmiss) as [evs Hevs].
  exists evs. rewrite Hevs, Hstrip. reflexivity.
Qed.

Lemma inline_query_blank_text_is_searched_witness :
  PyStr.strip "   " = ""%string
  /\ exists evs,
       trace (snd (inline_query (Demo.world_of [Demo.song_abc]) "q1" "   " Demo.warm))
       = trace Demo.warm ++ EvSearch (API_BASE_URL ++ "?search=&page_size=5")%string :: evs.
Proof.
  apply (inline_query_blank_text_is_searched
           (Demo.world_of [Demo.song_abc]) "q1" "   " Demo.warm Demo.warm); reflexivity.
Defined.

(** X22.  The query cache never holds more than 100 result lists: along
    any sequence of operations, a cache within its capacity stays within
    it. *)
Theorem query_cache_stays_bounded w ops st :
  length (query_cache st) <= TTLCache.maxsize ->
  length (query_cache (run w ops st)) <= TTLCache.maxsize.
Proof.
  revert st. unfold run. induction ops as [|o ops IH]; intros st Hst; simpl; [exact Hst|].
  apply IH. destruct o as [qid text | fuel | sg | sg | slug tok]; simpl.
  - now apply keeps_bound_inline_query.
  - now apply (keeps_bound_no_query_effect _ (upload_songs_frame w fuel)).
  - now apply (keeps_bound_no_query_effect _ (no_query_effect_upload_step w sg)).
  - now apply (keeps_bound_no_query_effect _ (no_query_effect_resolve w sg)).
  - now apply (keeps_bound_no_query_effect _ (no_query_effect_store slug tok)).
Qed.

Lemma query_cache_stays_bounded_witness :
  length (query_cache
            (run (Demo.world_of [Demo.song_abc])
                 [Inline "q1" "blue"; Upload 2; Inline "q2" "red"] Demo.fresh))
  <= TTLCache.maxsize.
Proof.
  apply (query_cache_stays_bounded
           (Demo.world_of [Demo.song_abc]) [Inline "q1" "blue"; Upload 2; Inline "q2" "red"]
           Demo.fresh).
  unfold TTLCache.maxsize. simpl. lia.
Defined.

(** ** Runs that find the work done, and runs that finish it *)

(** X23.  A bulk ingestion whose listing holds only songs that have a
    token does nothing after the listing, in any world: no media fetch, no
    upload, no write.  A run can therefore be repeated, or started again
    after a crash, without uploading anything twice. *)
Theorem upload_songs_all_resolved w fuel st songs st1 :
  fetch_all_songs_from_api w fuel st = (Ok songs, st1) ->
  forallb (known (file_id_storage st)) songs = true ->
  upload_songs w fuel st = (Ok PyNone, st1).
Proof.
  intros Hfetch Hall. unfold upload_songs. rewrite (bind_ok _ _ _ _ _ Hfetch).
  assert (Hst : file_id_storage st1 = file_id_storage st).
  { destruct (quiet_fetch_pages w fuel (Some (API_BASE_URL ++ "?page_size=1000")%string) [] st)
      as [H _].
    unfold fetch_all_songs_from_api in Hfetch. now rewrite Hfetch in H. }
  rewrite <- Hst in Hall.
  destruct songs as [|sg songs]; [reflexivity|].
  now rewrite (bind_ok _ _ _ _ _ (upload_loop_known w (sg :: songs) st1 Hall)).
Qed.

Lemma upload_songs_all_resolved_witness :
  upload_songs (Demo.world_rejecting [Demo.song_abc; Demo.song_abc]) 1 Demo.warm
  = (Ok PyNone, log (EvPage Demo.listing_url) Demo.warm).
Proof.
  apply (upload_songs_all_resolved
           (Demo.world_rejecting [Demo.song_abc; Demo.song_abc]) 1 Demo.warm
           [Demo.song_abc; Demo.song_abc]); reflexivity.
Defined.

(** X24.  When the media storage serves every file and the messaging
    platform accepts every upload, a bulk ingestion over well-formed
    records returns normally and leaves every song of the listing with a
    token in the store. *)
Theorem upload_songs_completes w fuel st songs st1 :
  fetch_all_songs_from_api w fuel st = (Ok songs, st1) ->
  forallb well_formed songs = true ->
  media_always_served w ->
  uploads_accepted w ->
  exists st2,
    upload_songs w fuel st = (Ok PyNone, st2)
    /\ forallb (known (file_id_storage st2)) songs = true.
Proof.
  intros Hfetch Hwf Hm Hu. unfold upload_songs. rewrite (bind_ok _ _ _ _ _ Hfetch).
  destruct songs as [|sg songs]; [exists st1; now split|].
  destruct (upload_loop_completes w (sg :: songs) Hm Hu Hwf st1) as (st2 & Hloop & Hall).
  exists st2. now rewrite (bind_ok _ _ _ _ _ Hloop).
Qed.

Lemma upload_songs_completes_witness :
  exists st2,
    upload_songs (Tour.world_serving [Demo.song_gone; Demo.song_abc]) 1 Demo.fresh
    = (Ok PyNone, st2)
    /\ forallb (known (file_id_storage st2)) [Demo.song_gone; Demo.song_abc] = true.
Proof.
  apply (upload_songs_completes
           (Tour.world_serving [Demo.song_gone; Demo.song_abc]) 1 Demo.fresh
           [Demo.song_gone; Demo.song_abc] (log (EvPage Demo.listing_url) Demo.fresh)).
  - reflexivity.
  - reflexivity.
  - intros tr url. exists "bytes". reflexivity.
  - intros tr req. exists 200%Z, "tok123". reflexivity.
Defined.

(** X25.  The resolver returns [None] in one case only: the song has no
    token, its metadata was read, and the fetch of its media file was
    answered with a status other than 200.  That fetch is then the only
    thing sent, and nothing else has changed. *)
Theorem resolve_none_only_when_media_not_served w sg st st' :
  get_telegram_file_id w sg st = (Ok None, st') ->
  exists slug url status body,
    s_slug sg = Some slug
    /\ Dict.get slug (file_id_storage st) = None
    /\ s_file sg = Some url
    /\ metadata_error sg = None
    /\ http_get w (trace st) url = Response status body
    /\ status <> 200%Z
    /\ st' = log (EvMedia url) st.
Proof.
  intros Hrun.
  destruct (resolve_none_inv w sg st st' Hrun)
    as (slug & url & status & body & Hs & Hg & Hf & Hh & Hne & Hst).
  exists slug, url, status, body. repeat split; auto.
  destruct (metadata_error sg) as [e|] eqn:Hmeta; [|reflexivity].
  assert (Hraise : raises_before_request (file_id_storage st) sg = Some e).
  { unfold raises_before_request. now rewrite Hs, Hg. }
  unfold raises_before_request, metadata_error in Hraise. rewrite Hs, Hg, Hf in Hraise.
  unfold get_telegram_file_id in Hrun.
  rewrite (bind_ok _ _ st slug st) in Hrun by (now rewrite Hs).
  rewrite (bind_ok _ _ st (file_id_storage st) st) in Hrun by reflexivity.
  rewrite Hg in Hrun.
  rewrite (bind_ok _ _ st url st) in Hrun by (now rewrite Hf).
  destruct (authors_named (get_default (s_authors sg) [])) eqn:Ha.
  - rewrite (bind_ok _ _ st _ st (author_names_of _ st Ha)) in Hrun.
    destruct (s_album sg); try discriminate Hraise. discriminate Hrun.
  - rewrite (bind_raise _ _ st _ st (author_names_unnamed _ st Ha)) in Hrun. discriminate Hrun.
Qed.

Lemma resolve_none_only_when_media_not_served_witness :
  exists slug url status body,
    s_slug Demo.song_gone = Some slug
    /\ Dict.get slug (file_id_storage Demo.fresh) = None
    /\ s_file Demo.song_gone = Some url
    /\ metadata_error Demo.song_gone = None
    /\ http_get (Demo.world_of []) (trace Demo.fresh) url = Response status body
    /\ status <> 200%Z
    /\ log (EvMedia "http://x/gone.mp3") Demo.fresh = log (EvMedia url) Demo.fresh.
Proof.
  apply (resolve_none_only_when_media_not_served
           (Demo.world_of []) Demo.song_gone Demo.fresh
           (log (EvMedia "http://x/gone.mp3") Demo.fresh)).
  reflexivity.
Defined.

(** X26.  Every entry of an answer computed on a miss names a song of the
    search and carries the token that the store holds for that song when
    the answer is sent; the answer has at most one entry per song found. *)
Theorem answered_tokens_are_stored w qid text st st0 pg st1 found st3 :
  cache_contains w (PyStr.strip text) st = (Ok false, st0) ->
  fetch_songs_from_api w (PyStr.strip text) st0 = (Ok pg, st1) ->
  results pg = Some found ->
  inline_query w qid text st = (Ok tt, st3) ->
  exists rs tr,
    trace st3 = tr ++ [EvAnswer qid rs 1]
    /\ length rs <= length found
    /\ Forall (fun e => In (id e) (slugs found)
                        /\ Dict.get (id e) (file_id_storage st3) = Some (audio_file_id e)) rs.
Proof.
  intros Hmiss Hfetch Hres Hrun.
  rewrite (inline_query_miss w qid text st st0 pg st1 found Hmiss Hfetch Hres) in Hrun.
  destruct (inline_loop w found [] st1) as [[rs|e|] st2] eqn:Hloop; try discriminate.
  destruct (inline_loop_stored w found [] st1 rs st2 Hloop (Forall_nil _))
    as (added & Hrs & Hlen & Hin & Hst).
  simpl in Hrs. subst added.
  unfold answer in Hrun. simpl in Hrun.
  destruct (answer_inline_query w (trace st2) qid rs); [discriminate|].
  injection Hrun as <-. exists rs, (trace st2). split; [reflexivity|]. split; [exact Hlen|].
  simpl. apply Forall_forall. intros e He.
  rewrite Forall_forall in Hin, Hst. auto.
Qed.

Lemma answered_tokens_are_stored_witness :
  let w := Demo.world_of [Demo.song_gone; Demo.song_abc] in
  exists rs tr,
    trace (snd (inline_query w "q1" "blue" Demo.fresh)) = tr ++ [EvAnswer "q1" rs 1]
    /\ length rs <= length [Demo.song_gone; Demo.song_abc]
    /\ Forall (fun e => In (id e) (slugs [Demo.song_gone; Demo.song_abc])
                        /\ Dict.get (id e)
                             (file_id_storage (snd (inline_query w "q1" "blue" Demo.fresh)))
                           = Some (audio_file_id e)) rs.
Proof.
  apply (answered_tokens_are_stored
           (Demo.world_of [Demo.song_gone; Demo.song_abc]) "q1" "blue" Demo.fresh Demo.fresh
           {| results := Some [Demo.song_gone; Demo.song_abc]; next := None |}
           Demo.searched [Demo.song_gone; Demo.song_abc]); reflexivity.
Defined.

(** X27.  The defaults of the upload: for a record that has only [slug]
    and [file], whose media file is served, the upload is sent with the
    duration 0, an empty performer, the title [Unknown Title], no
    thumbnail and a caption whose album part is empty. *)
Theorem resolve_bare_record_defaults w sg slug url body st :
  s_slug sg = Some slug ->
  Dict.get slug (file_id_storage st) = None ->
  s_file sg = Some url ->
  s_length sg = None ->
  s_authors sg = None ->
  s_name sg = None ->
  s_album sg = Missing ->
  s_image_cropped sg = Missing ->
  http_get w (trace st) url = Response 200%Z body ->
  trace (snd (get_telegram_file_id w sg st))
  = trace st
    ++ [EvMedia url;
        EvSendAudio {| chat_id := "868474142"; audio_name := (slug ++ ".mp3")%string;
                       audio := body; duration := 0; performer := "";
                       title := "Unknown Title";
                       audio_caption := ("https://next.akarpov.ru/music/albums/#" ++ slug)%string;
                       thumbnail := None |}].
Proof.
  intros Hs Hg Hf Hlen Hauth Hname Halb Himg Hh.
  assert (Hmeta : metadata_error sg = None).
  { unfold metadata_error. now rewrite Hf, Hauth, Halb. }
  assert (Hstage : thumbnail_stage w (trace st ++ [EvMedia url]) sg [] None).
  { apply thumbnail_none. now rewrite Himg. }
  rewrite (resolve_after_thumbnail w sg slug url body [] None st Hs Hg Hf Hmeta Hh Hstage).
  assert (Hreq : upload_request sg slug body None
                 = {| chat_id := "868474142"; audio_name := (slug ++ ".mp3")%string;
                      audio := body; duration := 0; performer := "";
                      title := "Unknown Title";
                      audio_caption := ("https://next.akarpov.ru/music/albums/#" ++ slug)%string;
                      thumbnail := None |}).
  { unfold upload_request, album_of. now rewrite Hlen, Hauth, Hname, Halb. }
  rewrite Hreq.
  destruct (send_audio _ _ _) as [e|s [[fid|]]]; simpl; rewrite <- !app_assoc; reflexivity.
Qed.

Lemma resolve_bare_record_defaults_witness :
  trace (snd (get_telegram_file_id (Demo.world_of []) Tour.song_bare Demo.fresh))
  = trace Demo.fresh
    ++ [EvMedia "http://x/a.mp3";
        EvSendAudio {| chat_id := "868474142"; audio_name := ("bare" ++ ".mp3")%string;
                       audio := "mp3-bytes"; duration := 0; performer := "";
                       title := "Unknown Title";
                       audio_caption := ("https://next.akarpov.ru/music/albums/#" ++ "bare")%string;
                       thumbnail := None |}].
Proof.
  apply (resolve_bare_record_defaults
           (Demo.world_of []) Tour.song_bare "bare" "http://x/a.mp3" "mp3-bytes" Demo.fresh);
    reflexivity.
Defined.

(** ** After a refused answer, after a restart *)

(** X28.  The result list is stored in the query cache before the answer
    is sent: when the messaging platform refuses the answer, the query
    raises, but the list is in the cache and the tokens are in the store,
    and a repeat of the query whose readings of the clock come before the
    entry expires sends the same list again without searching, fetching
    or uploading. *)
Theorem inline_query_answer_refused w qid qid2 text st st0 pg st1 found ts st2 e :
  cache_contains w (PyStr.strip text) st = (Ok false, st0) ->
  fetch_songs_from_api w (PyStr.strip text) st0 = (Ok pg, st1) ->
  results pg = Some found ->
  resolves w found st1 ts st2 ->
  forallb album_known found = true ->
  answer_inline_query w (trace st2) qid (assemble found ts) = Some e ->
  (monotonic w (trace st2 ++ [EvAnswer qid (assemble found ts) 1]) (S (clock_reads st2))
   < now w st2 + 600)%Z ->
  (monotonic w (trace st2 ++ [EvAnswer qid (assemble found ts) 1]) (S (S (clock_reads st2)))
   < now w st2 + 600)%Z ->
  let st3 := snd (inline_query w qid text st) in
  fst (inline_query w qid text st) = Raise e
  /\ TTLCache.find (PyStr.strip text) (query_cache st3)
     = Some {| TTLCache.key := PyStr.strip text; TTLCache.value := assemble found ts;
               TTLCache.expires := (now w st2 + 600)%Z |}
  /\ trace st3 = trace st2 ++ [EvAnswer qid (assemble found ts) 1]
  /\ file_id_storage st3 = file_id_storage st2
  /\ trace (snd (inline_query w qid2 text st3))
     = trace st3 ++ [EvAnswer qid2 (assemble found ts) 1].
Proof.
  intros Hmiss Hfetch Hres Hrun Halb Hans Ht1 Ht2. cbv zeta.
  assert (Hq : inline_query w qid text st
               = (Raise e,
                  log (EvAnswer qid (assemble found ts) 1)
                    (set_query_cache
                       (TTLCache.setitem (now w st2) (PyStr.strip text) (assemble found ts)
                          (query_cache st2))
                       (tick st2)))).
  { rewrite (inline_query_miss w qid text st st0 pg st1 found Hmiss Hfetch Hres).
    rewrite (inline_loop_resolves w found st1 ts st2 Hrun Halb []). simpl.
    unfold answer. simpl. now rewrite Hans. }
  rewrite Hq. cbn [fst snd].
  pose proof (CacheFacts.find_setitem (now w st2) (PyStr.strip text)
                (assemble found ts) (query_cache st2)) as Hfind.
  split; [reflexivity|]. split; [exact Hfind|]. split; [reflexivity|]. split; [reflexivity|].
  match goal with
  | |- context [inline_query w qid2 text ?s] =>
      destruct (inline_query_hit_state w qid2 text s _ Hfind) as (Ht & _)
  end; [exact Ht1 | exact Ht2 | exact Ht].
Qed.

Lemma inline_query_answer_refused_witness :
  let w := Tour.world_late [Demo.song_gone; Demo.song_abc] in
  let rs := assemble [Demo.song_gone; Demo.song_abc] [None; Some "tok123"] in
  let st3 := snd (inline_query w "q1" "blue" Demo.fresh) in
  fst (inline_query w "q1" "blue" Demo.fresh) = Raise (TelegramError "Query is too old")
  /\ TTLCache.find (PyStr.strip "blue") (query_cache st3)
     = Some {| TTLCache.key := PyStr.strip "blue"; TTLCache.value := rs;
               TTLCache.expires := (now w Demo.resolved + 600)%Z |}
  /\ trace st3 = trace Demo.resolved ++ [EvAnswer "q1" rs 1]
  /\ file_id_storage st3 = file_id_storage Demo.resolved
  /\ trace (snd (inline_query w "q2" "blue" st3)) = trace st3 ++ [EvAnswer "q2" rs 1].
Proof.
  apply (inline_query_answer_refused
           (Tour.world_late [Demo.song_gone; Demo.song_abc]) "q1" "q2" "blue"
           Demo.fresh Demo.fresh
           {| results := Some [Demo.song_gone; Demo.song_abc]; next := None |}
           Demo.searched [Demo.song_gone; Demo.song_abc] [None; Some "tok123"] Demo.resolved
           (TelegramError "Query is too old")).
  - reflexivity.
  - reflexivity.
  - reflexivity.
  - apply (resolves_cons _ _ _ _ _ (log (EvMedia "http://x/gone.mp3") Demo.searched));
      [reflexivity|].
    apply (resolves_cons _ _ _ _ _ Demo.resolved); [reflexivity | apply resolves_nil].
  - reflexivity.
  - reflexivity.
  - reflexivity.
  - reflexivity.
Defined.

(** X29.  The tokens survive a restart: after any sequence of operations
    of a process, a new process that starts from the file left behind has
    the same store, and resolves every song that had a token to that
    token without sending anything, in any world. *)
Theorem tokens_survive_restart w w' file st0 ops sg slug tok :
  startup file = Ok (Some st0) ->
  s_slug sg = Some slug ->
  Dict.get slug (file_id_storage (run w ops st0)) = Some tok ->
  exists st',
    startup (disk (run w ops st0)) = Ok (Some st')
    /\ file_id_storage st' = file_id_storage (run w ops st0)
    /\ trace st' = []
    /\ get_telegram_file_id w' sg st' = (Ok (Some tok), st').
Proof.
  intros Hst Hs Hg.
  destruct (run_synced w ops st0 (startup_synced file st0 Hst)) as [_ Hload].
  unfold startup. rewrite Hload. eexists. split; [reflexivity|].
  split; [reflexivity|]. split; [reflexivity|].
  now apply (resolve_hit w' sg slug tok).
Qed.

Lemma tokens_survive_restart_witness :
  exists st',
    startup (disk (run (Demo.world_of [Demo.song_abc]) [Inline "q1" "blue"] Demo.fresh))
    = Ok (Some st')
    /\ file_id_storage st'
       = file_id_storage (run (Demo.world_of [Demo.song_abc]) [Inline "q1" "blue"] Demo.fresh)
    /\ trace st' = []
    /\ get_telegram_file_id Tour.world_offline Demo.song_abc st' = (Ok (Some "tok123"), st').
Proof.
  apply (tokens_survive_restart
           (Demo.world_of [Demo.song_abc]) Tour.world_offline None Demo.fresh
           [Inline "q1" "blue"] Demo.song_abc "abc" "tok123"); reflexivity.
Defined.
